(** * PEDIA-workflow: the preprocessing orchestrator (preprocess.py)

    A shallow embedding of [preprocess.py].  The script is a sequential
    pipeline over external collaborators (the [lib] package, [os], [pickle]).
    Every function of the script is translated as a computation in a small
    monad that threads the program state (the object store holding the Case
    objects, the disk seen by the collaborators, the checkpoint files),
    propagates Python exceptions and records every collaborator call together
    with its outcome. *)

From stdpp Require Import base option list sorting gmap strings.
From Stdlib Require Import Ascii Lia.

(** ** Python values used by the script *)

(** An exception carries its message. *)
Definition exn := string.

Inductive result (A : Type) : Type :=
| Ok (a : A)
| Raise (e : exn).
Arguments Ok {A} a.
Arguments Raise {A} e.

Definition is_raise {A} (r : result A) : Prop :=
  match r with Ok _ => False | Raise _ => True end.

(** Truthiness of a [str]: only the empty string is falsy. *)
Definition truthy (s : string) : bool :=
  match s with EmptyString => false | String _ _ => true end.

(** Truthiness of an optional argparse value: [None] and [""] are falsy. *)
Definition truthy_opt (o : option string) : bool :=
  match o with None => false | Some s => truthy s end.

(** [a or b] on strings. *)
Definition py_or (a b : string) : string := if truthy a then a else b.

(** *** [os.path] on POSIX *)

Fixpoint endswith_sep (s : string) : bool :=
  match s with
  | EmptyString => false
  | String c EmptyString => Ascii.eqb c "/"
  | String _ rest => endswith_sep rest
  end.

Definition startswith_sep (s : string) : bool :=
  match s with
  | String c _ => Ascii.eqb c "/"
  | EmptyString => false
  end.

(** [os.path.join(a, b)] *)
Definition os_path_join (a b : string) : string :=
  if startswith_sep b then b
  else if negb (truthy a) || endswith_sep a then a +:+ b
  else a +:+ "/" +:+ b.

(** Characters of [l] before the first [c], and what follows that [c]. *)
Fixpoint break_at (c : ascii) (l : list ascii) : list ascii * option (list ascii) :=
  match l with
  | [] => ([], None)
  | x :: xs =>
      if Ascii.eqb x c then ([], Some xs)
      else let '(pre, post) := break_at c xs in (x :: pre, post)
  end.

(** [os.path.splitext(p)[1]]: the extension starts at the last dot of the
    last path component, and a component made of leading dots only has
    none. *)
Definition splitext_ext (p : string) : string :=
  let rev_base := fst (break_at "/"%char (rev (String.list_ascii_of_string p))) in
  match break_at "."%char rev_base with
  | (rev_ext, Some rev_stem) =>
      if forallb (fun c => Ascii.eqb c ".") rev_stem then ""
      else String.string_of_list_ascii ("."%char :: rev rev_ext)
  | (_, None) => ""
  end.

(** ** Command line and configuration *)

(** What the operator typed: each option is present or absent. *)
Record Cli := {
  opt_single : option string;
  opt_output : option string;
  opt_pickle : option string;
  opt_entry : option string
}.

(** The namespace returned by [parser.parse_args()]. *)
Record Args := {
  single : option string;
  output : string;
  pickle : option string;
  entry : string
}.

(** [parse_arguments]: [--output] defaults to [""], [--entry] to ["pheno"],
    the two others to [None]. *)
Definition parse_arguments (cli : Cli) : Args :=
  {| single := opt_single cli;
     output := default "" (opt_output cli);
     pickle := opt_pickle cli;
     entry := default "pheno" (opt_entry cli) |}.

(** The options of [config.ConfigManager] that the script reads. *)
Record ConfigManager := {
  general_download : bool;
  general_dump_intermediate : bool;
  aws_download_location : string;
  preprocess_corrected_location : string;
  preprocess_exclude_normal_variants : bool;
  conversion_output_path : string
}.

(** ** The collaborators

    Everything imported from [lib] and the directory listing of [os] is a
    parameter of the development.  A call either returns or raises. *)
Class Collaborators := {
  Disk : Type;
  NewJson : Type;
  Case : Type;
  ErrorFixer : Type;
  PhenomizerService : Type;
  Omim : Type;
  OldJson : Type;
  (** [config.ConfigManager()] *)
  config_ConfigManager : result ConfigManager;
  (** [download.backup_s3_folder(config=...)] *)
  download_backup_s3_folder : ConfigManager -> Disk -> result Disk;
  (** [os.listdir(path)] *)
  os_listdir : Disk -> string -> result (list string);
  (** [json.NewJson.from_file(json_file, corrected)] *)
  NewJson_from_file : Disk -> string -> string -> result NewJson;
  (** [j.check()], a pair of a verdict and a reason *)
  NewJson_check : NewJson -> result (bool * string);
  (** [errorfixer.ErrorFixer(config=...)] *)
  errorfixer_ErrorFixer : ConfigManager -> result ErrorFixer;
  (** [case.Case(json, error_fixer=..., exclude_benign_variants=...)] *)
  case_Case : NewJson -> ErrorFixer -> bool -> result Case;
  (** [mutalyzer.correct_reference_transcripts(case_objs)]: the contents of
      the cases after the batch call *)
  mutalyzer_correct_reference_transcripts : list Case -> result (list Case);
  (** [phenomizer.PhenomizerService(config=...)] *)
  phenomizer_PhenomizerService : ConfigManager -> result PhenomizerService;
  (** [case_obj.phenomize(phen)]: the content of the case afterwards *)
  Case_phenomize : Case -> PhenomizerService -> result Case;
  (** [omim.Omim(config=...)] *)
  omim_Omim : ConfigManager -> result Omim;
  (** [json.OldJson.from_case_object(case_obj, destination, omim_obj)] *)
  OldJson_from_case_object : Case -> string -> Omim -> result OldJson;
  (** [old.save_json()] *)
  OldJson_save_json : OldJson -> result unit
}.

(** A Case object is known by its address in the object store. *)
Abbreviation ref := nat.

Section Preprocess.
Context `{Collaborators}.

(** ** Program state *)


(** Modelled from the spec: the format of a checkpoint, which is [pickle]
    applied to the class [Case] of [lib.model.case], not part of the sources.
    A checkpoint is an ordered snapshot of the full case collection, read
    back verbatim: the file holds the contents of the cases, in the order of
    the collection.  A file opened with mode ["wb"] is empty until
    [pickle.dump] has written the collection into it. *)
Inductive file :=
| Truncated
| Pickled (cases : list Case).

(** The state that the script threads: the case objects in memory, the
    download directory as the sync leaves it and as the listing and the
    loader read it, and the checkpoint files under the names that the script
    opens them with.  What the collaborators write elsewhere (the records
    that [save_json] persists, the log file) is recorded as an action of the
    run and is no part of this state. *)
Record state := {
  heap : list Case;
  disk : Disk;
  files : gmap string file
}.

Definition set_heap (h : list Case) (s : state) : state :=
  {| heap := h; disk := disk s; files := files s |}.
Definition set_disk (d : Disk) (s : state) : state :=
  {| heap := heap s; disk := d; files := files s |}.
Definition set_files (f : gmap string file) (s : state) : state :=
  {| heap := heap s; disk := disk s; files := f |}.

(** ** Observable actions *)

Inductive event :=
| EvLogging (logger_name logger_file : string)
| EvConfig
| EvDownload
| EvListdir (path : string)
| EvFromFile (json_file corrected : string)
| EvPrint (label : string) (n : nat)
| EvCheck (j : NewJson)
| EvErrorFixer
| EvCase (j : NewJson)
| EvCorrect (case_objs : list ref)
| EvDump (path : string) (case_objs : list ref)
| EvLoad (path : string)
| EvPhenomizerService
| EvPhenomize (case_obj : ref) (content : Case)
| EvOmim
| EvFromCase (case_obj : ref) (content : Case) (destination : string)
| EvSave (old : OldJson).

Inductive outcome := Returned | Raised.

Definition outcome_of {A} (r : result A) : outcome :=
  match r with Ok _ => Returned | Raise _ => Raised end.

Definition log := list (event * outcome).

(** ** The monad of the script *)

Record run (A : Type) := Run {
  res : result A;
  st : state;
  out : log
}.
#[global] Arguments Run {A} res st out.
#[global] Arguments res {A} r.
#[global] Arguments st {A} r.
#[global] Arguments out {A} r.

Definition M (A : Type) := state -> run A.

Definition ret {A} (a : A) : M A := fun s => Run (Ok a) s [].

Definition bind {A B} (m : M A) (k : A -> M B) : M B := fun s =>
  let r := m s in
  match res r with
  | Ok a => let r' := k a (st r) in Run (res r') (st r') (out r ++ out r')
  | Raise e => Run (Raise e) (st r) (out r)
  end.

#[global] Arguments bind {A B} m k s : simpl never.

Notation "x <- m ;; k" := (bind m (fun x => k))
  (at level 100, m at next level, right associativity).
Notation "m ;;; k" := (bind m (fun _ => k))
  (at level 100, right associativity).

(** A call to a collaborator: recorded with its outcome. *)
Definition call {A} (ev : event) (r : result A) : M A := fun s =>
  Run r s [(ev, outcome_of r)].

Definition get_disk : M Disk := fun s => Run (Ok (disk s)) s [].
Definition put_disk (d : Disk) : M unit := fun s => Run (Ok tt) (set_disk d s) [].

(** *** The object store *)

(** A constructor returned [c]: the new object gets the next address. *)
Definition new_obj (c : Case) : M ref := fun s =>
  Run (Ok (length (heap s))) (set_heap (heap s ++ [c]) s) [].

Definition deref (r : ref) : M Case := fun s =>
  match heap s !! r with
  | Some c => Run (Ok c) s []
  | None => Run (Raise "ReferenceError") s []
  end.

(** In-place mutation of the object at [r]. *)
Definition assign (r : ref) (c : Case) : M unit := fun s =>
  Run (Ok tt) (set_heap (<[r := c]> (heap s)) s) [].

Fixpoint mapM {A B} (f : A -> M B) (l : list A) : M (list B) :=
  match l with
  | [] => ret []
  | x :: xs => y <- f x ;; ys <- mapM f xs ;; ret (y :: ys)
  end.

(** A list comprehension with a condition. *)
Fixpoint filterM {A} (f : A -> M bool) (l : list A) : M (list A) :=
  match l with
  | [] => ret []
  | x :: xs =>
      b <- f x ;; ys <- filterM f xs ;; ret (if b then x :: ys else ys)
  end.

Fixpoint assign_all (rs : list ref) (cs : list Case) : M unit :=
  match rs, cs with
  | r :: rs', c :: cs' => assign r c ;;; assign_all rs' cs'
  | _, _ => ret tt
  end.

(** *** [pickle] *)

(** Modelled from the spec: [pickle.dump(case_objs, open(path, 'wb'))] on
    Case objects, whose class is not part of the sources.  The file is
    opened, hence truncated, before the collection is serialised into it;
    the snapshot holds what the cases contain at that moment. *)
Definition pickle_dump (case_objs : list ref) (path : string) : M unit :=
  (fun s => Run (Ok tt) (set_files (<[path := Truncated]> (files s)) s)
                [(EvDump path case_objs, Returned)]) ;;;
  contents <- mapM deref case_objs ;;
  fun s => Run (Ok tt) (set_files (<[path := Pickled contents]> (files s)) s) [].

(** Modelled from the spec: [with open(path, "rb") as f: pickle.load(f)].
    The snapshot is read back verbatim, every unpickled Case being a new
    object; a missing or unreadable file is a fatal error.  (The collections
    that the script pickles never hold a case twice, so a snapshot records
    no sharing between its cases.) *)
Definition pickle_load (path : string) : M (list ref) := fun s =>
  match files s !! path with
  | None => call (EvLoad path) (Raise "FileNotFoundError") s
  | Some Truncated => call (EvLoad path) (Raise "EOFError") s
  | Some (Pickled contents) =>
      (call (EvLoad path) (Ok tt) ;;; mapM new_obj contents) s
  end.

(** ** The script *)

(** [configure_logging(logger_name, logger_file="preprocess.log")]: installs
    the two handlers of the logger; the log file is opened for writing. *)
Definition configure_logging (logger_name : string) : M unit :=
  call (EvLogging logger_name "preprocess.log") (Ok tt).

(** [json_from_directory] *)
Definition json_from_directory (config_data : ConfigManager)
  : M (list string * string) :=
  (if general_download config_data
   then d <- get_disk ;;
        d' <- call EvDownload (download_backup_s3_folder config_data d) ;;
        put_disk d'
   else ret tt) ;;;
  let unprocessed_jsons :=
    os_path_join (aws_download_location config_data) "cases" in
  d <- get_disk ;;
  names <- call (EvListdir unprocessed_jsons) (os_listdir d unprocessed_jsons) ;;
  let json_files :=
    map (os_path_join unprocessed_jsons)
        (filter (fun x => splitext_ext x = ".json") names) in
  let corrected := preprocess_corrected_location config_data in
  ret (json_files, corrected).

(** Modelled from the spec: the decorator [progress_bar] of [lib.visual],
    which is not part of the sources.  The wrapped generator is a finite
    stream that is consumed once, to its end, while progress is reported; the
    callers take [len] of the result, pickle it and iterate over it, so the
    values it yielded are handed back as a list.  [body] is one iteration of
    the generator, up to its [yield]. *)
Definition progress_bar {A B} (label : string) (body : A -> M B)
  (iterable : list A) : M (list B) :=
  mapM body iterable.

Definition yield_jsons (json_files : list string) (corrected : string)
  : M (list NewJson) :=
  progress_bar "Process jsons"
    (fun json_file =>
       d <- get_disk ;;
       call (EvFromFile json_file corrected)
            (NewJson_from_file d json_file corrected))
    json_files.

Definition yield_cases (json_files : list NewJson) (error_fixer : ErrorFixer)
  (exclusion : bool) : M (list ref) :=
  progress_bar "Create cases"
    (fun json_file =>
       c <- call (EvCase json_file) (case_Case json_file error_fixer exclusion) ;;
       new_obj c)
    json_files.

Definition yield_phenomized (case_objs : list ref) (phen : PhenomizerService)
  : M (list unit) :=
  progress_bar "Phenomization"
    (fun case_obj =>
       c <- deref case_obj ;;
       c' <- call (EvPhenomize case_obj c) (Case_phenomize c phen) ;;
       assign case_obj c')
    case_objs.

Definition yield_old_json (case_objs : list ref) (destination : string)
  (omim_obj : Omim) : M (list unit) :=
  progress_bar "Convert old"
    (fun case_obj =>
       c <- deref case_obj ;;
       old <- call (EvFromCase case_obj c destination)
                   (OldJson_from_case_object c destination omim_obj) ;;
       call (EvSave old) (OldJson_save_json old))
    case_objs.

Definition print (label : string) (n : nat) : M unit :=
  call (EvPrint label n) (Ok tt).

(** [j.check()[0]] *)
Definition check_passes (j : NewJson) : M bool :=
  verdict <- call (EvCheck j) (NewJson_check j) ;;
  ret (fst verdict).

Definition create_jsons (args : Args) (config_data : ConfigManager)
  : M (list NewJson) :=
  files_and_corrected <-
    (match single args with
     | Some path =>
         if truthy path then ret ([path], "")
         else json_from_directory config_data
     | None => json_from_directory config_data
     end) ;;
  let '(json_files, corrected) := files_and_corrected in
  new_json_objs <- yield_jsons json_files corrected ;;
  print "Unfiltered" (length new_json_objs) ;;;
  filtered_new <- filterM check_passes new_json_objs ;;
  print "Filtered rough criteria" (length filtered_new) ;;;
  ret filtered_new.

(** [mutalyzer.correct_reference_transcripts(case_objs)]: one call on the
    whole collection, which mutates the cases in place. *)
Definition correct_reference_transcripts (case_objs : list ref) : M unit :=
  contents <- mapM deref case_objs ;;
  contents' <- call (EvCorrect case_objs)
                    (mutalyzer_correct_reference_transcripts contents) ;;
  assign_all case_objs contents'.

Definition create_cases (args : Args) (config_data : ConfigManager)
  (jsons : list NewJson) : M (list ref) :=
  error_fixer <- call EvErrorFixer (errorfixer_ErrorFixer config_data) ;;
  case_objs <- yield_cases jsons error_fixer
                 (preprocess_exclude_normal_variants config_data) ;;
  correct_reference_transcripts case_objs ;;;
  (if general_dump_intermediate config_data
   then pickle_dump case_objs "case_cleaned.p"
   else ret tt) ;;;
  ret case_objs.

Definition phenomize (config_data : ConfigManager) (cases : list ref)
  : M (list ref) :=
  phen <- call EvPhenomizerService (phenomizer_PhenomizerService config_data) ;;
  yield_phenomized cases phen ;;;
  (if general_dump_intermediate config_data
   then pickle_dump cases "case_phenomized.p"
   else ret tt) ;;;
  ret cases.

Definition convert_to_old_format (args : Args) (config_data : ConfigManager)
  (cases : list ref) : M unit :=
  let destination :=
    py_or (output args) (conversion_output_path config_data) in
  omim_obj <- call EvOmim (omim_Omim config_data) ;;
  yield_old_json cases destination omim_obj ;;;
  ret tt.

Definition main (cli : Cli) : M unit :=
  configure_logging "lib" ;;;
  config_data <- call EvConfig config_ConfigManager ;;
  let args := parse_arguments cli in
  cases <- (match pickle args with
            | Some path =>
                if truthy path then pickle_load path
                else jsons <- create_jsons args config_data ;;
                     create_cases args config_data jsons
            | None =>
                jsons <- create_jsons args config_data ;;
                create_cases args config_data jsons
            end) ;;
  cases <- (if String.eqb (entry args) "pheno"
            then phenomize config_data cases
            else ret cases) ;;
  convert_to_old_format args config_data cases.

End Preprocess.

Notation "x <- m ;; k" := (bind m (fun x => k))
  (at level 100, m at next level, right associativity).
Notation "m ;;; k" := (bind m (fun _ => k))
  (at level 100, right associativity).

(** ** A small world in which the script can be run *)

Record demo_case := {
  case_id : string;
  transcripts_fixed : bool;
  phenotype : bool
}.

Definition demo_new_case (j : string) : demo_case :=
  {| case_id := j; transcripts_fixed := false; phenotype := false |}.

Definition demo_fix (c : demo_case) : demo_case :=
  {| case_id := case_id c; transcripts_fixed := true; phenotype := phenotype c |}.

(** The service knows every case but those whose file name starts with
    [unknown]. *)
Definition demo_phenomize (c : demo_case) : result demo_case :=
  if String.prefix "data/cases/unknown" (case_id c)
  then Raise "phenomizer: no result"
  else Ok {| case_id := case_id c;
             transcripts_fixed := transcripts_fixed c;
             phenotype := true |}.

(** The disk is the listing of the download directory; a sync adds one
    submission; a submission passes the rough check unless its file name
    starts with [bad]. *)
Definition demo_world (cfg : result ConfigManager) : Collaborators :=
  {| Disk := list string;
     NewJson := string;
     Case := demo_case;
     ErrorFixer := unit;
     PhenomizerService := unit;
     Omim := unit;
     OldJson := string * string;
     config_ConfigManager := cfg;
     download_backup_s3_folder := fun _ d => Ok (d ++ ["synced.json"]);
     os_listdir := fun d path =>
       if String.eqb path "data/cases" then Ok d else Raise "FileNotFoundError";
     NewJson_from_file := fun _ json_file _ => Ok json_file;
     NewJson_check := fun j =>
       Ok (negb (String.prefix "data/cases/bad" j), "rough criteria");
     errorfixer_ErrorFixer := fun _ => Ok tt;
     case_Case := fun j _ _ => Ok (demo_new_case j);
     mutalyzer_correct_reference_transcripts := fun cs => Ok (map demo_fix cs);
     phenomizer_PhenomizerService := fun _ => Ok tt;
     Case_phenomize := fun c _ => demo_phenomize c;
     omim_Omim := fun _ => Ok tt;
     OldJson_from_case_object := fun c destination _ => Ok (case_id c, destination);
     OldJson_save_json := fun _ => Ok tt |}.

Definition demo_config (download dump : bool) : ConfigManager :=
  {| general_download := download;
     general_dump_intermediate := dump;
     aws_download_location := "data";
     preprocess_corrected_location := "corrected";
     preprocess_exclude_normal_variants := false;
     conversion_output_path := "out" |}.

Definition demo_state (cfg : result ConfigManager) (listing : list string)
  (checkpoints : list (string * list demo_case))
  : @state (demo_world cfg) :=
  @Build_state (demo_world cfg) [] listing
    (list_to_map (map (fun '(p, cs) => (p, @Pickled (demo_world cfg) cs))
                      checkpoints)).

Definition demo_cli (one checkpoint : option string) : Cli :=
  {| opt_single := one; opt_output := None; opt_pickle := checkpoint;
     opt_entry := None |}.

(** Three submissions, of which one fails the rough check, and a file that
    is not a submission. *)
Definition demo_listing : list string :=
  ["a.json"; "bad.json"; "c.txt"; "d.json"].

(** A checkpoint of three cases, the second of which the service does not
    know. *)
Definition demo_checkpoint : list demo_case :=
  map (fun j => demo_fix (demo_new_case j))
      ["data/cases/a.json"; "data/cases/unknown.json"; "data/cases/d.json"].

(** A run of [main] in the small world. *)
Definition demo_main (download dump : bool) (cli : Cli)
  (listing : list string) (checkpoints : list (string * list demo_case))
  : @run (demo_world (Ok (demo_config download dump))) unit :=
  @main (demo_world (Ok (demo_config download dump))) cli
    (demo_state (Ok (demo_config download dump)) listing checkpoints).

(** The small world with the sync switched off and the checkpoints on. *)
Definition demo_W : Collaborators := demo_world (Ok (demo_config false true)).

(** Its initial state: the download directory and no checkpoint. *)
Definition demo_s0 : @state demo_W :=
  demo_state (Ok (demo_config false true)) demo_listing [].

(** A state with the checkpoint [case_cleaned.p] of three cases. *)
Definition demo_s1 : @state demo_W :=
  demo_state (Ok (demo_config false true)) []
    [("case_cleaned.p", demo_checkpoint)].

(** A state with a checkpoint of two cases that the service knows. *)
Definition demo_s2 : @state demo_W :=
  demo_state (Ok (demo_config false true)) []
    [("case_cleaned.p",
      [demo_fix (demo_new_case "data/cases/a.json");
       demo_fix (demo_new_case "data/cases/d.json")])].

(** A state in which two cases are in memory. *)
Definition demo_s3 : @state demo_W :=
  @Build_state demo_W
    [demo_new_case "data/cases/a.json"; demo_new_case "data/cases/d.json"]
    [] ∅.


(** * Properties *)

Section Properties.
Context `{Collaborators}.

Implicit Types (s : state) (ev : event) (t : log).

(** ** The monad *)

Lemma res_bind {A B} (m : M A) (k : A -> M B) s :
  res (bind m k s) =
  match res (m s) with Ok a => res (k a (st (m s))) | Raise e => Raise e end.
Proof. unfold bind. destruct (res (m s)); reflexivity. Qed.

Lemma st_bind {A B} (m : M A) (k : A -> M B) s :
  st (bind m k s) =
  match res (m s) with Ok a => st (k a (st (m s))) | Raise e => st (m s) end.
Proof. unfold bind. destruct (res (m s)); reflexivity. Qed.

Lemma out_bind {A B} (m : M A) (k : A -> M B) s :
  out (bind m k s) =
  out (m s) ++
  match res (m s) with Ok a => out (k a (st (m s))) | Raise e => [] end.
Proof.
  unfold bind. destruct (res (m s)); simpl; [reflexivity|].
  symmetry; apply app_nil_r.
Qed.

Lemma run_ext {A} (r r' : run A) :
  res r = res r' -> st r = st r' -> out r = out r' -> r = r'.
Proof. destruct r, r'. simpl. intros -> -> ->. reflexivity. Qed.

Lemma bind_ok_inv {A B} (m : M A) (k : A -> M B) s b :
  res (bind m k s) = Ok b ->
  exists a, res (m s) = Ok a /\ res (k a (st (m s))) = Ok b.
Proof.
  rewrite res_bind. destruct (res (m s)) as [a|e]; [eauto|discriminate].
Qed.

(** ** Which events a computation records *)

Definition emits {A} (P : event -> Prop) (m : M A) : Prop :=
  forall s, Forall (fun x => P x.1) (out (m s)).

Lemma emits_mono {A} (P Q : event -> Prop) (m : M A) :
  (forall ev, P ev -> Q ev) -> emits P m -> emits Q m.
Proof.
  intros HPQ Hm s. eapply Forall_impl; [apply Hm|]. intros x; apply HPQ.
Qed.

Lemma emits_ret {A} P (a : A) : emits P (ret a).
Proof. intros s; constructor. Qed.

Lemma emits_call {A} (P : event -> Prop) ev (r : result A) :
  P ev -> emits P (call ev r).
Proof. intros HP s; simpl. repeat constructor. exact HP. Qed.

Lemma emits_bind {A B} P (m : M A) (k : A -> M B) :
  emits P m -> (forall a, emits P (k a)) -> emits P (bind m k).
Proof.
  intros Hm Hk s. rewrite out_bind. apply Forall_app; split; [apply Hm|].
  destruct (res (m s)); [apply Hk|constructor].
Qed.

Lemma emits_mapM {A B} P (f : A -> M B) l :
  (forall x, emits P (f x)) -> emits P (mapM f l).
Proof.
  intros Hf. induction l as [|x xs IH]; simpl.
  - apply emits_ret.
  - apply emits_bind; [apply Hf|]. intros y.
    apply emits_bind; [apply IH|]. intros ys. apply emits_ret.
Qed.

Lemma emits_filterM {A} P (f : A -> M bool) l :
  (forall x, emits P (f x)) -> emits P (filterM f l).
Proof.
  intros Hf. induction l as [|x xs IH]; simpl.
  - apply emits_ret.
  - apply emits_bind; [apply Hf|]. intros y.
    apply emits_bind; [apply IH|]. intros ys. apply emits_ret.
Qed.

Lemma emits_get_disk P : emits P get_disk.
Proof. intros s; constructor. Qed.

Lemma emits_put_disk P d : emits P (put_disk d).
Proof. intros s; constructor. Qed.

Lemma emits_new_obj P c : emits P (new_obj c).
Proof. intros s; constructor. Qed.

Lemma emits_deref P r : emits P (deref r).
Proof. intros s; unfold deref. destruct (heap s !! r); constructor. Qed.

Lemma emits_assign P r c : emits P (assign r c).
Proof. intros s; constructor. Qed.

Lemma emits_assign_all P rs cs : emits P (assign_all rs cs).
Proof.
  revert cs. induction rs as [|r rs IH]; intros [|c cs]; simpl;
    try apply emits_ret.
  apply emits_bind; [apply emits_assign|]. intros _. apply IH.
Qed.

Lemma emits_pickle_dump (P : event -> Prop) case_objs path :
  P (EvDump path case_objs) -> emits P (pickle_dump case_objs path).
Proof.
  intros HP. unfold pickle_dump.
  apply emits_bind; [intros s; repeat constructor; exact HP|]. intros _.
  apply emits_bind; [apply emits_mapM; intros r; apply emits_deref|].
  intros cs s; constructor.
Qed.

Lemma emits_pickle_load (P : event -> Prop) path :
  P (EvLoad path) -> emits P (pickle_load path).
Proof.
  intros HP s. unfold pickle_load.
  destruct (files s !! path) as [[|cs]|].
  - apply emits_call, HP.
  - apply emits_bind; [apply emits_call, HP|]. intros _.
    apply emits_mapM. intros c. apply emits_new_obj.
  - apply emits_call, HP.
Qed.

(** ** A raised call ends the computation *)

Definition faithful {A} (m : M A) : Prop :=
  forall s ev, (ev, Raised) ∈ out (m s) -> is_raise (res (m s)).

Lemma faithful_silent {A} (m : M A) :
  (forall s, out (m s) = []) -> faithful m.
Proof. intros Hm s ev. rewrite Hm. intros Hin. inversion Hin. Qed.

Lemma faithful_call {A} ev (r : result A) : faithful (call ev r).
Proof.
  intros s ev'. simpl. rewrite list_elem_of_singleton. intros Heq.
  destruct r; simpl in *; [discriminate|exact I].
Qed.

Lemma faithful_bind {A B} (m : M A) (k : A -> M B) :
  faithful m -> (forall a, faithful (k a)) -> faithful (bind m k).
Proof.
  intros Hm Hk s ev. rewrite out_bind, res_bind, elem_of_app.
  intros [Hin|Hin].
  - apply Hm in Hin. destruct (res (m s)); [destruct Hin|exact I].
  - destruct (res (m s)) as [a|e]; [|inversion Hin]. eapply Hk, Hin.
Qed.

Lemma faithful_mapM {A B} (f : A -> M B) l :
  (forall x, faithful (f x)) -> faithful (mapM f l).
Proof.
  intros Hf. induction l as [|x xs IH]; simpl.
  - apply faithful_silent; reflexivity.
  - apply faithful_bind; [apply Hf|]. intros y.
    apply faithful_bind; [apply IH|]. intros ys.
    apply faithful_silent; reflexivity.
Qed.

Lemma faithful_filterM {A} (f : A -> M bool) l :
  (forall x, faithful (f x)) -> faithful (filterM f l).
Proof.
  intros Hf. induction l as [|x xs IH]; simpl.
  - apply faithful_silent; reflexivity.
  - apply faithful_bind; [apply Hf|]. intros y.
    apply faithful_bind; [apply IH|]. intros ys.
    apply faithful_silent; reflexivity.
Qed.

Lemma out_deref r s : out (deref r s) = [].
Proof. unfold deref. destruct (heap s !! r); reflexivity. Qed.

Lemma out_assign_all rs cs s : out (assign_all rs cs s) = [].
Proof.
  revert cs s. induction rs as [|r rs IH]; intros [|c cs] s; simpl; try reflexivity.
  apply IH.
Qed.

Lemma out_mapM_deref rs s : out (mapM deref rs s) = [].
Proof.
  revert s. induction rs as [|r rs IH]; intros s; [reflexivity|].
  cbn [mapM]. rewrite out_bind, out_deref. cbn [app].
  destruct (res (deref r s)); [|reflexivity].
  rewrite out_bind, IH. destruct (res _); reflexivity.
Qed.

Lemma out_mapM_new_obj cs s : out (mapM new_obj cs s) = [].
Proof.
  revert s. induction cs as [|c cs IH]; intros s; [reflexivity|].
  cbn [mapM]. rewrite out_bind. cbn [new_obj res out st app].
  rewrite out_bind, IH. destruct (res _); reflexivity.
Qed.

Lemma faithful_pickle_dump case_objs path : faithful (pickle_dump case_objs path).
Proof.
  intros s ev. unfold pickle_dump. rewrite out_bind. cbn [res out st].
  rewrite out_bind, out_mapM_deref.
  destruct (res (mapM deref _ _)); cbn [out app];
    rewrite list_elem_of_singleton; discriminate.
Qed.

Lemma faithful_pickle_load path : faithful (pickle_load path).
Proof.
  intros s ev. unfold pickle_load.
  destruct (files s !! path) as [[|cs]|].
  - intros _; exact I.
  - rewrite out_bind. cbn [call res out st]. rewrite out_mapM_new_obj.
    cbn [app]. rewrite list_elem_of_singleton. discriminate.
  - intros _; exact I.
Qed.

(** ** What a computation leaves untouched *)

Definition frames {A X} (f : state -> X) (m : M A) : Prop :=
  forall s, f (st (m s)) = f s.

Lemma frames_ret {A X} (f : state -> X) (a : A) : frames f (ret a).
Proof. intros s; reflexivity. Qed.

Lemma frames_call {A X} (f : state -> X) ev (r : result A) :
  frames f (call ev r).
Proof. intros s; reflexivity. Qed.

Lemma frames_bind {A B X} (f : state -> X) (m : M A) (k : A -> M B) :
  frames f m -> (forall a, frames f (k a)) -> frames f (bind m k).
Proof.
  intros Hm Hk s. rewrite st_bind.
  destruct (res (m s)); [rewrite Hk|]; apply Hm.
Qed.

Lemma frames_mapM {A B X} (f : state -> X) (g : A -> M B) l :
  (forall x, frames f (g x)) -> frames f (mapM g l).
Proof.
  intros Hg. induction l as [|x xs IH]; simpl.
  - apply frames_ret.
  - apply frames_bind; [apply Hg|]. intros y.
    apply frames_bind; [apply IH|]. intros ys. apply frames_ret.
Qed.

Lemma frames_filterM {A X} (f : state -> X) (g : A -> M bool) l :
  (forall x, frames f (g x)) -> frames f (filterM g l).
Proof.
  intros Hg. induction l as [|x xs IH]; simpl.
  - apply frames_ret.
  - apply frames_bind; [apply Hg|]. intros y.
    apply frames_bind; [apply IH|]. intros ys. apply frames_ret.
Qed.

Lemma frames_deref {X} (f : state -> X) r : frames f (deref r).
Proof. intros s; unfold deref. destruct (heap s !! r); reflexivity. Qed.

Lemma frames_get_disk {X} (f : state -> X) : frames f get_disk.
Proof. intros s; reflexivity. Qed.

(** A function of the state that does not read the object store. *)
Definition ignores_heap {X} (f : state -> X) : Prop :=
  forall h s, f (set_heap h s) = f s.
Definition ignores_disk {X} (f : state -> X) : Prop :=
  forall d s, f (set_disk d s) = f s.

Lemma frames_new_obj {X} (f : state -> X) c :
  ignores_heap f -> frames f (new_obj c).
Proof. intros Hf s. apply Hf. Qed.

Lemma frames_assign {X} (f : state -> X) r c :
  ignores_heap f -> frames f (assign r c).
Proof. intros Hf s. apply Hf. Qed.

Lemma frames_assign_all {X} (f : state -> X) rs cs :
  ignores_heap f -> frames f (assign_all rs cs).
Proof.
  intros Hf. revert cs. induction rs as [|r rs IH]; intros [|c cs]; simpl;
    try apply frames_ret.
  apply frames_bind; [apply frames_assign, Hf|]. intros _. apply IH.
Qed.

Lemma frames_put_disk {X} (f : state -> X) d :
  ignores_disk f -> frames f (put_disk d).
Proof. intros Hf s. apply Hf. Qed.

(** [pickle.dump] touches only the file it writes. *)
Lemma frames_pickle_dump_other case_objs path path' :
  path <> path' ->
  frames (fun s => files s !! path') (pickle_dump case_objs path).
Proof.
  intros Hne. unfold pickle_dump.
  apply frames_bind; [intros s; simpl; apply lookup_insert_ne, Hne|]. intros _.
  apply frames_bind; [apply frames_mapM; intros r; apply frames_deref|].
  intros cs s; simpl. apply lookup_insert_ne, Hne.
Qed.

Lemma frames_pickle_load {X} (f : state -> X) path :
  ignores_heap f -> frames f (pickle_load path).
Proof.
  intros Hf s. unfold pickle_load.
  destruct (files s !! path) as [[|cs]|]; try reflexivity.
  apply frames_bind; [apply frames_call|]. intros _.
  apply frames_mapM. intros c. apply frames_new_obj, Hf.
Qed.

End Properties.

Ltac emits_step :=
  first
    [ apply emits_ret | apply emits_get_disk | apply emits_put_disk
    | apply emits_new_obj | apply emits_deref | apply emits_assign
    | apply emits_assign_all
    | apply emits_pickle_dump
    | apply emits_pickle_load
    | apply emits_call
    | apply emits_mapM; intros ?
    | apply emits_filterM; intros ?
    | apply emits_bind; [|intros ?] ].

Ltac faithful_step :=
  first
    [ apply faithful_call | apply faithful_pickle_dump
    | apply faithful_pickle_load
    | apply faithful_bind; [|intros ?]
    | apply faithful_mapM; intros ?
    | apply faithful_filterM; intros ?
    | apply faithful_silent; intros ?;
      first [reflexivity | apply out_deref | apply out_assign_all] ].

Ltac frames_step :=
  first
    [ apply frames_ret | apply frames_call | apply frames_deref
    | apply frames_get_disk
    | apply frames_new_obj; intros ? ?; reflexivity
    | apply frames_assign; intros ? ?; reflexivity
    | apply frames_assign_all; intros ? ?; reflexivity
    | apply frames_put_disk; intros ? ?; reflexivity
    | apply frames_pickle_load; intros ? ?; reflexivity
    | apply frames_pickle_dump_other; discriminate
    | apply frames_bind; [|intros ?]
    | apply frames_mapM; intros ?
    | apply frames_filterM; intros ? ].

Ltac emits_auto :=
  repeat first
    [ emits_step
    | match goal with
      | |- emits _ (if ?b then _ else _) => destruct b
      | |- emits _ (match ?x with _ => _ end) => destruct x
      end ].

Ltac faithful_auto :=
  repeat first
    [ faithful_step
    | match goal with
      | |- faithful (if ?b then _ else _) => destruct b
      | |- faithful (match ?x with _ => _ end) => destruct x
      end ].

Ltac frames_auto :=
  repeat first
    [ frames_step
    | match goal with
      | |- frames _ (if ?b then _ else _) => destruct b
      | |- frames _ (match ?x with _ => _ end) => destruct x
      end ].

(** ** The stages of the pipeline *)

Section Stages.
Context `{Collaborators}.

Implicit Types (s : state) (ev : event) (t : log).

(** The first block of [main]: the collection is built from the submissions,
    or loaded from the checkpoint when [--pickle] is given. *)
Definition main_cases (args : Args) (config_data : ConfigManager)
  : M (list ref) :=
  match pickle args with
  | Some path =>
      if truthy path then pickle_load path
      else jsons <- create_jsons args config_data ;;
           create_cases args config_data jsons
  | None =>
      jsons <- create_jsons args config_data ;;
      create_cases args config_data jsons
  end.

(** The destination of the legacy export:
    [args.output or config_data.conversion["output_path"]]. *)
Definition destination_of (args : Args) (config_data : ConfigManager) : string :=
  py_or (output args) (conversion_output_path config_data).

(** Every action belongs to one step of the pipeline; the steps are numbered
    in the order in which [main] reaches them. *)
Definition phase ev : nat :=
  match ev with
  | EvLogging _ _ => 0
  | EvConfig => 1
  | EvDownload => 2
  | EvListdir _ => 3
  | EvFromFile _ _ => 4
  | EvPrint label _ => if String.eqb label "Unfiltered" then 5 else 7
  | EvCheck _ => 6
  | EvErrorFixer => 8
  | EvCase _ => 9
  | EvCorrect _ => 10
  | EvDump path _ => if String.eqb path "case_phenomized.p" then 14 else 11
  | EvLoad _ => 11
  | EvPhenomizerService => 12
  | EvPhenomize _ _ => 13
  | EvOmim => 15
  | EvFromCase _ _ _ => 16
  | EvSave _ => 16
  end.

Definition between (lo hi : nat) ev : Prop := lo <= phase ev <= hi.

Lemma between_mono lo hi lo' hi' ev :
  lo' <= lo -> hi <= hi' -> between lo hi ev -> between lo' hi' ev.
Proof. unfold between. lia. Qed.

Definition in_order : relation (event * outcome) :=
  fun x y => phase x.1 <= phase y.1.

Definition ordered {A} (m : M A) : Prop :=
  forall s, StronglySorted in_order (out (m s)).

(** A computation whose actions lie between two steps, in order. *)
Definition phased {A} (lo hi : nat) (m : M A) : Prop :=
  emits (between lo hi) m /\ ordered m.

Lemma phased_mono {A} lo hi lo' hi' (m : M A) :
  lo' <= lo -> hi <= hi' -> phased lo hi m -> phased lo' hi' m.
Proof.
  intros Hlo Hhi [Hm Ho]. split; [|exact Ho].
  eapply emits_mono; [|exact Hm]. intros ev. apply between_mono; assumption.
Qed.

Lemma phased_flat {A} n (m : M A) : emits (between n n) m -> phased n n m.
Proof.
  intros Hm. split; [exact Hm|]. intros s. specialize (Hm s).
  induction Hm as [|x t Hx Ht IH]; constructor; [exact IH|].
  eapply Forall_impl; [exact Ht|]. intros y Hy.
  unfold in_order, between in *. lia.
Qed.

Lemma phased_silent {A} lo hi (m : M A) :
  (forall s, out (m s) = []) -> phased lo hi m.
Proof. intros Hm. split; intros s; rewrite Hm; constructor. Qed.

Lemma phased_bind {A B} lo mid hi (m : M A) (k : A -> M B) :
  lo <= mid <= hi ->
  phased lo mid m -> (forall a, phased mid hi (k a)) -> phased lo hi (bind m k).
Proof.
  intros Hmid [Hm Hom] Hk. split.
  - apply emits_bind.
    + eapply emits_mono; [|exact Hm]. intros ev. apply between_mono; lia.
    + intros a. eapply emits_mono; [|apply Hk]. intros ev.
      apply between_mono; lia.
  - intros s. rewrite out_bind. apply StronglySorted_app. split_and!.
    + intros x y Hx Hy.
      destruct (res (m s)) as [a|e]; [|inversion Hy].
      pose proof (proj1 (Forall_forall _ _) (Hm s) x Hx) as Hbx.
      pose proof (proj1 (Forall_forall _ _) (proj1 (Hk a) (st (m s))) y Hy) as Hby.
      unfold in_order, between in *. simpl in *. lia.
    + apply Hom.
    + destruct (res (m s)) as [a|e]; [apply Hk|constructor].
Qed.

Lemma phased_json_from_directory config_data :
  phased 2 3 (json_from_directory config_data).
Proof.
  unfold json_from_directory.
  apply (phased_bind 2 2 3); [lia| |intros _].
  - apply phased_flat. emits_auto. unfold between; simpl; lia.
  - apply (phased_mono 3 3); [lia|lia|]. apply phased_flat.
    emits_auto. unfold between; simpl; lia.
Qed.

Lemma phased_yield_jsons json_files corrected :
  phased 4 4 (yield_jsons json_files corrected).
Proof.
  apply phased_flat. unfold yield_jsons, progress_bar. emits_auto.
  unfold between; simpl; lia.
Qed.

Lemma phased_create_jsons_tail json_files corrected :
  phased 4 7
    (new_json_objs <- yield_jsons json_files corrected ;;
     print "Unfiltered" (length new_json_objs) ;;;
     filtered_new <- filterM check_passes new_json_objs ;;
     print "Filtered rough criteria" (length filtered_new) ;;;
     ret filtered_new).
Proof.
  apply (phased_bind 4 4 7); [lia|apply phased_yield_jsons|intros js].
  apply (phased_bind 4 5 7); [lia| |intros _].
  { apply (phased_mono 5 5); [lia|lia|]. apply phased_flat.
    unfold print. emits_auto. unfold between; simpl; lia. }
  apply (phased_bind 5 6 7); [lia| |intros fs].
  { apply (phased_mono 6 6); [lia|lia|]. apply phased_flat.
    unfold check_passes. emits_auto. unfold between; simpl; lia. }
  apply (phased_mono 7 7); [lia|lia|]. apply phased_flat.
  unfold print. emits_auto. unfold between; simpl; lia.
Qed.

Lemma phased_create_jsons args config_data :
  phased 2 7 (create_jsons args config_data).
Proof.
  unfold create_jsons.
  apply (phased_bind 2 3 7); [lia| |intros [json_files corrected]].
  - destruct (single args) as [path|]; [destruct (truthy path)|];
      try apply (phased_mono 2 3 2 3), phased_json_from_directory; try lia.
    apply phased_silent. reflexivity.
  - apply (phased_mono 4 7); [lia|lia|]. apply phased_create_jsons_tail.
Qed.

(** With [--single] the stage starts at the parsing of the one file. *)
Lemma phased_create_jsons_single args config_data path :
  single args = Some path -> truthy path = true ->
  phased 4 7 (create_jsons args config_data).
Proof.
  intros Hs Ht. unfold create_jsons. rewrite Hs, Ht.
  apply (phased_bind 4 4 7); [lia| |intros [json_files corrected]].
  - apply phased_silent. reflexivity.
  - apply phased_create_jsons_tail.
Qed.

Lemma phased_create_cases args config_data jsons :
  phased 8 11 (create_cases args config_data jsons).
Proof.
  unfold create_cases.
  apply (phased_bind 8 8 11); [lia| |intros ef].
  { apply phased_flat. emits_auto. unfold between; simpl; lia. }
  apply (phased_bind 8 9 11); [lia| |intros case_objs].
  { apply (phased_mono 9 9); [lia|lia|]. apply phased_flat.
    unfold yield_cases, progress_bar. emits_auto. unfold between; simpl; lia. }
  apply (phased_bind 9 10 11); [lia| |intros _].
  { apply (phased_mono 10 10); [lia|lia|]. apply phased_flat.
    unfold correct_reference_transcripts. emits_auto.
    unfold between; simpl; lia. }
  apply (phased_mono 11 11); [lia|lia|]. apply phased_flat.
  emits_auto. unfold between; simpl; lia.
Qed.

Lemma phased_pickle_load path : phased 11 11 (pickle_load path).
Proof. apply phased_flat. emits_auto. unfold between; simpl; lia. Qed.

Lemma phased_main_cases args config_data :
  phased 2 11 (main_cases args config_data).
Proof.
  assert (phased 2 11 (jsons <- create_jsons args config_data ;;
                       create_cases args config_data jsons)) as Hfresh.
  { apply (phased_bind 2 7 11); [lia|apply phased_create_jsons|intros jsons].
    apply (phased_mono 8 11); [lia|lia|]. apply phased_create_cases. }
  unfold main_cases.
  destruct (pickle args) as [path|]; [destruct (truthy path)|];
    try exact Hfresh.
  apply (phased_mono 11 11); [lia|lia|]. apply phased_pickle_load.
Qed.

Lemma phased_phenomize config_data cases :
  phased 12 14 (phenomize config_data cases).
Proof.
  unfold phenomize.
  apply (phased_bind 12 12 14); [lia| |intros phen].
  { apply phased_flat. emits_auto. unfold between; simpl; lia. }
  apply (phased_bind 12 13 14); [lia| |intros _].
  { apply (phased_mono 13 13); [lia|lia|]. apply phased_flat.
    unfold yield_phenomized, progress_bar. emits_auto.
    unfold between; simpl; lia. }
  apply (phased_mono 14 14); [lia|lia|]. apply phased_flat.
  emits_auto. unfold between; simpl; lia.
Qed.

Lemma phased_convert_to_old_format args config_data cases :
  phased 15 16 (convert_to_old_format args config_data cases).
Proof.
  unfold convert_to_old_format.
  apply (phased_bind 15 15 16); [lia| |intros omim_obj].
  { apply phased_flat. emits_auto. unfold between; simpl; lia. }
  apply (phased_mono 16 16); [lia|lia|]. apply phased_flat.
  unfold yield_old_json, progress_bar. emits_auto; unfold between; simpl; lia.
Qed.

(** What follows the first block of [main]. *)
Definition main_rest (args : Args) (config_data : ConfigManager)
  (cases : list ref) : M unit :=
  cases' <- (if String.eqb (entry args) "pheno"
             then phenomize config_data cases
             else ret cases) ;;
  convert_to_old_format args config_data cases'.

Lemma phased_main_rest args config_data cases :
  phased 12 16 (main_rest args config_data cases).
Proof.
  unfold main_rest.
  apply (phased_bind 12 14 16); [lia| |intros cases'].
  - destruct (String.eqb _ _); [apply phased_phenomize|].
    apply phased_silent. reflexivity.
  - apply (phased_mono 15 16); [lia|lia|]. apply phased_convert_to_old_format.
Qed.

Lemma main_unfold cli :
  main cli =
  (configure_logging "lib" ;;;
   config_data <- call EvConfig config_ConfigManager ;;
   cases <- main_cases (parse_arguments cli) config_data ;;
   main_rest (parse_arguments cli) config_data cases).
Proof. reflexivity. Qed.

Lemma phased_main cli : phased 0 16 (main cli).
Proof.
  rewrite main_unfold.
  apply (phased_bind 0 0 16); [lia| |intros _].
  { apply phased_flat. unfold configure_logging. emits_auto.
    unfold between; simpl; lia. }
  apply (phased_bind 0 1 16); [lia| |intros config_data].
  { apply (phased_mono 1 1); [lia|lia|]. apply phased_flat. emits_auto.
    unfold between; simpl; lia. }
  apply (phased_bind 1 11 16); [lia| |intros cases].
  { apply (phased_mono 2 11); [lia|lia|]. apply phased_main_cases. }
  apply (phased_mono 12 16); [lia|lia|]. apply phased_main_rest.
Qed.

End Stages.

(** ** What the log shows *)

Section Observations.
Context `{Collaborators}.

Implicit Types (s : state) (ev : event) (t : log).

(** The calls of [NewJson.from_file]: the file and the override directory. *)
Definition from_file_calls t : list (string * string) :=
  omap (fun x => match x.1 with
                 | EvFromFile json_file corrected => Some (json_file, corrected)
                 | _ => None
                 end) t.

(** The counts printed on the screen. *)
Definition prints t : list (string * nat) :=
  omap (fun x => match x.1 with
                 | EvPrint label n => Some (label, n)
                 | _ => None
                 end) t.

(** The submissions whose structural check was called. *)
Definition checks t : list NewJson :=
  omap (fun x => match x.1 with EvCheck j => Some j | _ => None end) t.

(** The calls of the reference-transcript correction. *)
Definition corrections t : list (list ref) :=
  omap (fun x => match x.1 with EvCorrect rs => Some rs | _ => None end) t.

(** The cases handed to the legacy export, with their content at that time. *)
Definition exported t : list (ref * Case) :=
  omap (fun x => match x.1 with
                 | EvFromCase r c _ => Some (r, c)
                 | _ => None
                 end) t.

(** The checkpoint files opened for writing. *)
Definition dumps t : list string :=
  omap (fun x => match x.1 with EvDump path _ => Some path | _ => None end) t.

(** The verdict of the structural check: [j.check()[0]]. *)
Definition passes (j : NewJson) : bool :=
  match NewJson_check j with
  | Ok verdict => fst verdict
  | Raise _ => false
  end.

Lemma omap_none {A B} (f : A -> option B) (l : list A) :
  Forall (fun x => f x = None) l -> omap f l = [].
Proof.
  induction 1 as [|x l Hx _ IH]; [reflexivity|].
  simpl. rewrite Hx. exact IH.
Qed.

Lemma omap_phase_none {B} (f : event * outcome -> option B) lo hi t :
  Forall (fun x => between lo hi x.1) t ->
  (forall x, between lo hi x.1 -> f x = None) ->
  omap f t = [].
Proof.
  intros Ht Hf. apply omap_none. eapply Forall_impl; [exact Ht|]. exact Hf.
Qed.

End Observations.

(** Closes a goal [f x = None] when the step of [x] is outside the steps that
    [f] selects. *)
Ltac off_phase :=
  let x := fresh "x" in
  let Hx := fresh "Hx" in
  intros [x ?] Hx; unfold between in Hx; destruct x; simpl in *;
  repeat match goal with
         | H : context [if ?b then _ else _] |- _ => destruct b
         end;
  first [reflexivity | lia].

Section Acquisition.
Context `{Collaborators}.

Implicit Types (s : state) (ev : event) (t : log).

Lemma yield_jsons_one json_file corrected s :
  yield_jsons [json_file] corrected s =
  let r := NewJson_from_file (disk s) json_file corrected in
  Run (match r with Ok j => Ok [j] | Raise e => Raise e end) s
      [(EvFromFile json_file corrected, outcome_of r)].
Proof.
  unfold yield_jsons, progress_bar, mapM, bind. simpl.
  destruct (NewJson_from_file _ _ _); reflexivity.
Qed.

(** What [create_jsons] does once the submissions are loaded. *)
Definition count_and_filter (new_json_objs : list NewJson) : M (list NewJson) :=
  print "Unfiltered" (length new_json_objs) ;;;
  filtered_new <- filterM check_passes new_json_objs ;;
  print "Filtered rough criteria" (length filtered_new) ;;;
  ret filtered_new.

Lemma emits_count_and_filter new_json_objs :
  emits (between 5 7) (count_and_filter new_json_objs).
Proof.
  unfold count_and_filter, print, check_passes. emits_auto;
    unfold between; simpl; lia.
Qed.

(** C5: with [--single <path>] (a non-empty path) the parse loop of
    [create_jsons] calls [NewJson.from_file] exactly once, on that path and
    with the empty string as override directory, and the stage neither syncs
    nor lists the download directory. *)
Theorem create_jsons_single args config_data path s :
  single args = Some path -> truthy path = true ->
  from_file_calls (out (create_jsons args config_data s)) = [(path, "")]
  /\ (forall ev o, (ev, o) ∈ out (create_jsons args config_data s) ->
        ev <> EvDownload /\ forall d, ev <> EvListdir d).
Proof.
  intros Hs Ht. split.
  - unfold create_jsons. rewrite Hs, Ht. rewrite out_bind.
    cbn [ret res st out app]. rewrite out_bind, yield_jsons_one.
    cbn [res st out]. unfold from_file_calls. rewrite omap_app.
    cbn [omap list_omap fst]. cbn.
    destruct (NewJson_from_file (disk s) path "") as [j|e]; [|reflexivity].
    f_equal. apply (omap_phase_none _ 5 7); [|off_phase].
    apply (emits_count_and_filter [j]).
  - intros ev o Hin.
    pose proof (proj1 (phased_create_jsons_single args config_data path Hs Ht) s)
      as Hall.
    rewrite Forall_forall in Hall. specialize (Hall _ Hin).
    unfold between in Hall. split; [|intros d]; intros ->; simpl in Hall; lia.
Qed.

Lemma emits_main_cases_single args config_data path :
  single args = Some path -> truthy path = true ->
  emits (between 4 11) (main_cases args config_data).
Proof.
  intros Hs Ht.
  assert (emits (between 4 11)
            (jsons <- create_jsons args config_data ;;
             create_cases args config_data jsons)) as Hfresh.
  { apply emits_bind.
    - eapply emits_mono;
        [|apply (phased_create_jsons_single args config_data path Hs Ht)].
      intros ev. apply between_mono; lia.
    - intros jsons. eapply emits_mono; [|apply phased_create_cases].
      intros ev. apply between_mono; lia. }
  unfold main_cases.
  destruct (pickle args) as [p|]; [destruct (truthy p)|]; try exact Hfresh.
  eapply emits_mono; [|apply phased_pickle_load].
  intros ev. apply between_mono; lia.
Qed.

(** C10: with [--single <path>] (a non-empty path) no run of [main] calls the
    remote sync [download.backup_s3_folder], whatever the configuration
    says, [general.download] included. *)
Theorem single_never_downloads cli path s :
  opt_single cli = Some path -> truthy path = true ->
  forall o, (EvDownload, o) ∉ out (main cli s).
Proof.
  intros Hs Ht o Hin.
  assert (emits (fun ev => phase ev <> 2) (main cli)) as Hmain.
  { rewrite main_unfold. unfold configure_logging.
    apply emits_bind; [apply emits_call; simpl; lia|intros _].
    apply emits_bind; [apply emits_call; simpl; lia|intros config_data].
    apply emits_bind.
    - eapply emits_mono;
        [|apply (emits_main_cases_single (parse_arguments cli) config_data
                  path Hs Ht)].
      intros ev. unfold between. lia.
    - intros cases. eapply emits_mono; [|apply phased_main_rest].
      intros ev. unfold between. lia. }
  specialize (Hmain s). rewrite Forall_forall in Hmain.
  apply Hmain in Hin. simpl in Hin. lia.
Qed.

End Acquisition.

Section ParseAndFilter.
Context `{Collaborators}.

Implicit Types (s : state) (ev : event) (t : log).

Definition from_file_event (corrected json_file : string) : event * outcome :=
  (EvFromFile json_file corrected, Returned).

Definition check_event (j : NewJson) : event * outcome := (EvCheck j, Returned).

Lemma check_passes_run j s :
  check_passes j s =
  Run (match NewJson_check j with Ok v => Ok (fst v) | Raise e => Raise e end)
      s [(EvCheck j, outcome_of (NewJson_check j))].
Proof.
  unfold check_passes, bind, call, ret. simpl.
  destruct (NewJson_check j); simpl; reflexivity.
Qed.

Lemma from_file_run json_file corrected s :
  (d <- get_disk ;;
   call (EvFromFile json_file corrected)
        (NewJson_from_file d json_file corrected)) s =
  Run (NewJson_from_file (disk s) json_file corrected) s
      [(EvFromFile json_file corrected,
        outcome_of (NewJson_from_file (disk s) json_file corrected))].
Proof.
  unfold bind, get_disk, call. simpl.
  destruct (NewJson_from_file _ _ _); reflexivity.
Qed.

(** A loop whose body is one call that leaves the state as it is. *)
Lemma mapM_calls_ok {A B} (body : A -> M B) (f : state -> A -> result B)
  (e : A -> event) l s ys :
  (forall x s', body x s' = Run (f s' x) s' [(e x, outcome_of (f s' x))]) ->
  res (mapM body l s) = Ok ys ->
  out (mapM body l s) = map (fun x => (e x, Returned)) l
  /\ st (mapM body l s) = s
  /\ Forall2 (fun x y => f s x = Ok y) l ys.
Proof.
  intros Hbody. revert ys. induction l as [|x xs IH]; intros ys Hres.
  - inversion Hres. repeat split. constructor.
  - cbn [mapM] in *. rewrite res_bind in Hres. rewrite out_bind, st_bind.
    rewrite Hbody in *. cbn [res st out] in *.
    destruct (f s x) as [y|err] eqn:Hy; [|discriminate].
    rewrite res_bind in Hres. rewrite out_bind, st_bind.
    destruct (res (mapM body xs s)) as [ys'|err] eqn:Hys; [|discriminate].
    destruct (IH ys' eq_refl) as (Hout & Hst & Hall).
    cbn [ret res st out outcome_of] in *. inversion Hres; subst ys.
    rewrite Hout, Hst, app_nil_r. repeat split. constructor; assumption.
Qed.

(** The parse loop, when no file fails to load: one submission per file, in
    the order of the files, and the state is left as it was. *)
Lemma yield_jsons_ok json_files corrected s loaded :
  res (yield_jsons json_files corrected s) = Ok loaded ->
  out (yield_jsons json_files corrected s) =
    map (from_file_event corrected) json_files
  /\ st (yield_jsons json_files corrected s) = s
  /\ Forall2 (fun p j => NewJson_from_file (disk s) p corrected = Ok j)
       json_files loaded.
Proof.
  unfold yield_jsons, progress_bar. intros Hres.
  apply (mapM_calls_ok _
           (fun s' p => NewJson_from_file (disk s') p corrected)
           (fun p => EvFromFile p corrected)); [|exact Hres].
  intros p s'. apply from_file_run.
Qed.

(** The filter, when no check raises: every submission is checked once, in
    order, and those whose verdict is true are kept. *)
Lemma filterM_check_ok l s kept :
  res (filterM check_passes l s) = Ok kept ->
  out (filterM check_passes l s) = map check_event l
  /\ st (filterM check_passes l s) = s
  /\ kept = filter passes l.
Proof.
  revert kept. induction l as [|j js IH]; intros kept Hres.
  - inversion Hres. repeat split.
  - cbn [filterM] in *. rewrite res_bind in Hres. rewrite out_bind, st_bind.
    rewrite check_passes_run in *. cbn [res st out] in *.
    destruct (NewJson_check j) as [v|e] eqn:Hv; [|discriminate].
    rewrite res_bind in Hres. rewrite out_bind, st_bind.
    destruct (res (filterM check_passes js s)) as [ks|e] eqn:Hks;
      [|discriminate].
    destruct (IH ks eq_refl) as (Hout & Hst & Hkept).
    inversion Hres; subst kept. cbn [ret res st out outcome_of].
    rewrite Hout, Hst, app_nil_r. repeat split.
    assert (passes j = fst v) as Hp by (unfold passes; rewrite Hv; reflexivity).
    rewrite filter_cons, Hkept. destruct (fst v).
    + rewrite decide_True; [reflexivity|]. rewrite Hp. exact I.
    + rewrite decide_False; [reflexivity|]. rewrite Hp. intros [].
Qed.

Lemma count_and_filter_ok l s kept :
  res (count_and_filter l s) = Ok kept ->
  out (count_and_filter l s) =
    (EvPrint "Unfiltered" (length l), Returned) :: map check_event l ++
    [(EvPrint "Filtered rough criteria" (length kept), Returned)]
  /\ kept = filter passes l.
Proof.
  unfold count_and_filter, print. intros Hres.
  rewrite res_bind in Hres. rewrite out_bind. cbn [call res st out] in *.
  rewrite res_bind in Hres. rewrite out_bind.
  destruct (res (filterM check_passes l s)) as [ks|e] eqn:Hks; [|discriminate].
  destruct (filterM_check_ok l s ks Hks) as (Hout & Hst & Hkept).
  rewrite res_bind in Hres. rewrite out_bind. cbn [call ret res st out] in *.
  inversion Hres; subst kept. rewrite Hout, app_nil_r. split; [reflexivity|].
  exact Hkept.
Qed.

Lemma prints_from_file corrected l :
  prints (map (from_file_event corrected) l) = [].
Proof. induction l; simpl; congruence. Qed.

Lemma checks_from_file corrected l :
  checks (map (from_file_event corrected) l) = [].
Proof. induction l; simpl; congruence. Qed.

Lemma from_file_calls_from_file corrected l :
  from_file_calls (map (from_file_event corrected) l) =
  map (fun p => (p, corrected)) l.
Proof. induction l; simpl; congruence. Qed.

Lemma prints_check l : prints (map check_event l) = [].
Proof. induction l; simpl; congruence. Qed.

Lemma checks_check l : checks (map check_event l) = l.
Proof. induction l; simpl; congruence. Qed.

Lemma from_file_calls_check l : from_file_calls (map check_event l) = [].
Proof. induction l; simpl; congruence. Qed.

Lemma frames_state_count_and_filter l :
  frames (fun s => s) (count_and_filter l).
Proof. unfold count_and_filter, print, check_passes. frames_auto. Qed.

(** C2: when [create_jsons] returns, the submissions it went on with are,
    one for one and in order, what [NewJson.from_file] returned for the calls
    it made (on the disk as the acquisition left it); the check was called on
    exactly those submissions, once each and in that order; the two counts it
    printed are their number and the number of submissions kept; those kept
    are the loaded ones whose check passed, so the filtered count is the
    number of passing submissions and is at most the unfiltered count. *)
Theorem create_jsons_counts args config_data s filtered :
  res (create_jsons args config_data s) = Ok filtered ->
  exists loaded : list NewJson,
    let t := out (create_jsons args config_data s) in
    Forall2 (fun call j =>
               NewJson_from_file (disk (st (create_jsons args config_data s)))
                 call.1 call.2 = Ok j)
      (from_file_calls t) loaded
    /\ checks t = loaded
    /\ prints t = [("Unfiltered", length loaded);
                   ("Filtered rough criteria", length filtered)]
    /\ filtered = filter passes loaded
    /\ length filtered = length (filter passes loaded)
    /\ length filtered <= length loaded.
Proof.
  unfold create_jsons. intros Hres.
  set (acquire := match single args with
                  | Some path =>
                      if truthy path then ret ([path], "")
                      else json_from_directory config_data
                  | None => json_from_directory config_data
                  end) in *.
  assert (emits (between 2 3) acquire) as Hacq.
  { subst acquire.
    destruct (single args) as [path|]; [destruct (truthy path)|];
      try apply phased_json_from_directory.
    apply emits_ret. }
  rewrite res_bind in Hres. rewrite out_bind, st_bind.
  specialize (Hacq s).
  destruct (res (acquire s)) as [[json_files corrected]|e]; [|discriminate].
  rewrite res_bind in Hres. rewrite out_bind, st_bind.
  destruct (res (yield_jsons json_files corrected (st (acquire s))))
    as [loaded|e] eqn:Hloaded; [|discriminate].
  destruct (yield_jsons_ok _ _ _ _ Hloaded) as (Hout1 & Hst1 & Hall).
  exists loaded.
  change (res (count_and_filter loaded
                 (st (yield_jsons json_files corrected (st (acquire s)))))
          = Ok filtered) in Hres.
  destruct (count_and_filter_ok _ _ _ Hres) as (Hout2 & Hkept).
  change ((print "Unfiltered" (length loaded) ;;;
           filtered_new <- filterM check_passes loaded ;;
           print "Filtered rough criteria" (length filtered_new) ;;;
           ret filtered_new)
            (st (yield_jsons json_files corrected (st (acquire s)))))
    with (count_and_filter loaded
            (st (yield_jsons json_files corrected (st (acquire s))))).
  rewrite Hout1, Hout2. cbv zeta.
  rewrite (frames_state_count_and_filter loaded _), Hst1.
  unfold from_file_calls, checks, prints.
  rewrite !omap_app.
  rewrite (omap_phase_none _ 2 3 _ Hacq) by off_phase.
  rewrite (omap_phase_none _ 2 3 _ Hacq) by off_phase.
  rewrite (omap_phase_none _ 2 3 _ Hacq) by off_phase.
  fold (from_file_calls (map (from_file_event corrected) json_files)).
  fold (checks (map (from_file_event corrected) json_files)).
  fold (prints (map (from_file_event corrected) json_files)).
  rewrite from_file_calls_from_file, checks_from_file, prints_from_file.
  cbn [omap list_omap fst app].
  rewrite !omap_app.
  fold (from_file_calls (map check_event loaded)).
  fold (checks (map check_event loaded)).
  fold (prints (map check_event loaded)).
  rewrite from_file_calls_check, checks_check, prints_check.
  cbn [omap list_omap fst app]. rewrite !app_nil_r.
  split_and!.
  - apply Forall2_fmap_l. exact Hall.
  - reflexivity.
  - reflexivity.
  - exact Hkept.
  - rewrite Hkept at 1. reflexivity.
  - rewrite Hkept. apply length_filter.
Qed.

End ParseAndFilter.

Section Orchestration.
Context `{Collaborators}.

Implicit Types (s : state) (ev : event) (t : log).

(** What the start of [main] records when the configuration loads. *)
Definition startup_log : log :=
  [(EvLogging "lib" "preprocess.log", Returned); (EvConfig, Returned)].

(** [main], stage by stage. *)
Lemma main_run cli s :
  main cli s =
  match config_ConfigManager with
  | Raise e =>
      Run (Raise e) s
          [(EvLogging "lib" "preprocess.log", Returned); (EvConfig, Raised)]
  | Ok config_data =>
      let args := parse_arguments cli in
      let r1 := main_cases args config_data s in
      match res r1 with
      | Raise e => Run (Raise e) (st r1) (startup_log ++ out r1)
      | Ok cases =>
          let r2 := main_rest args config_data cases (st r1) in
          Run (res r2) (st r2) (startup_log ++ out r1 ++ out r2)
      end
  end.
Proof.
  rewrite main_unfold. unfold configure_logging, startup_log.
  apply run_ext;
    rewrite ?res_bind, ?st_bind, ?out_bind; cbn [call res st out];
    rewrite ?res_bind, ?st_bind, ?out_bind; cbn [call res st out];
    destruct config_ConfigManager as [config_data|e]; try reflexivity;
    rewrite ?res_bind, ?st_bind, ?out_bind; cbn [outcome_of app];
    destruct (res (main_cases _ _ s)); rewrite ?app_nil_r; reflexivity.
Qed.

Lemma main_rest_run args config_data cases s :
  main_rest args config_data cases s =
  if String.eqb (entry args) "pheno" then
    let r := phenomize config_data cases s in
    match res r with
    | Raise e => Run (Raise e) (st r) (out r)
    | Ok cases' =>
        let r' := convert_to_old_format args config_data cases' (st r) in
        Run (res r') (st r') (out r ++ out r')
    end
  else convert_to_old_format args config_data cases s.
Proof.
  unfold main_rest. destruct (String.eqb _ _).
  - apply run_ext; rewrite ?res_bind, ?st_bind, ?out_bind;
      destruct (res (phenomize _ _ _)); rewrite ?app_nil_r; reflexivity.
  - apply run_ext; rewrite ?res_bind, ?st_bind, ?out_bind; reflexivity.
Qed.

Lemma in_phase lo hi {A} (m : M A) s ev o :
  emits (between lo hi) m -> (ev, o) ∈ out (m s) -> lo <= phase ev <= hi.
Proof.
  intros Hm Hin. specialize (Hm s). rewrite Forall_forall in Hm.
  apply (Hm _ Hin).
Qed.

(** *** The legacy export *)

Lemma emits_convert_destination args config_data cases :
  emits (fun ev => forall r c d, ev = EvFromCase r c d ->
                   d = destination_of args config_data)
        (convert_to_old_format args config_data cases).
Proof.
  unfold convert_to_old_format, yield_old_json, progress_bar.
  emits_auto; intros r c d Heq; try discriminate.
  inversion Heq. reflexivity.
Qed.

(** *** Phenomization *)

Lemma emits_yield_phenomized cases phen :
  emits (between 13 13) (yield_phenomized cases phen).
Proof.
  unfold yield_phenomized, progress_bar. emits_auto.
  unfold between; simpl; lia.
Qed.

Lemma faithful_yield_phenomized cases phen :
  faithful (yield_phenomized cases phen).
Proof. unfold yield_phenomized, progress_bar. faithful_auto. Qed.

Lemma frames_files_yield_phenomized cases phen :
  frames files (yield_phenomized cases phen).
Proof. unfold yield_phenomized, progress_bar. frames_auto. Qed.

(** The end of [phenomize]: the checkpoint, if it is enabled. *)
Definition phenomize_dump (config_data : ConfigManager) (cases : list ref)
  : M (list ref) :=
  (if general_dump_intermediate config_data
   then pickle_dump cases "case_phenomized.p"
   else ret tt) ;;;
  ret cases.

Lemma emits_phenomize_dump config_data cases :
  emits (between 14 14) (phenomize_dump config_data cases).
Proof.
  unfold phenomize_dump. emits_auto. unfold between; simpl; lia.
Qed.

Lemma phenomize_run config_data cases s :
  phenomize config_data cases s =
  match phenomizer_PhenomizerService config_data with
  | Raise e => Run (Raise e) s [(EvPhenomizerService, Raised)]
  | Ok phen =>
      let r := yield_phenomized cases phen s in
      match res r with
      | Raise e =>
          Run (Raise e) (st r) ((EvPhenomizerService, Returned) :: out r)
      | Ok _ =>
          let r' := phenomize_dump config_data cases (st r) in
          Run (res r') (st r')
              ((EvPhenomizerService, Returned) :: out r ++ out r')
      end
  end.
Proof.
  unfold phenomize, phenomize_dump.
  apply run_ext; rewrite ?res_bind, ?st_bind, ?out_bind; cbn [call res st out];
    destruct (phenomizer_PhenomizerService config_data) as [phen|e];
    try reflexivity;
    rewrite ?res_bind, ?st_bind, ?out_bind; cbn [outcome_of app];
    destruct (res (yield_phenomized cases phen s)); rewrite ?app_nil_r;
    reflexivity.
Qed.

(** A raised call of the service ends [phenomize] in the loop: nothing is
    recorded after the loop and no file is touched. *)
Lemma phenomize_failure config_data cases s r c :
  (EvPhenomize r c, Raised) ∈ out (phenomize config_data cases s) ->
  is_raise (res (phenomize config_data cases s))
  /\ Forall (fun x => between 12 13 x.1) (out (phenomize config_data cases s))
  /\ files (st (phenomize config_data cases s)) = files s.
Proof.
  rewrite phenomize_run.
  destruct (phenomizer_PhenomizerService config_data) as [phen|e].
  - cbv zeta.
    pose proof (faithful_yield_phenomized cases phen s (EvPhenomize r c)) as Hf.
    pose proof (emits_yield_phenomized cases phen s) as He.
    pose proof (frames_files_yield_phenomized cases phen s) as Hfr.
    destruct (res (yield_phenomized cases phen s)) as [us|e]; cbn [res st out].
    + intros Hin. exfalso.
      apply elem_of_cons in Hin as [Heq|Hin]; [discriminate|].
      apply elem_of_app in Hin as [Hin|Hin]; [exact (Hf Hin)|].
      apply (in_phase 14 14 _ _ _ _ (emits_phenomize_dump config_data cases))
        in Hin.
      simpl in Hin. lia.
    + intros _. split_and!; [exact I| |exact Hfr].
      constructor; [unfold between; simpl; lia|].
      eapply Forall_impl; [exact He|]. intros x. apply between_mono; lia.
  - cbn [out]. intros Hin. apply list_elem_of_singleton in Hin. discriminate.
Qed.

Lemma frames_phenomized_file_main_cases args config_data :
  frames (fun s => files s !! "case_phenomized.p")
         (main_cases args config_data).
Proof.
  unfold main_cases, create_jsons, create_cases, json_from_directory,
    yield_jsons, yield_cases, correct_reference_transcripts, print,
    check_passes, progress_bar.
  frames_auto.
Qed.

(** C1: if a call of the phenotype-matching service raises during a run of
    [main], the run ends with that exception, no action of the legacy
    export is recorded, the checkpoint [case_phenomized.p] is neither opened
    nor changed, whatever the loop did to the cases before. *)
Theorem phenomize_failure_aborts cli s r c :
  (EvPhenomize r c, Raised) ∈ out (main cli s) ->
  is_raise (res (main cli s))
  /\ (forall ev o, (ev, o) ∈ out (main cli s) ->
        ev <> EvOmim
        /\ (forall r' c' d, ev <> EvFromCase r' c' d)
        /\ (forall old, ev <> EvSave old)
        /\ (forall rs, ev <> EvDump "case_phenomized.p" rs))
  /\ files (st (main cli s)) !! "case_phenomized.p" =
     files s !! "case_phenomized.p".
Proof.
  intros Hin.
  assert (is_raise (res (main cli s))
          /\ Forall (fun x => phase x.1 <= 13) (out (main cli s))
          /\ files (st (main cli s)) !! "case_phenomized.p" =
             files s !! "case_phenomized.p") as (Hres & Hall & Hfile).
  { revert Hin. rewrite main_run.
    destruct config_ConfigManager as [config_data|e].
    2:{ cbn [out]. intros Hin.
        repeat (apply elem_of_cons in Hin as [Heq|Hin]; [discriminate|]).
        inversion Hin. }
    cbv zeta.
    pose proof (proj1 (phased_main_cases (parse_arguments cli) config_data))
      as Hcases.
    pose proof (frames_phenomized_file_main_cases (parse_arguments cli)
                  config_data s) as Hframe.
    pose proof (Hcases s) as Hall1.
    set (r1 := main_cases (parse_arguments cli) config_data s) in *.
    assert (forall o', (EvPhenomize r c, o') ∉ startup_log ++ out r1) as Hnot.
    { intros o' Hin. apply elem_of_app in Hin as [Hin|Hin].
      - repeat (apply elem_of_cons in Hin as [Heq|Hin]; [discriminate|]).
        inversion Hin.
      - rewrite Forall_forall in Hall1. apply Hall1 in Hin.
        unfold between in Hin. simpl in Hin. lia. }
    destruct (res r1) as [cases|e]; cbn [res st out].
    2:{ intros Hin. destruct (Hnot _ Hin). }
    rewrite app_assoc. intros Hin.
    apply elem_of_app in Hin as [Hin|Hin]; [destruct (Hnot _ Hin)|].
    revert Hin. rewrite main_rest_run.
    destruct (String.eqb _ _).
    2:{ intros Hin.
        apply (in_phase 15 16 _ _ _ _
                 (proj1 (phased_convert_to_old_format _ _ _))) in Hin.
        simpl in Hin. lia. }
    cbv zeta.
    pose proof (phenomize_failure config_data cases (st r1) r c) as Hph.
    destruct (res (phenomize config_data cases (st r1))) as [cases'|e];
      cbn [res st out]; intros Hin.
    - apply elem_of_app in Hin as [Hin|Hin].
      + destruct (Hph Hin) as ([] & _).
      + apply (in_phase 15 16 _ _ _ _
                 (proj1 (phased_convert_to_old_format _ _ _))) in Hin.
        simpl in Hin. lia.
    - destruct (Hph Hin) as (_ & Hall2 & Hfiles). split_and!; [exact I| |].
      + apply Forall_app; split; [apply Forall_app; split|].
        * unfold startup_log. repeat constructor; simpl; lia.
        * eapply Forall_impl; [exact Hall1|]. intros x. unfold between; lia.
        * eapply Forall_impl; [exact Hall2|]. intros x. unfold between; lia.
      + rewrite Hfiles. exact Hframe. }
  split_and!; [exact Hres| |exact Hfile].
  intros ev o Hev. rewrite Forall_forall in Hall. specialize (Hall _ Hev).
  simpl in Hall. split_and!; intros; intros ->; simpl in Hall; lia.
Qed.

Lemma phenomize_calls_service config_data cases s :
  exists o, (EvPhenomizerService, o) ∈ out (phenomize config_data cases s).
Proof.
  rewrite phenomize_run.
  destruct (phenomizer_PhenomizerService config_data) as [phen|e].
  - exists Returned. cbv zeta.
    destruct (res (yield_phenomized cases phen s)); cbn [out];
      apply list_elem_of_here.
  - exists Raised. apply list_elem_of_here.
Qed.

Lemma startup_log_phase ev o : (ev, o) ∈ startup_log -> phase ev <= 1.
Proof.
  unfold startup_log. intros Hin.
  apply elem_of_cons in Hin as [Heq|Hin]; [inversion Heq; simpl; lia|].
  apply list_elem_of_singleton in Hin. inversion Hin; simpl; lia.
Qed.

(** C4: once the collection is there, loaded from a checkpoint or built,
    [main] runs the phenomization exactly when the entry point is ["pheno"];
    with any other entry point the rest of the run is the legacy export of
    that collection, in the state in which the first block left it. *)
Theorem entry_gate cli s config_data cases :
  config_ConfigManager = Ok config_data ->
  res (main_cases (parse_arguments cli) config_data s) = Ok cases ->
  let args := parse_arguments cli in
  let s1 := st (main_cases args config_data s) in
  let t1 := startup_log ++ out (main_cases args config_data s) in
  ((exists o, (EvPhenomizerService, o) ∈ out (main cli s)) <->
   entry args = "pheno")
  /\ (entry args = "pheno" ->
      let r := (cases' <- phenomize config_data cases ;;
                convert_to_old_format args config_data cases') s1 in
      main cli s = Run (res r) (st r) (t1 ++ out r))
  /\ (entry args <> "pheno" ->
      let r := convert_to_old_format args config_data cases s1 in
      main cli s = Run (res r) (st r) (t1 ++ out r)
      /\ forall ev o, (ev, o) ∈ out (main cli s) ->
           phase ev <= 11 \/ 15 <= phase ev).
Proof.
  intros Hcfg Hcases args s1 t1.
  assert (main cli s =
          let r2 := main_rest args config_data cases s1 in
          Run (res r2) (st r2) (t1 ++ out r2)) as Hmain.
  { subst args s1 t1. rewrite main_run, Hcfg. cbv zeta. rewrite Hcases.
    rewrite app_assoc. reflexivity. }
  assert (forall ev o, (ev, o) ∈ t1 -> phase ev <= 11) as Ht1.
  { intros ev o Hin. subst t1. apply elem_of_app in Hin as [Hin|Hin].
    - apply startup_log_phase in Hin. lia.
    - apply (in_phase 2 11 _ _ _ _ (proj1 (phased_main_cases _ _))) in Hin.
      lia. }
  cbv zeta in Hmain. rewrite main_rest_run in Hmain.
  destruct (String.eqb_spec (entry args) "pheno") as [Hentry|Hentry].
  - cbv zeta in Hmain. split_and!.
    + split; [intros _; exact Hentry|intros _].
      destruct (phenomize_calls_service config_data cases s1) as [o Ho].
      exists o. rewrite Hmain.
      destruct (res (phenomize config_data cases s1)); cbn [out];
        rewrite !elem_of_app; auto.
    + intros _. cbv zeta. rewrite Hmain.
      apply run_ext; rewrite ?res_bind, ?st_bind, ?out_bind;
        destruct (res (phenomize config_data cases s1));
        cbn [res st out]; rewrite ?app_nil_r; reflexivity.
    + intros Hne. destruct (Hne Hentry).
  - split_and!.
    + split; [|intros Heq; destruct (Hentry Heq)].
      intros [o Hin]. exfalso. rewrite Hmain in Hin. cbn [out] in Hin.
      apply elem_of_app in Hin as [Hin|Hin].
      * apply Ht1 in Hin. simpl in Hin. lia.
      * apply (in_phase 15 16 _ _ _ _
                 (proj1 (phased_convert_to_old_format _ _ _))) in Hin.
        simpl in Hin. lia.
    + intros Heq. destruct (Hentry Heq).
    + intros _. cbv zeta. split; [exact Hmain|].
      intros ev o Hin. rewrite Hmain in Hin. cbn [out] in Hin.
      apply elem_of_app in Hin as [Hin|Hin].
      * left. eapply Ht1, Hin.
      * right.
        apply (in_phase 15 16 _ _ _ _
                 (proj1 (phased_convert_to_old_format _ _ _))) in Hin.
        lia.
Qed.

End Orchestration.

(** ** The object store and the checkpoints *)

Section Store.
Context `{Collaborators}.

Implicit Types (s : state) (ev : event) (t : log) (h : list Case).

(** The contents of a collection: what its cases hold in the store [h]. *)
Fixpoint contents_of h (rs : list ref) : option (list Case) :=
  match rs with
  | [] => Some []
  | r :: rs' =>
      match h !! r, contents_of h rs' with
      | Some c, Some cs => Some (c :: cs)
      | _, _ => None
      end
  end.

(** The store after the cases [rs] have been given the contents [cs]. *)
Fixpoint write_all h (rs : list ref) (cs : list Case) : list Case :=
  match rs, cs with
  | r :: rs', c :: cs' => write_all (<[r := c]> h) rs' cs'
  | _, _ => h
  end.

Lemma deref_run r s :
  deref r s =
  Run (match heap s !! r with
       | Some c => Ok c
       | None => Raise "ReferenceError"
       end) s [].
Proof. unfold deref. destruct (heap s !! r); reflexivity. Qed.

Lemma mapM_deref_run rs s :
  mapM deref rs s =
  Run (match contents_of (heap s) rs with
       | Some cs => Ok cs
       | None => Raise "ReferenceError"
       end) s [].
Proof.
  induction rs as [|r rs IH]; [reflexivity|].
  cbn [mapM contents_of].
  apply run_ext; rewrite ?res_bind, ?st_bind, ?out_bind, !deref_run;
    cbn [res st out]; destruct (heap s !! r) as [c|]; try reflexivity;
    rewrite ?res_bind, ?st_bind, ?out_bind, !IH; cbn [res st out];
    destruct (contents_of (heap s) rs); reflexivity.
Qed.

Lemma assign_all_run rs cs s :
  assign_all rs cs s = Run (Ok tt) (set_heap (write_all (heap s) rs cs) s) [].
Proof.
  revert cs s. induction rs as [|r rs IH]; intros [|c cs] s;
    try (destruct s; reflexivity).
  cbn [assign_all write_all].
  apply run_ext; rewrite ?res_bind, ?st_bind, ?out_bind; cbn [assign res st out];
    rewrite IH; reflexivity.
Qed.

Lemma length_write_all h rs cs : length (write_all h rs cs) = length h.
Proof.
  revert h cs. induction rs as [|r rs IH]; intros h [|c cs]; try reflexivity.
  cbn [write_all]. rewrite IH. apply length_insert.
Qed.

Lemma contents_of_is_Some h rs :
  is_Some (contents_of h rs) <-> Forall (fun r => r < length h) rs.
Proof.
  induction rs as [|r rs IH]; cbn [contents_of].
  - split; [constructor|eauto].
  - split.
    + intros [x Hx]. destruct (h !! r) as [c|] eqn:Hr; [|discriminate].
      destruct (contents_of h rs) as [cs|] eqn:Hcs; [|discriminate].
      constructor; [eapply lookup_lt_Some, Hr|apply IH; eauto].
    + intros Hall. inversion Hall as [|? ? Hr Hrs]; subst.
      apply lookup_lt_is_Some_2 in Hr as [c Hc]. apply IH in Hrs as [cs Hcs].
      rewrite Hc, Hcs. eauto.
Qed.

(** The contents of a collection only depend on the size of the store for
    their existence. *)
Lemma contents_of_same_length h h' rs :
  length h = length h' -> is_Some (contents_of h rs) ->
  is_Some (contents_of h' rs).
Proof. rewrite !contents_of_is_Some. intros ->. auto. Qed.

(** Creating objects does not change the contents of the older ones. *)
Lemma contents_of_app h h' rs cs :
  contents_of h rs = Some cs -> contents_of (h ++ h') rs = Some cs.
Proof.
  revert cs. induction rs as [|r rs IH]; intros cs; cbn [contents_of]; [auto|].
  destruct (h !! r) as [c|] eqn:Hr; [|discriminate].
  destruct (contents_of h rs) as [cs'|]; [|discriminate].
  intros [= <-]. rewrite (lookup_app_l_Some _ _ _ _ Hr).
  rewrite (IH cs' eq_refl). reflexivity.
Qed.

(** Objects that come after the store [h], in the order of their creation. *)
Lemma contents_of_fresh h cs h' :
  contents_of (h ++ cs ++ h') (seq (length h) (length cs)) = Some cs.
Proof.
  revert h. induction cs as [|c cs IH]; intros h; [reflexivity|].
  cbn [length seq contents_of].
  rewrite lookup_app_r by lia. rewrite Nat.sub_diag. cbn [app lookup list_lookup].
  specialize (IH (h ++ [c])). rewrite length_app in IH. simpl in IH.
  rewrite Nat.add_1_r, <- app_assoc in IH. simpl in IH. rewrite IH.
  reflexivity.
Qed.

Lemma mapM_new_obj_run cs s :
  mapM new_obj cs s =
  Run (Ok (seq (length (heap s)) (length cs))) (set_heap (heap s ++ cs) s) [].
Proof.
  revert s. induction cs as [|c cs IH]; intros s.
  - cbn. rewrite app_nil_r. destruct s; reflexivity.
  - cbn [mapM].
    apply run_ext; rewrite ?res_bind, ?st_bind, ?out_bind;
      cbn [new_obj res st out]; rewrite ?res_bind, ?st_bind, ?out_bind, IH;
      cbn [ret res st out set_heap heap length seq];
      rewrite ?length_app, <- ?app_assoc; simpl; rewrite ?Nat.add_1_r;
      reflexivity.
Qed.

(** [pickle.dump]: the file holds the contents of the collection. *)
Lemma pickle_dump_run rs path s :
  pickle_dump rs path s =
  match contents_of (heap s) rs with
  | Some cs =>
      Run (Ok tt) (set_files (<[path := Pickled cs]> (files s)) s)
          [(EvDump path rs, Returned)]
  | None =>
      Run (Raise "ReferenceError")
          (set_files (<[path := Truncated]> (files s)) s)
          [(EvDump path rs, Returned)]
  end.
Proof.
  unfold pickle_dump.
  apply run_ext; rewrite ?res_bind, ?st_bind, ?out_bind; cbn [res st out];
    rewrite ?res_bind, ?st_bind, ?out_bind, mapM_deref_run;
    cbn [res st out set_files heap];
    destruct (contents_of (heap s) rs); cbn [res st out set_files files];
    rewrite ?insert_insert_eq; reflexivity.
Qed.

(** [pickle.load] of a file written by [pickle.dump]: new objects with the
    pickled contents. *)
Lemma pickle_load_run path s cs :
  files s !! path = Some (Pickled cs) ->
  pickle_load path s =
  Run (Ok (seq (length (heap s)) (length cs))) (set_heap (heap s ++ cs) s)
      [(EvLoad path, Returned)].
Proof.
  intros Hfile. unfold pickle_load. rewrite Hfile.
  apply run_ext; rewrite ?res_bind, ?st_bind, ?out_bind;
    cbn [call res st out]; rewrite mapM_new_obj_run; reflexivity.
Qed.

(** C8: a collection saved with [pickle.dump] and loaded back with
    [pickle.load] has the contents it had when it was saved: the dump
    succeeds, the load succeeds, and the loaded cases, which are new objects,
    hold the contents of the saved ones, in the same order; the saved cases
    keep theirs. *)
Theorem pickle_roundtrip (collection : list ref) path s contents :
  collection <> [] ->
  contents_of (heap s) collection = Some contents ->
  let saved := pickle_dump collection path s in
  let loaded := pickle_load path (st saved) in
  res saved = Ok tt
  /\ exists collection',
       res loaded = Ok collection'
       /\ contents_of (heap (st loaded)) collection' = Some contents
       /\ contents_of (heap (st loaded)) collection = Some contents.
Proof.
  intros _ Hcontents saved loaded. subst saved loaded.
  rewrite pickle_dump_run, Hcontents. cbn [res st].
  split; [reflexivity|].
  rewrite (pickle_load_run path _ contents)
    by (cbn [set_files files]; apply lookup_insert_eq).
  cbn [res st set_files set_heap heap].
  exists (seq (length (heap s)) (length contents)). split_and!.
  - reflexivity.
  - pose proof (contents_of_fresh (heap s) contents []) as Hfresh.
    rewrite app_nil_r in Hfresh. exact Hfresh.
  - apply contents_of_app, Hcontents.
Qed.

End Store.

Section Checkpoints.
Context `{Collaborators}.

Implicit Types (s : state) (ev : event) (t : log) (h : list Case).

Lemma bind_assoc {A B C} (m : M A) (f : A -> M B) (g : B -> M C) s :
  bind (bind m f) g s = bind m (fun a => bind (f a) g) s.
Proof.
  unfold bind. destruct (m s) as [[a|e] s1 t1]; cbn [res st out]; [|reflexivity].
  destruct (f a s1) as [[b|e] s2 t2]; cbn [res st out]; [|reflexivity].
  rewrite app_assoc. reflexivity.
Qed.

Lemma bind_ext {A B} (m : M A) (k k' : A -> M B) s :
  (forall a s', k a s' = k' a s') -> bind m k s = bind m k' s.
Proof.
  intros Hk. apply run_ext; rewrite ?res_bind, ?st_bind, ?out_bind;
    destruct (res (m s)); rewrite ?Hk; reflexivity.
Qed.

Lemma bind_ret_l {A B} (a : A) (k : A -> M B) s : bind (ret a) k s = k a s.
Proof.
  apply run_ext; rewrite ?res_bind, ?st_bind, ?out_bind; reflexivity.
Qed.

(** The configuration with the checkpoints switched off. *)
Definition without_dump (config_data : ConfigManager) : ConfigManager :=
  {| general_download := general_download config_data;
     general_dump_intermediate := false;
     aws_download_location := aws_download_location config_data;
     preprocess_corrected_location := preprocess_corrected_location config_data;
     preprocess_exclude_normal_variants :=
       preprocess_exclude_normal_variants config_data;
     conversion_output_path := conversion_output_path config_data |}.

(** The two lines that end [create_cases] and [phenomize]. *)
Definition checkpoint (enabled : bool) (path : string) (collection : list ref)
  : M (list ref) :=
  (if enabled then pickle_dump collection path else ret tt) ;;;
  ret collection.

(** [create_cases] up to its checkpoint. *)
Definition build_cases (config_data : ConfigManager) (jsons : list NewJson)
  : M (list ref) :=
  error_fixer <- call EvErrorFixer (errorfixer_ErrorFixer config_data) ;;
  case_objs <- yield_cases jsons error_fixer
                 (preprocess_exclude_normal_variants config_data) ;;
  correct_reference_transcripts case_objs ;;;
  ret case_objs.

(** [phenomize] up to its checkpoint. *)
Definition phenomize_cases (config_data : ConfigManager) (cases : list ref)
  : M (list ref) :=
  phen <- call EvPhenomizerService (phenomizer_PhenomizerService config_data) ;;
  yield_phenomized cases phen ;;;
  ret cases.

Lemma create_cases_split args config_data jsons s :
  create_cases args config_data jsons s =
  (case_objs <- build_cases config_data jsons ;;
   checkpoint (general_dump_intermediate config_data) "case_cleaned.p"
     case_objs) s.
Proof.
  unfold create_cases, build_cases, checkpoint.
  rewrite bind_assoc. apply bind_ext. intros error_fixer s1.
  rewrite bind_assoc. apply bind_ext. intros case_objs s2.
  rewrite bind_assoc. apply bind_ext. intros _ s3.
  rewrite bind_ret_l. reflexivity.
Qed.

Lemma phenomize_split config_data cases s :
  phenomize config_data cases s =
  (cases' <- phenomize_cases config_data cases ;;
   checkpoint (general_dump_intermediate config_data) "case_phenomized.p"
     cases') s.
Proof.
  unfold phenomize, phenomize_cases, checkpoint.
  rewrite bind_assoc. apply bind_ext. intros phen s1.
  rewrite bind_assoc. apply bind_ext. intros _ s2.
  rewrite bind_ret_l. reflexivity.
Qed.

Lemma checkpoint_run enabled path collection s :
  checkpoint enabled path collection s =
  if enabled then
    match contents_of (heap s) collection with
    | Some cs =>
        Run (Ok collection) (set_files (<[path := Pickled cs]> (files s)) s)
            [(EvDump path collection, Returned)]
    | None =>
        Run (Raise "ReferenceError")
            (set_files (<[path := Truncated]> (files s)) s)
            [(EvDump path collection, Returned)]
    end
  else Run (Ok collection) s [].
Proof.
  unfold checkpoint. destruct enabled.
  - apply run_ext; rewrite ?res_bind, ?st_bind, ?out_bind, pickle_dump_run;
      destruct (contents_of (heap s) collection); reflexivity.
  - rewrite bind_ret_l. reflexivity.
Qed.

Lemma frames_length_assign r c : frames (fun s => length (heap s)) (assign r c).
Proof. intros s. cbn. apply length_insert. Qed.

Lemma frames_length_yield_phenomized cases phen :
  frames (fun s => length (heap s)) (yield_phenomized cases phen).
Proof.
  unfold yield_phenomized, progress_bar. frames_auto.
  apply frames_length_assign.
Qed.

(** When the loop of the phenomization returns, every case of the collection
    is an object of the store. *)
Lemma yield_phenomized_valid cases phen s us :
  res (yield_phenomized cases phen s) = Ok us ->
  is_Some (contents_of (heap (st (yield_phenomized cases phen s))) cases).
Proof.
  intros Hres. apply contents_of_is_Some.
  rewrite (frames_length_yield_phenomized cases phen s).
  revert s us Hres. unfold yield_phenomized, progress_bar.
  induction cases as [|r rs IH]; intros s us Hres; [constructor|].
  cbn [mapM] in Hres. apply bind_ok_inv in Hres as (u & Hbody & Hres).
  apply bind_ok_inv in Hres as (us' & Hrest & _).
  pose proof (frames_length_yield_phenomized [r] phen s) as Hlen.
  unfold yield_phenomized, progress_bar in Hlen. cbn [mapM] in Hlen.
  rewrite st_bind, Hbody in Hlen. cbn [ret st] in Hlen.
  constructor.
  - apply bind_ok_inv in Hbody as (c & Hc & _).
    rewrite deref_run in Hc. cbn [res] in Hc.
    destruct (heap s !! r) as [c'|] eqn:Hr; [|discriminate].
    eapply lookup_lt_Some, Hr.
  - rewrite <- Hlen. eapply IH, Hrest.
Qed.

Lemma correct_reference_transcripts_valid case_objs s :
  res (correct_reference_transcripts case_objs s) = Ok tt ->
  is_Some (contents_of (heap (st (correct_reference_transcripts case_objs s)))
             case_objs).
Proof.
  unfold correct_reference_transcripts. intros Hres.
  apply bind_ok_inv in Hres as (cs & Hcs & Hres).
  apply bind_ok_inv in Hres as (cs' & Hcs' & _).
  rewrite st_bind, Hcs, st_bind, Hcs', assign_all_run.
  rewrite mapM_deref_run in *. cbn [res st set_heap heap call] in *.
  destruct (contents_of (heap s) case_objs) as [cs0|] eqn:Hc; [|discriminate].
  eapply contents_of_same_length; [|rewrite Hc; eauto].
  symmetry. apply length_write_all.
Qed.

Lemma build_cases_valid config_data jsons s case_objs :
  res (build_cases config_data jsons s) = Ok case_objs ->
  is_Some (contents_of (heap (st (build_cases config_data jsons s))) case_objs).
Proof.
  unfold build_cases. intros Hres.
  apply bind_ok_inv in Hres as (ef & Hef & Hres). rewrite st_bind, Hef.
  apply bind_ok_inv in Hres as (rs & Hrs & Hres). rewrite st_bind, Hrs.
  apply bind_ok_inv in Hres as ([] & Hcorr & Hres). rewrite st_bind, Hcorr.
  inversion Hres; subst case_objs. cbn [ret st].
  apply correct_reference_transcripts_valid, Hcorr.
Qed.

Lemma phenomize_cases_valid config_data cases s cases' :
  res (phenomize_cases config_data cases s) = Ok cases' ->
  is_Some (contents_of (heap (st (phenomize_cases config_data cases s))) cases').
Proof.
  unfold phenomize_cases. intros Hres.
  apply bind_ok_inv in Hres as (phen & Hphen & Hres). rewrite st_bind, Hphen.
  apply bind_ok_inv in Hres as (us & Hus & Hres). rewrite st_bind, Hus.
  inversion Hres; subst cases'. cbn [ret st].
  eapply yield_phenomized_valid, Hus.
Qed.

Lemma emits_build_cases config_data jsons :
  emits (between 8 10) (build_cases config_data jsons).
Proof.
  unfold build_cases, yield_cases, correct_reference_transcripts, progress_bar.
  emits_auto; unfold between; simpl; lia.
Qed.

Lemma emits_phenomize_cases config_data cases :
  emits (between 12 13) (phenomize_cases config_data cases).
Proof.
  unfold phenomize_cases, yield_phenomized, progress_bar.
  emits_auto; unfold between; simpl; lia.
Qed.

Lemma frames_files_build_cases config_data jsons :
  frames files (build_cases config_data jsons).
Proof.
  unfold build_cases, yield_cases, correct_reference_transcripts, progress_bar.
  frames_auto.
Qed.

Lemma frames_files_phenomize_cases config_data cases :
  frames files (phenomize_cases config_data cases).
Proof.
  unfold phenomize_cases, yield_phenomized, progress_bar. frames_auto.
Qed.

(** [full] is the run [plain] of a stage from the state [s], followed, when
    the checkpoints are enabled and [plain] returned a collection, by the
    writing of the contents of that collection to [path]; [plain] itself
    opens no checkpoint and leaves the files as they were. *)
Definition adds_checkpoint (path : string) (enabled : bool) s
  (plain full : run (list ref)) : Prop :=
  dumps (out plain) = []
  /\ files (st plain) = files s
  /\ match enabled, res plain with
     | true, Ok collection =>
         exists contents,
           contents_of (heap (st plain)) collection = Some contents
           /\ full =
              Run (Ok collection)
                  (set_files (<[path := Pickled contents]> (files s)) (st plain))
                  (out plain ++ [(EvDump path collection, Returned)])
     | _, _ => full = plain
     end.

Lemma adds_checkpoint_intro path enabled lo hi (stage : M (list ref)) s :
  hi < 11 \/ (11 < lo /\ hi < 14) ->
  emits (between lo hi) stage ->
  frames files stage ->
  (forall collection, res (stage s) = Ok collection ->
     is_Some (contents_of (heap (st (stage s))) collection)) ->
  adds_checkpoint path enabled s (stage s)
    ((collection <- stage ;; checkpoint enabled path collection) s).
Proof.
  intros Hphase Hemits Hframes Hvalid. split_and!.
  - apply (omap_phase_none _ lo hi); [apply Hemits|]. off_phase.
  - apply Hframes.
  - assert ((collection <- stage ;; checkpoint enabled path collection) s =
            match res (stage s) with
            | Ok collection =>
                let r := checkpoint enabled path collection (st (stage s)) in
                Run (res r) (st r) (out (stage s) ++ out r)
            | Raise e => Run (Raise e) (st (stage s)) (out (stage s))
            end) as ->.
    { apply run_ext; rewrite ?res_bind, ?st_bind, ?out_bind;
        destruct (res (stage s)); rewrite ?app_nil_r; reflexivity. }
    specialize (Hframes s).
    destruct (res (stage s)) as [collection|e] eqn:Hres.
    + destruct (Hvalid collection eq_refl) as [contents Hcontents].
      cbv zeta. rewrite checkpoint_run, Hcontents.
      destruct enabled; cbn [res st out].
      * exists contents. rewrite Hframes. split; reflexivity.
      * rewrite app_nil_r. destruct (stage s); simpl in *. congruence.
    + destruct enabled; destruct (stage s); simpl in *; congruence.
Qed.

(** C7: [create_cases] and [phenomize] write a checkpoint only when
    [general.dump_intermediate] is true, [case_cleaned.p] at the end of the
    first and [case_phenomized.p] at the end of the second; with the flag
    off each stage opens no checkpoint and leaves the files as they were;
    and the stage with the flag on is the stage with the flag off followed by
    the writing of its checkpoint (the collaborators built from the
    configuration are assumed not to read the flag). *)
Theorem checkpoints_follow_the_flag args config_data jsons cases s :
  errorfixer_ErrorFixer (without_dump config_data) =
    errorfixer_ErrorFixer config_data ->
  phenomizer_PhenomizerService (without_dump config_data) =
    phenomizer_PhenomizerService config_data ->
  let enabled := general_dump_intermediate config_data in
  adds_checkpoint "case_cleaned.p" enabled s
    (create_cases args (without_dump config_data) jsons s)
    (create_cases args config_data jsons s)
  /\ adds_checkpoint "case_phenomized.p" enabled s
       (phenomize (without_dump config_data) cases s)
       (phenomize config_data cases s).
Proof.
  intros Hfixer Hservice enabled. split.
  - assert (create_cases args (without_dump config_data) jsons s =
            build_cases config_data jsons s) as ->.
    { rewrite create_cases_split.
      assert (build_cases (without_dump config_data) jsons =
              build_cases config_data jsons) as ->.
      { unfold build_cases. rewrite Hfixer. reflexivity. }
      apply run_ext; rewrite ?res_bind, ?st_bind, ?out_bind;
        destruct (res (build_cases config_data jsons s));
        rewrite ?checkpoint_run, ?app_nil_r; reflexivity. }
    rewrite create_cases_split.
    apply (adds_checkpoint_intro _ _ 8 10); [lia| | |].
    + apply emits_build_cases.
    + apply frames_files_build_cases.
    + apply build_cases_valid.
  - assert (phenomize (without_dump config_data) cases s =
            phenomize_cases config_data cases s) as ->.
    { rewrite phenomize_split.
      assert (phenomize_cases (without_dump config_data) cases =
              phenomize_cases config_data cases) as ->.
      { unfold phenomize_cases. rewrite Hservice. reflexivity. }
      apply run_ext; rewrite ?res_bind, ?st_bind, ?out_bind;
        destruct (res (phenomize_cases config_data cases s));
        rewrite ?checkpoint_run, ?app_nil_r; reflexivity. }
    rewrite phenomize_split.
    apply (adds_checkpoint_intro _ _ 12 13); [lia| | |].
    + apply emits_phenomize_cases.
    + apply frames_files_phenomize_cases.
    + apply phenomize_cases_valid.
Qed.

End Checkpoints.

Section Loops.
Context `{Collaborators}.

Implicit Types (s : state) (ev : event) (t : log) (h : list Case).

Definition case_event (j : NewJson) : event * outcome := (EvCase j, Returned).

(** The construction loop, when no constructor raises: one new object per
    submission, in order. *)
Lemma yield_cases_ok jsons error_fixer exclusion s case_objs :
  res (yield_cases jsons error_fixer exclusion s) = Ok case_objs ->
  exists cs,
    Forall2 (fun j c => case_Case j error_fixer exclusion = Ok c) jsons cs
    /\ case_objs = seq (length (heap s)) (length cs)
    /\ st (yield_cases jsons error_fixer exclusion s) =
       set_heap (heap s ++ cs) s
    /\ out (yield_cases jsons error_fixer exclusion s) = map case_event jsons.
Proof.
  unfold yield_cases, progress_bar.
  match goal with |- context [mapM ?f _ _] => set (body := f) end.
  assert (forall j s' r,
            res (body j s') = Ok r ->
            exists c, case_Case j error_fixer exclusion = Ok c
                      /\ r = length (heap s')
                      /\ st (body j s') = set_heap (heap s' ++ [c]) s'
                      /\ out (body j s') = [case_event j]) as Hbody.
  { intros j s' r. subst body. cbn beta.
    rewrite res_bind, st_bind, out_bind. cbn [call res st out].
    destruct (case_Case j error_fixer exclusion) as [c|e]; [|discriminate].
    cbn [new_obj res st out outcome_of]. intros [= <-]. eauto. }
  clearbody body.
  revert s case_objs. induction jsons as [|j js IH]; intros s case_objs Hres.
  - inversion Hres. exists []. split_and!; try reflexivity; [constructor|].
    cbn. rewrite app_nil_r. destruct s; reflexivity.
  - cbn [mapM] in *. rewrite st_bind, out_bind.
    apply bind_ok_inv in Hres as (r & Hr & Hres).
    apply bind_ok_inv in Hres as (rs & Hrest & Hres).
    inversion Hres; subst case_objs. rewrite Hr.
    rewrite st_bind, out_bind, Hrest. cbn [ret st out].
    destruct (Hbody _ _ _ Hr) as (c & Hc & -> & Hst & Hout).
    rewrite Hst, Hout in *.
    destruct (IH _ _ Hrest) as (cs & Hall & Hrs & Hst' & Hout').
    exists (c :: cs). rewrite Hst', Hout', Hrs, app_nil_r.
    cbn [set_heap heap length seq]. rewrite length_app, <- app_assoc.
    cbn [length app]. rewrite Nat.add_1_r.
    split_and!; try reflexivity. constructor; assumption.
Qed.

(** The batch correction: one call on the contents of the whole collection,
    written back to the cases. *)
Lemma correct_reference_transcripts_run case_objs s :
  correct_reference_transcripts case_objs s =
  match contents_of (heap s) case_objs with
  | None => Run (Raise "ReferenceError") s []
  | Some cs =>
      match mutalyzer_correct_reference_transcripts cs with
      | Ok cs' =>
          Run (Ok tt) (set_heap (write_all (heap s) case_objs cs') s)
              [(EvCorrect case_objs, Returned)]
      | Raise e => Run (Raise e) s [(EvCorrect case_objs, Raised)]
      end
  end.
Proof.
  unfold correct_reference_transcripts.
  apply run_ext; rewrite ?res_bind, ?st_bind, ?out_bind, mapM_deref_run;
    cbn [res st out]; destruct (contents_of (heap s) case_objs) as [cs|];
    try reflexivity;
    rewrite ?res_bind, ?st_bind, ?out_bind; cbn [call res st out];
    destruct (mutalyzer_correct_reference_transcripts cs);
    rewrite ?assign_all_run; reflexivity.
Qed.

(** The phenomization loop on objects that were created in a row: each one
    gets the content that the service made of it. *)
Lemma yield_phenomized_fresh cs : forall h h' phen s us,
  heap s = h ++ cs ++ h' ->
  res (yield_phenomized (seq (length h) (length cs)) phen s) = Ok us ->
  exists cs',
    Forall2 (fun c c' => Case_phenomize c phen = Ok c') cs cs'
    /\ st (yield_phenomized (seq (length h) (length cs)) phen s) =
       set_heap (h ++ cs' ++ h') s.
Proof.
  intros h h' phen. revert h. unfold yield_phenomized, progress_bar.
  match goal with |- context [mapM ?f _ _] => set (body := f) end.
  assert (forall h c cs s' u,
            heap s' = h ++ c :: cs ++ h' ->
            res (body (length h) s') = Ok u ->
            exists c', Case_phenomize c phen = Ok c'
                       /\ st (body (length h) s') =
                          set_heap ((h ++ [c']) ++ cs ++ h') s') as Hbody.
  { intros h c cs0 s' u Hheap. subst body. cbn beta.
    assert (heap s' !! length h = Some c) as Hlook.
    { rewrite Hheap, lookup_app_r by lia. rewrite Nat.sub_diag. reflexivity. }
    rewrite res_bind, st_bind, deref_run, Hlook.
    cbn [res st]. rewrite res_bind, st_bind. cbn [call res st].
    destruct (Case_phenomize c phen) as [c'|e]; [|discriminate].
    intros _. exists c'. split; [reflexivity|]. cbn [assign st].
    f_equal. rewrite Hheap.
    replace (length h) with (length h + 0) at 1 by lia.
    rewrite insert_app_r. cbn. rewrite <- app_assoc. reflexivity. }
  clearbody body.
  induction cs as [|c cs IH]; intros h s us Hheap Hres.
  - exists []. split; [constructor|]. cbn in *. rewrite <- Hheap.
    destruct s; reflexivity.
  - cbn [length seq mapM] in *. rewrite st_bind.
    apply bind_ok_inv in Hres as (u & Hu & Hres).
    apply bind_ok_inv in Hres as (us' & Hrest & _).
    rewrite Hu, st_bind, Hrest. cbn [ret st].
    destruct (Hbody _ _ _ _ _ Hheap Hu) as (c' & Hc' & Hst).
    rewrite Hst in *.
    assert (S (length h) = length (h ++ [c'])) as Hlen
      by (rewrite length_app; simpl; lia).
    rewrite Hlen in *.
    destruct (IH (h ++ [c']) (set_heap ((h ++ [c']) ++ cs ++ h') s) us'
                eq_refl Hrest) as (cs' & Hall & Hst').
    exists (c' :: cs'). split; [constructor; assumption|].
    rewrite Hst'. cbn [set_heap heap disk files]. rewrite <- app_assoc.
    reflexivity.
Qed.

Lemma frames_state_yield_old_json case_objs destination omim_obj :
  frames (fun s => s) (yield_old_json case_objs destination omim_obj).
Proof. unfold yield_old_json, progress_bar. frames_auto. Qed.

(** The export loop, when it returns: every case of the collection is handed
    over once, in order, with the content it has in the store. *)
Lemma yield_old_json_exported case_objs destination omim_obj s us cs :
  res (yield_old_json case_objs destination omim_obj s) = Ok us ->
  contents_of (heap s) case_objs = Some cs ->
  exported (out (yield_old_json case_objs destination omim_obj s)) =
  zip case_objs cs.
Proof.
  pose proof (fun rs => frames_state_yield_old_json rs destination omim_obj s)
    as Hframe.
  revert Hframe. unfold yield_old_json, progress_bar.
  match goal with |- context [mapM ?f _ _] => set (body := f) end.
  assert (forall r c, heap s !! r = Some c ->
                      exported (out (body r s)) = [(r, c)]) as Hbody.
  { intros r c Hr. subst body. cbn beta.
    rewrite out_bind, deref_run, Hr. cbn [res st out app].
    rewrite out_bind. cbn [call res st out].
    destruct (OldJson_from_case_object c destination omim_obj); reflexivity. }
  clearbody body. intros Hframe.
  revert us cs. induction case_objs as [|r rs IH]; intros us cs Hres Hcs.
  - reflexivity.
  - cbn [mapM contents_of] in *.
    destruct (heap s !! r) as [c|] eqn:Hr; [|discriminate].
    destruct (contents_of (heap s) rs) as [cs'|] eqn:Hcs'; [|discriminate].
    injection Hcs as <-.
    apply bind_ok_inv in Hres as (u & Hu & Hres).
    apply bind_ok_inv in Hres as (us' & Hrest & _).
    pose proof (Hframe [r]) as Hst. cbn [mapM] in Hst.
    rewrite st_bind, Hu, st_bind in Hst. cbn [ret res st] in Hst.
    rewrite out_bind, Hu, out_bind. rewrite Hst in *. rewrite Hrest.
    cbn [ret out]. rewrite app_nil_r. unfold exported in *. rewrite omap_app.
    rewrite (IH us' cs' Hrest eq_refl), (Hbody r c Hr). reflexivity.
Qed.

End Loops.

Section Correction.
Context `{Collaborators}.

Implicit Types (s : state) (ev : event) (t : log) (h : list Case).

Lemma main_cases_fresh args config_data :
  truthy_opt (pickle args) = false ->
  main_cases args config_data =
  (jsons <- create_jsons args config_data ;;
   create_cases args config_data jsons).
Proof.
  unfold main_cases, truthy_opt.
  destruct (pickle args) as [path|]; [|reflexivity].
  intros ->. reflexivity.
Qed.

(** With [--pickle] a run records the start of [main], the loading of the
    checkpoint, and what follows the first block. *)
Lemma emits_main_pickle cli path :
  opt_pickle cli = Some path -> truthy path = true ->
  emits (fun ev => phase ev <= 1 \/ ev = EvLoad path \/ 12 <= phase ev)
        (main cli).
Proof.
  intros Hp Ht. rewrite main_unfold. unfold configure_logging.
  apply emits_bind; [apply emits_call; simpl; lia|intros _].
  apply emits_bind; [apply emits_call; simpl; lia|intros config_data].
  apply emits_bind.
  - unfold main_cases. cbn [parse_arguments pickle]. rewrite Hp, Ht.
    apply emits_pickle_load. auto.
  - intros cases. eapply emits_mono; [|apply phased_main_rest].
    intros ev. unfold between. lia.
Qed.

Lemma corrections_phase t :
  Forall (fun x => phase x.1 <> 10) t -> corrections t = [].
Proof.
  intros Hall. apply omap_none. eapply Forall_impl; [exact Hall|].
  intros [ev o]. destruct ev; simpl; intros Hne; try reflexivity. lia.
Qed.

Lemma corrections_nil_phase t :
  corrections t = [] -> Forall (fun x => phase x.1 <> 10) t.
Proof.
  induction t as [|[ev o] t IH]; [constructor|].
  unfold corrections in *. cbn [omap list_omap fst].
  destruct ev; cbn [phase]; try discriminate; intros Hc;
    (constructor; [|exact (IH Hc)]); cbn [fst phase];
    repeat match goal with |- context [if ?b then _ else _] => destruct b end;
    lia.
Qed.

(** In a log that follows the steps of the pipeline and holds one
    correction, everything before it belongs to earlier steps and everything
    after it to later steps. *)
Lemma corrections_split t case_objs :
  StronglySorted in_order t -> corrections t = [case_objs] ->
  exists pre o post,
    t = pre ++ (EvCorrect case_objs, o) :: post
    /\ Forall (fun x => phase x.1 < 10) pre
    /\ Forall (fun x => 10 < phase x.1) post.
Proof.
  induction t as [|x t IH]; intros Hsorted Hcorr; [discriminate|].
  apply StronglySorted_cons in Hsorted as [Hx Hsorted].
  destruct x as [ev o].
  destruct (decide (phase ev = 10)) as [Hten|Hten].
  - destruct ev; cbn [phase] in Hten;
      repeat match type of Hten with
             | context [if ?b then _ else _] => destruct b
             end; try lia.
    unfold corrections in Hcorr. cbn [omap list_omap fst] in Hcorr.
    injection Hcorr as -> Hrest. exists [], o, t. split_and!.
    + reflexivity.
    + constructor.
    + apply corrections_nil_phase in Hrest.
      rewrite Forall_forall in Hx, Hrest |- *. intros y Hy.
      specialize (Hx y Hy). specialize (Hrest y Hy).
      unfold in_order in Hx. cbn [fst phase] in Hx. lia.
  - assert (corrections t = [case_objs]) as Hrest.
    { revert Hcorr. unfold corrections. cbn [omap list_omap fst].
      destruct ev; cbn [phase] in Hten; try (intros Hc; exact Hc). lia. }
    destruct (IH Hsorted Hrest) as (pre & o' & post & -> & Hpre & Hpost).
    exists ((ev, o) :: pre), o', post. split_and!.
    + reflexivity.
    + constructor; [|exact Hpre]. rewrite Forall_forall in Hx.
      specialize (Hx (EvCorrect case_objs, o')).
      unfold in_order in Hx. cbn [fst phase] in Hx |- *.
      assert (phase ev <= 10); [|lia].
      apply Hx. apply elem_of_app. right. apply list_elem_of_here.
    + exact Hpost.
Qed.

Lemma corrections_case_events jsons : corrections (map case_event jsons) = [].
Proof. induction jsons; simpl; congruence. Qed.

Lemma emits_checkpoint enabled path collection :
  emits (between 11 14) (checkpoint enabled path collection).
Proof.
  unfold checkpoint. emits_auto. unfold between. cbn [phase].
  destruct (String.eqb path "case_phenomized.p"); lia.
Qed.

(** When every Case is constructed, [create_cases] calls the correction
    once, on the whole collection. *)
Lemma corrections_create_cases args config_data jsons s error_fixer case_objs :
  errorfixer_ErrorFixer config_data = Ok error_fixer ->
  res (yield_cases jsons error_fixer
         (preprocess_exclude_normal_variants config_data) s) = Ok case_objs ->
  corrections (out (create_cases args config_data jsons s)) = [case_objs]
  /\ length case_objs = length jsons.
Proof.
  intros Hef Hyc.
  destruct (yield_cases_ok _ _ _ _ _ Hyc) as (cs & Hall & Hrefs & Hst & Hout).
  split; [|rewrite Hrefs, length_seq; symmetry; eapply Forall2_length, Hall].
  rewrite create_cases_split, out_bind. unfold corrections. rewrite omap_app.
  assert (omap (fun x => match x.1 with EvCorrect rs => Some rs | _ => None end)
               match res (build_cases config_data jsons s) with
               | Ok a =>
                   out (checkpoint (general_dump_intermediate config_data)
                          "case_cleaned.p" a (st (build_cases config_data jsons s)))
               | Raise _ => []
               end = []) as ->.
  { destruct (res (build_cases config_data jsons s)); [|reflexivity].
    apply (omap_phase_none _ 11 14); [apply emits_checkpoint|off_phase]. }
  rewrite app_nil_r. unfold build_cases.
  rewrite out_bind. cbn [call res st out]. rewrite Hef. cbn [outcome_of].
  rewrite out_bind, Hyc, Hout, Hst. rewrite out_bind.
  rewrite correct_reference_transcripts_run. cbn [set_heap heap].
  pose proof (contents_of_fresh (heap s) cs []) as Hfresh.
  rewrite app_nil_r in Hfresh. rewrite <- Hrefs in Hfresh. rewrite Hfresh.
  rewrite !omap_app. fold (corrections (map case_event jsons)).
  rewrite corrections_case_events.
  destruct (mutalyzer_correct_reference_transcripts cs); reflexivity.
Qed.

(** C6, as the code has it: a run resumed from a checkpoint does not call
    the reference-transcript correction; a run that builds its collection
    and constructs every Case calls it exactly once, on the whole collection,
    after the actions of all earlier steps (the constructions of the Cases
    among them) and before the actions of all later steps (the writing of the
    checkpoints and the phenomization among them). *)
Theorem correction_once cli s :
  (forall path, opt_pickle cli = Some path -> truthy path = true ->
     corrections (out (main cli s)) = [])
  /\ (truthy_opt (opt_pickle cli) = false ->
      forall config_data jsons error_fixer case_objs,
        config_ConfigManager = Ok config_data ->
        res (create_jsons (parse_arguments cli) config_data s) = Ok jsons ->
        errorfixer_ErrorFixer config_data = Ok error_fixer ->
        res (yield_cases jsons error_fixer
               (preprocess_exclude_normal_variants config_data)
               (st (create_jsons (parse_arguments cli) config_data s)))
          = Ok case_objs ->
        corrections (out (main cli s)) = [case_objs]
        /\ length case_objs = length jsons
        /\ exists pre o post,
             out (main cli s) = pre ++ (EvCorrect case_objs, o) :: post
             /\ Forall (fun x => phase x.1 < 10) pre
             /\ Forall (fun x => 10 < phase x.1) post).
Proof.
  split.
  - intros path Hp Ht. apply corrections_phase.
    eapply Forall_impl; [apply (emits_main_pickle cli path Hp Ht s)|].
    intros [ev o]. cbn [fst]. intros [Hle|[->|Hge]]; cbn [phase]; lia.
  - intros Hfresh config_data jsons error_fixer case_objs Hcfg Hjsons Hef Hyc.
    destruct (corrections_create_cases (parse_arguments cli) _ _ _ _ _ Hef Hyc)
      as (Hcorr & Hlen).
    assert (corrections (out (main cli s)) = [case_objs]) as Hmain.
    { rewrite main_run, Hcfg. cbv zeta.
      rewrite (main_cases_fresh (parse_arguments cli) config_data Hfresh).
      rewrite res_bind, st_bind, out_bind, Hjsons.
      set (cj := create_jsons (parse_arguments cli) config_data s) in *.
      set (cc := create_cases (parse_arguments cli) config_data jsons (st cj))
        in *.
      assert (corrections (out cj) = []) as Hcj.
      { apply (omap_phase_none _ 2 7);
          [apply phased_create_jsons|off_phase]. }
      destruct (res cc) as [cases|e]; cbn [out]; unfold corrections in *;
        rewrite !omap_app, Hcj, Hcorr; [|reflexivity].
      rewrite (omap_phase_none _ 12 16 _
                 (proj1 (phased_main_rest _ _ _) _)) by off_phase.
      reflexivity. }
    split_and!; [exact Hmain|exact Hlen|].
    apply corrections_split; [|exact Hmain]. apply phased_main.
Qed.

End Correction.

Section Resume.
Context `{Collaborators}.

Implicit Types (s : state) (ev : event) (t : log) (h : list Case).

(** The actions of the acquisition of the submissions, of their parsing and
    filtering, and of the building of the cases. *)
Definition acquires_or_builds ev : bool :=
  match ev with
  | EvDownload | EvListdir _ | EvFromFile _ _ | EvPrint _ _ | EvCheck _
  | EvErrorFixer | EvCase _ | EvCorrect _ => true
  | EvDump path _ => String.eqb path "case_cleaned.p"
  | _ => false
  end.

Lemma frames_state_convert args config_data cases :
  frames (fun s => s) (convert_to_old_format args config_data cases).
Proof.
  unfold convert_to_old_format, yield_old_json, progress_bar. frames_auto.
Qed.

Lemma convert_exported args config_data cases s cs :
  res (convert_to_old_format args config_data cases s) = Ok tt ->
  contents_of (heap s) cases = Some cs ->
  exported (out (convert_to_old_format args config_data cases s)) =
  zip cases cs.
Proof.
  unfold convert_to_old_format. intros Hres Hcs.
  apply bind_ok_inv in Hres as (omim_obj & Homim & Hres).
  apply bind_ok_inv in Hres as (us & Hus & _).
  rewrite out_bind, Homim, out_bind. cbn [call res st out] in *.
  rewrite Hus. cbn [ret out]. rewrite app_nil_r.
  unfold exported. rewrite omap_app. cbn [omap list_omap fst app].
  apply (yield_old_json_exported _ _ _ _ us cs Hus Hcs).
Qed.

(** The rest of [main] on a collection of objects created in a row, with
    the entry point ["pheno"]. *)
Lemma main_rest_fresh args config_data h contents s :
  entry args = "pheno" ->
  heap s = h ++ contents ->
  let cases := seq (length h) (length contents) in
  res (main_rest args config_data cases s) = Ok tt ->
  exists phen contents',
    phenomizer_PhenomizerService config_data = Ok phen
    /\ Forall2 (fun c c' => Case_phenomize c phen = Ok c') contents contents'
    /\ exported (out (main_rest args config_data cases s)) = zip cases contents'
    /\ heap (st (main_rest args config_data cases s)) = h ++ contents'.
Proof.
  intros Hentry Hheap cases. rewrite main_rest_run, Hentry, String.eqb_refl.
  cbv zeta.
  rewrite phenomize_run.
  destruct (phenomizer_PhenomizerService config_data) as [phen|e];
    [|discriminate].
  cbv zeta.
  destruct (res (yield_phenomized cases phen s)) as [us|e] eqn:Hloop;
    [|discriminate].
  assert (heap s = h ++ contents ++ []) as Hheap'
    by (rewrite app_nil_r; exact Hheap).
  destruct (yield_phenomized_fresh contents h [] phen s us Hheap' Hloop)
    as (contents' & Hall & Hst).
  rewrite app_nil_r in Hst. fold cases in Hst.
  assert (contents_of (h ++ contents') cases = Some contents') as Hfresh.
  { pose proof (contents_of_fresh h contents' []) as Hf.
    rewrite app_nil_r in Hf. unfold cases.
    rewrite (Forall2_length _ _ _ Hall). exact Hf. }
  change (phenomize_dump config_data cases)
    with (checkpoint (general_dump_intermediate config_data)
            "case_phenomized.p" cases).
  rewrite checkpoint_run, Hst. cbn [set_heap heap]. rewrite Hfresh.
  destruct (general_dump_intermediate config_data); cbn [res st out];
    intros Hres; exists phen, contents';
    (split_and!; [reflexivity|exact Hall| |]).
  - unfold exported. rewrite omap_app. cbn [omap list_omap fst].
    rewrite omap_app.
    rewrite (omap_phase_none _ 13 13 _ (emits_yield_phenomized cases phen s))
      by off_phase.
    cbn [omap list_omap fst app].
    apply (convert_exported args config_data cases _ contents' Hres Hfresh).
  - rewrite (frames_state_convert args config_data cases _). reflexivity.
  - unfold exported. rewrite omap_app. cbn [omap list_omap fst].
    rewrite omap_app.
    rewrite (omap_phase_none _ 13 13 _ (emits_yield_phenomized cases phen s))
      by off_phase.
    cbn [omap list_omap fst app].
    apply (convert_exported args config_data cases _ contents' Hres Hfresh).
  - rewrite (frames_state_convert args config_data cases _). reflexivity.
Qed.

(** When the rest of [main] reaches the legacy export on such a collection,
    the phenomization has returned and the export is that of the same
    collection, whose cases hold what the service made of them. *)
Lemma main_rest_reaches_export args config_data h contents s o :
  entry args = "pheno" ->
  heap s = h ++ contents ->
  let cases := seq (length h) (length contents) in
  (EvOmim, o) ∈ out (main_rest args config_data cases s) ->
  exists phen contents' s3 t,
    phenomizer_PhenomizerService config_data = Ok phen
    /\ Forall2 (fun c c' => Case_phenomize c phen = Ok c') contents contents'
    /\ heap s3 = h ++ contents'
    /\ Forall (fun x => phase x.1 <= 14) t
    /\ main_rest args config_data cases s =
       let r := convert_to_old_format args config_data cases s3 in
       Run (res r) (st r) (t ++ out r).
Proof.
  intros Hentry Hheap cases. rewrite main_rest_run, Hentry, String.eqb_refl.
  cbv zeta. rewrite phenomize_run.
  destruct (phenomizer_PhenomizerService config_data) as [phen|e].
  2:{ cbn [res out]. intros Hin.
      apply list_elem_of_singleton in Hin. discriminate. }
  cbv zeta.
  pose proof (emits_yield_phenomized cases phen s) as Hloop_ev.
  destruct (res (yield_phenomized cases phen s)) as [us|e] eqn:Hloop.
  2:{ cbn [res out]. intros Hin.
      apply elem_of_cons in Hin as [Heq|Hin]; [discriminate|].
      rewrite Forall_forall in Hloop_ev. apply Hloop_ev in Hin.
      unfold between in Hin. simpl in Hin. lia. }
  assert (heap s = h ++ contents ++ []) as Hheap'
    by (rewrite app_nil_r; exact Hheap).
  destruct (yield_phenomized_fresh contents h [] phen s us Hheap' Hloop)
    as (contents' & Hall & Hst).
  rewrite app_nil_r in Hst. fold cases in Hst.
  assert (contents_of (h ++ contents') cases = Some contents') as Hfresh.
  { pose proof (contents_of_fresh h contents' []) as Hf.
    rewrite app_nil_r in Hf. unfold cases.
    rewrite (Forall2_length _ _ _ Hall). exact Hf. }
  change (phenomize_dump config_data cases)
    with (checkpoint (general_dump_intermediate config_data)
            "case_phenomized.p" cases).
  rewrite checkpoint_run, Hst. cbn [set_heap heap]. rewrite Hfresh.
  intros _.
  destruct (general_dump_intermediate config_data); cbn [res st out].
  - exists phen, contents'.
    eexists. eexists. split_and!; [reflexivity|exact Hall| | |reflexivity].
    + reflexivity.
    + constructor; [simpl; lia|]. apply Forall_app. split.
      * eapply Forall_impl; [exact Hloop_ev|]. intros x. unfold between. lia.
      * repeat constructor.
  - exists phen, contents'.
    eexists. eexists. split_and!; [reflexivity|exact Hall| | |reflexivity].
    + reflexivity.
    + constructor; [simpl; lia|]. apply Forall_app. split.
      * eapply Forall_impl; [exact Hloop_ev|]. intros x. unfold between. lia.
      * constructor.
Qed.

(** C3: with [--pickle <path>] (a non-empty path) and the entry point
    ["pheno"], a run of [main] records no action of the acquisition, of the
    parsing and filtering or of the building of cases; when the run reaches
    the legacy export, what is exported is the collection unpickled from the
    checkpoint, in a store in which its cases hold the contents that the
    phenotype-matching service made of the pickled ones; and when the run
    returns, those cases have been handed to the export once each, in their
    order, with those contents. *)
Theorem resume_from_checkpoint cli path s :
  opt_pickle cli = Some path -> truthy path = true ->
  entry (parse_arguments cli) = "pheno" ->
  (forall ev o, (ev, o) ∈ out (main cli s) -> acquires_or_builds ev = false)
  /\ (forall o, (EvOmim, o) ∈ out (main cli s) ->
      exists config_data phen contents contents' s3 t,
        config_ConfigManager = Ok config_data
        /\ phenomizer_PhenomizerService config_data = Ok phen
        /\ files s !! path = Some (Pickled contents)
        /\ Forall2 (fun c c' => Case_phenomize c phen = Ok c') contents contents'
        /\ heap s3 = heap s ++ contents'
        /\ Forall (fun x => phase x.1 <= 14) t
        /\ main cli s =
           let r := convert_to_old_format (parse_arguments cli) config_data
                      (seq (length (heap s)) (length contents)) s3 in
           Run (res r) (st r) (t ++ out r))
  /\ (res (main cli s) = Ok tt ->
      exists config_data phen contents contents',
        config_ConfigManager = Ok config_data
        /\ phenomizer_PhenomizerService config_data = Ok phen
        /\ files s !! path = Some (Pickled contents)
        /\ Forall2 (fun c c' => Case_phenomize c phen = Ok c') contents contents'
        /\ exported (out (main cli s)) =
           zip (seq (length (heap s)) (length contents)) contents'
        /\ heap (st (main cli s)) = heap s ++ contents').
Proof.
  intros Hp Ht Hentry.
  assert (forall config_data,
            main_cases (parse_arguments cli) config_data s = pickle_load path s)
    as Hcases.
  { intros config_data. unfold main_cases. cbn [parse_arguments pickle].
    rewrite Hp, Ht. reflexivity. }
  split_and!.
  - intros ev o Hin.
    pose proof (emits_main_pickle cli path Hp Ht s) as Hall.
    rewrite Forall_forall in Hall. specialize (Hall _ Hin). cbn [fst] in Hall.
    destruct Hall as [Hle|[->|Hge]]; [|reflexivity|];
      destruct ev; cbn [phase acquires_or_builds] in *;
      try reflexivity; try lia;
      try match goal with
          | |- String.eqb ?p _ = false =>
              destruct (String.eqb_spec p "case_phenomized.p") as [->|Hne];
              [reflexivity|lia]
          end;
      repeat match goal with
             | H : context [if ?b then _ else _] |- _ => destruct b
             end; lia.
  - intros o. rewrite main_run.
    destruct config_ConfigManager as [config_data|e].
    2:{ cbn [out]. intros Hin.
        repeat (apply elem_of_cons in Hin as [Heq|Hin]; [discriminate|]).
        inversion Hin. }
    cbv zeta. rewrite Hcases.
    destruct (files s !! path) as [[|contents]|] eqn:Hfile.
    1,3: unfold pickle_load; rewrite Hfile; cbn [call res st out];
         intros Hin;
         repeat (apply elem_of_cons in Hin as [Heq|Hin]; [discriminate|]);
         inversion Hin.
    rewrite (pickle_load_run path s contents Hfile). cbn [res st out].
    intros Hin.
    repeat (apply elem_of_cons in Hin as [Heq|Hin]; [discriminate|]).
    destruct (main_rest_reaches_export (parse_arguments cli) config_data
                (heap s) contents (set_heap (heap s ++ contents) s) o
                Hentry eq_refl Hin)
      as (phen & contents' & s3 & t & Hphen & Hall & Hheap & Ht14 & Hrest).
    exists config_data, phen, contents, contents', s3,
      (startup_log ++ [(EvLoad path, Returned)] ++ t).
    split_and!; try reflexivity; try assumption.
    + apply Forall_app. split; [repeat constructor; simpl; lia|].
      constructor; [simpl; lia|exact Ht14].
    + rewrite Hrest. reflexivity.
  - rewrite main_run.
    destruct config_ConfigManager as [config_data|e]; [|discriminate].
    cbv zeta. rewrite Hcases.
    destruct (files s !! path) as [[|contents]|] eqn:Hfile;
      try (unfold pickle_load; rewrite Hfile; discriminate).
    rewrite (pickle_load_run path s contents Hfile). cbn [res st out].
    intros Hres.
    destruct (main_rest_fresh (parse_arguments cli) config_data (heap s)
                contents (set_heap (heap s ++ contents) s) Hentry eq_refl Hres)
      as (phen & contents' & Hphen & Hall & Hexp & Hheap).
    exists config_data, phen, contents, contents'.
    split_and!; try reflexivity; assumption.
Qed.

End Resume.

(** * The script at work in the small world *)

Lemma create_jsons_single_witness :
  from_file_calls
    (out (create_jsons (H := demo_W)
            (parse_arguments (demo_cli (Some "one.json") None))
            (demo_config true true) demo_s0)) = [("one.json", "")].
Proof.
  apply (create_jsons_single (H := demo_W)
           (parse_arguments (demo_cli (Some "one.json") None))
           (demo_config true true) "one.json" demo_s0);
    reflexivity.
Defined.

Lemma single_never_downloads_witness :
  (EvDownload, Returned) ∉
    out (demo_main true true (demo_cli (Some "one.json") None)
           demo_listing []).
Proof.
  apply (single_never_downloads (H := demo_world (Ok (demo_config true true)))
           (demo_cli (Some "one.json") None) "one.json");
    reflexivity.
Defined.

Lemma create_jsons_counts_witness :
  exists loaded : list string,
    prints (H := demo_W)
      (out (create_jsons (H := demo_W)
              (parse_arguments (demo_cli None None))
              (demo_config false true) demo_s0)) =
    [("Unfiltered", length loaded); ("Filtered rough criteria", 2)]
    /\ 2 <= length loaded.
Proof.
  destruct (create_jsons_counts (H := demo_W)
              (parse_arguments (demo_cli None None))
              (demo_config false true) demo_s0
              ["data/cases/a.json"; "data/cases/d.json"])
    as (loaded & _ & _ & Hprints & _ & _ & Hle).
  - vm_compute. reflexivity.
  - exists loaded. split; [exact Hprints|exact Hle].
Defined.

(** The service raises on the second of three cases: the first one is
    phenomized in memory, the run ends there, and no checkpoint of the
    phenomized cases is written. *)
Lemma phenomize_failure_aborts_witness :
  let r := main (H := demo_W) (demo_cli None (Some "case_cleaned.p")) demo_s1 in
  res r = Raise "phenomizer: no result"
  /\ phenotype <$> heap (st r) = [true; false; false]
  /\ exported (H := demo_W) (out r) = []
  /\ files (st r) !! "case_phenomized.p" = None.
Proof.
  intros r.
  destruct (phenomize_failure_aborts (H := demo_W)
              (demo_cli None (Some "case_cleaned.p")) demo_s1 1
              (demo_fix (demo_new_case "data/cases/unknown.json")))
    as (_ & _ & Hfile).
  - vm_compute. do 5 apply list_elem_of_further. apply list_elem_of_here.
  - split_and!; [vm_compute; reflexivity..|].
    fold r in Hfile. rewrite Hfile. vm_compute. reflexivity.
Defined.

Lemma resume_from_checkpoint_witness :
  let r := main (H := demo_W) (demo_cli None (Some "case_cleaned.p")) demo_s2 in
  res r = Ok tt
  /\ (forall ev o, (ev, o) ∈ out r -> acquires_or_builds ev = false).
Proof.
  intros r. split; [vm_compute; reflexivity|].
  apply (resume_from_checkpoint (H := demo_W)
           (demo_cli None (Some "case_cleaned.p")) "case_cleaned.p" demo_s2);
    reflexivity.
Defined.

Lemma entry_gate_witness :
  exists o,
    (EvPhenomizerService, o) ∈
      out (main (H := demo_W) (demo_cli None None) demo_s0).
Proof.
  destruct (entry_gate (H := demo_W) (demo_cli None None) demo_s0
              (demo_config false true) [0; 1]) as (Hiff & _ & _).
  - reflexivity.
  - vm_compute. reflexivity.
  - apply Hiff. reflexivity.
Defined.

(** A run resumed from a checkpoint completes without one call of the
    correction. *)
Lemma resumed_run_never_corrects :
  let r := main (H := demo_W) (demo_cli None (Some "case_cleaned.p")) demo_s2 in
  res r = Ok tt /\ length (corrections (H := demo_W) (out r)) <> 1.
Proof. vm_compute. split; [reflexivity|discriminate]. Qed.

Lemma correction_once_witness :
  corrections (H := demo_W)
    (out (main (H := demo_W) (demo_cli None None) demo_s0)) = [[0; 1]].
Proof.
  destruct (correction_once (H := demo_W) (demo_cli None None) demo_s0)
    as [_ Hfresh].
  apply (Hfresh eq_refl (demo_config false true)
           ["data/cases/a.json"; "data/cases/d.json"] tt [0; 1]);
    vm_compute; reflexivity.
Defined.

Lemma checkpoints_follow_the_flag_witness :
  adds_checkpoint (H := demo_W) "case_cleaned.p" true demo_s0
    (create_cases (H := demo_W) (parse_arguments (demo_cli None None))
       (without_dump (demo_config false true))
       ["data/cases/a.json"; "data/cases/d.json"] demo_s0)
    (create_cases (H := demo_W) (parse_arguments (demo_cli None None))
       (demo_config false true)
       ["data/cases/a.json"; "data/cases/d.json"] demo_s0).
Proof.
  apply (checkpoints_follow_the_flag (H := demo_W)
           (parse_arguments (demo_cli None None)) (demo_config false true)
           ["data/cases/a.json"; "data/cases/d.json"] [] demo_s0);
    reflexivity.
Defined.

Lemma pickle_roundtrip_witness :
  let saved := pickle_dump (H := demo_W) [0; 1] "case_cleaned.p" demo_s3 in
  let loaded := pickle_load (H := demo_W) "case_cleaned.p" (st saved) in
  res saved = Ok tt
  /\ exists collection',
       res loaded = Ok collection'
       /\ contents_of (H := demo_W) (heap (st loaded)) collection' =
          Some [demo_new_case "data/cases/a.json";
                demo_new_case "data/cases/d.json"]
       /\ contents_of (H := demo_W) (heap (st loaded)) [0; 1] =
          Some [demo_new_case "data/cases/a.json";
                demo_new_case "data/cases/d.json"].
Proof.
  apply (pickle_roundtrip (H := demo_W) [0; 1] "case_cleaned.p" demo_s3
           [demo_new_case "data/cases/a.json";
            demo_new_case "data/cases/d.json"]).
  - discriminate.
  - reflexivity.
Defined.

(** ** Sample runs *)

Example os_path_join_cases :
  os_path_join "data" "cases" = "data/cases"
  /\ os_path_join "data/" "cases" = "data/cases"
  /\ os_path_join "data" "/cases" = "/cases"
  /\ os_path_join "" "cases" = "cases".
Proof. repeat split. Qed.

Example splitext_ext_cases :
  splitext_ext "123.json" = ".json"
  /\ splitext_ext "123.JSON" = ".JSON"
  /\ splitext_ext ".json" = ""
  /\ splitext_ext "archive.tar.gz" = ".gz"
  /\ splitext_ext "dir.d/readme" = "".
Proof. repeat split. Qed.

(** Three submissions of which one fails the rough check: two cases are
    built, phenomized and exported. *)
Example fresh_run :
  let r := main (H := demo_W) (demo_cli None None) demo_s0 in
  res r = Ok tt
  /\ prints (H := demo_W) (out r) =
     [("Unfiltered", 3); ("Filtered rough criteria", 2)]
  /\ corrections (H := demo_W) (out r) = [[0; 1]]
  /\ dumps (H := demo_W) (out r) = ["case_cleaned.p"; "case_phenomized.p"]
  /\ phenotype <$> heap (st r) = [true; true]
  /\ fst <$> exported (H := demo_W) (out r) = [0; 1].
Proof. vm_compute. repeat split. Qed.

(** The same run with an entry point other than ["pheno"]: the cases are
    exported as they were built. *)
Example fresh_run_other_entry :
  let r := main (H := demo_W)
             {| opt_single := None; opt_output := None; opt_pickle := None;
                opt_entry := Some "export" |} demo_s0 in
  res r = Ok tt
  /\ phenotype <$> heap (st r) = [false; false]
  /\ fst <$> exported (H := demo_W) (out r) = [0; 1].
Proof. vm_compute. repeat split. Qed.

(** * Further properties of the script *)

(** ** The paths that the directory scan returns *)

Section Paths.

Lemma list_ascii_of_string_app (a b : string) :
  String.list_ascii_of_string (a +:+ b) =
  String.list_ascii_of_string a ++ String.list_ascii_of_string b.
Proof. induction a as [|c a IH]; simpl; [reflexivity|]. rewrite IH. reflexivity. Qed.

(** What comes before the first [c] does not depend on what follows it. *)
Lemma break_at_app_sep c (l1 l2 : list ascii) :
  fst (break_at c (l1 ++ c :: l2)) = fst (break_at c l1).
Proof.
  induction l1 as [|x l1 IH]; simpl.
  - rewrite Ascii.eqb_refl. reflexivity.
  - destruct (Ascii.eqb x c); [reflexivity|].
    destruct (break_at c (l1 ++ c :: l2)) as [pre post].
    destruct (break_at c l1) as [pre' post']. simpl in *. congruence.
Qed.

Lemma endswith_sep_inv (a : string) :
  endswith_sep a = true ->
  exists l, String.list_ascii_of_string a = l ++ ["/"%char].
Proof.
  induction a as [|c a IH]; [discriminate|].
  destruct a as [|c' a'].
  - simpl. intros Hc. apply Ascii.eqb_eq in Hc as ->. exists []. reflexivity.
  - intros Hend. destruct (IH Hend) as [l Hl]. exists (c :: l).
    change (String.list_ascii_of_string (String c (String c' a')))
      with (c :: String.list_ascii_of_string (String c' a')).
    rewrite Hl. reflexivity.
Qed.

Lemma truthy_false_inv (a : string) : truthy a = false -> a = "".
Proof. destruct a; [reflexivity|discriminate]. Qed.

(** The extension of a joined path is the extension of its last part. *)
Lemma splitext_ext_join (a x : string) :
  splitext_ext (os_path_join a x) = splitext_ext x.
Proof.
  unfold os_path_join. destruct (startswith_sep x); [reflexivity|].
  assert (forall l, fst (break_at "/"%char
                           (rev (l ++ "/"%char :: String.list_ascii_of_string x)))
                    = fst (break_at "/"%char
                             (rev (String.list_ascii_of_string x)))) as Hbase.
  { intros l. rewrite rev_app_distr. simpl. rewrite <- app_assoc. simpl.
    apply break_at_app_sep. }
  destruct (truthy a) eqn:Ha; simpl.
  - destruct (endswith_sep a) eqn:Hend.
    + destruct (endswith_sep_inv a Hend) as [l Hl].
      unfold splitext_ext. rewrite list_ascii_of_string_app, Hl.
      rewrite <- app_assoc. simpl. rewrite Hbase. reflexivity.
    + unfold splitext_ext. rewrite !list_ascii_of_string_app. simpl.
      rewrite Hbase. reflexivity.
  - apply truthy_false_inv in Ha as ->. reflexivity.
Qed.

End Paths.

Section DirectoryScan.
Context `{Collaborators}.

Implicit Types (s : state) (ev : event) (t : log).

(** The directory of the submissions. *)
Definition cases_dir (config_data : ConfigManager) : string :=
  os_path_join (aws_download_location config_data) "cases".

(** The submissions among the entries of the directory. *)
Definition json_entries (config_data : ConfigManager) (names : list string)
  : list string :=
  map (os_path_join (cases_dir config_data))
      (filter (fun x => splitext_ext x = ".json") names).

(** The listing step of [json_from_directory], from the state [s], after the
    actions [pre]. *)
Definition listed (config_data : ConfigManager) s (pre : log)
  : run (list string * string) :=
  match os_listdir (disk s) (cases_dir config_data) with
  | Ok names =>
      Run (Ok (json_entries config_data names,
               preprocess_corrected_location config_data))
          s (pre ++ [(EvListdir (cases_dir config_data), Returned)])
  | Raise e =>
      Run (Raise e) s (pre ++ [(EvListdir (cases_dir config_data), Raised)])
  end.

Lemma json_from_directory_run config_data s :
  json_from_directory config_data s =
  if general_download config_data then
    match download_backup_s3_folder config_data (disk s) with
    | Ok d' => listed config_data (set_disk d' s) [(EvDownload, Returned)]
    | Raise e => Run (Raise e) s [(EvDownload, Raised)]
    end
  else listed config_data s [].
Proof.
  unfold json_from_directory, listed, json_entries, cases_dir, bind, get_disk,
    put_disk, call, ret.
  destruct (general_download config_data); cbn [res st out].
  - destruct (download_backup_s3_folder config_data (disk s)) as [d'|e];
      cbn [res st out set_disk disk]; [|reflexivity].
    destruct (os_listdir d' _); reflexivity.
  - destruct (os_listdir (disk s) _); reflexivity.
Qed.

Lemma json_entries_ext config_data names :
  Forall (fun p => splitext_ext p = ".json") (json_entries config_data names).
Proof.
  unfold json_entries. apply Forall_map. apply Forall_forall.
  intros x Hx. apply list_elem_of_filter in Hx as [Hext _]. simpl.
  rewrite splitext_ext_join. exact Hext.
Qed.

Lemma json_entries_length config_data names :
  length (json_entries config_data names) <= length names.
Proof. unfold json_entries. rewrite length_map. apply length_filter. Qed.

(** When [json_from_directory] returns, its paths are the entries of the
    listing of <download_location>/cases, as it is after the sync if there is
    one, that have the extension [.json], in the order of the listing and
    joined to the directory; every returned path has the extension [.json];
    the override directory is the configured one; and without the sync the
    state is left as it was. *)
Theorem json_from_directory_returns config_data s json_files corrected :
  res (json_from_directory config_data s) = Ok (json_files, corrected) ->
  let s' := st (json_from_directory config_data s) in
  Forall (fun p => splitext_ext p = ".json") json_files
  /\ corrected = preprocess_corrected_location config_data
  /\ (exists names,
        os_listdir (disk s') (cases_dir config_data) = Ok names
        /\ json_files = json_entries config_data names
        /\ length json_files <= length names)
  /\ (if general_download config_data
      then download_backup_s3_folder config_data (disk s) = Ok (disk s')
      else s' = s).
Proof.
  rewrite json_from_directory_run. unfold listed.
  destruct (general_download config_data).
  - destruct (download_backup_s3_folder config_data (disk s)) as [d'|e];
      [|discriminate].
    cbn [set_disk disk].
    destruct (os_listdir d' (cases_dir config_data)) as [names|e] eqn:Hls;
      [|discriminate].
    cbn [res st disk]. intros [= <- <-]. split_and!.
    + apply json_entries_ext.
    + reflexivity.
    + exists names. split_and!; [exact Hls|reflexivity|].
      apply json_entries_length.
    + reflexivity.
  - destruct (os_listdir (disk s) (cases_dir config_data)) as [names|e] eqn:Hls;
      [|discriminate].
    cbn [res st]. intros [= <- <-]. split_and!.
    + apply json_entries_ext.
    + reflexivity.
    + exists names. split_and!; [exact Hls|reflexivity|].
      apply json_entries_length.
    + reflexivity.
Qed.

End DirectoryScan.

Section DirectoryMode.
Context `{Collaborators}.

Implicit Types (s : state) (ev : event) (t : log).

(** [create_jsons] after the choice of the files. *)
Definition load_and_filter (json_files : list string) (corrected : string)
  : M (list NewJson) :=
  new_json_objs <- yield_jsons json_files corrected ;;
  count_and_filter new_json_objs.

(** Without [--single], [create_jsons] starts with the directory scan. *)
Lemma create_jsons_directory args config_data s :
  truthy_opt (single args) = false ->
  create_jsons args config_data s =
  (files_and_corrected <- json_from_directory config_data ;;
   load_and_filter files_and_corrected.1 files_and_corrected.2) s.
Proof.
  intros Hsingle.
  unfold create_jsons, load_and_filter, count_and_filter, truthy_opt in *.
  assert (match single args with
          | Some path =>
              if truthy path then ret ([path], "")
              else json_from_directory config_data
          | None => json_from_directory config_data
          end = json_from_directory config_data) as ->.
  { destruct (single args) as [path|]; [rewrite Hsingle|]; reflexivity. }
  apply bind_ext. intros [json_files corrected] s'. reflexivity.
Qed.

Lemma load_and_filter_ok json_files corrected s filtered :
  res (load_and_filter json_files corrected s) = Ok filtered ->
  st (load_and_filter json_files corrected s) = s
  /\ from_file_calls (out (load_and_filter json_files corrected s)) =
     map (fun p => (p, corrected)) json_files
  /\ prints (out (load_and_filter json_files corrected s)) =
     [("Unfiltered", length json_files);
      ("Filtered rough criteria", length filtered)]
  /\ length filtered <= length json_files.
Proof.
  unfold load_and_filter. intros Hres.
  rewrite st_bind, out_bind.
  apply bind_ok_inv in Hres as (loaded & Hloaded & Hres).
  destruct (yield_jsons_ok _ _ _ _ Hloaded) as (Hout1 & Hst1 & Hall).
  rewrite Hloaded, Hst1 in *.
  destruct (count_and_filter_ok _ _ _ Hres) as (Hout2 & Hkept).
  rewrite Hout1, Hout2, (frames_state_count_and_filter loaded s).
  apply Forall2_length in Hall.
  unfold from_file_calls, prints. rewrite !omap_app.
  fold (from_file_calls (map (from_file_event corrected) json_files)).
  fold (prints (map (from_file_event corrected) json_files)).
  rewrite from_file_calls_from_file, prints_from_file.
  cbn [omap list_omap fst app]. rewrite !omap_app.
  fold (from_file_calls (map check_event loaded)).
  fold (prints (map check_event loaded)).
  rewrite from_file_calls_check, prints_check.
  cbn [omap list_omap fst app]. rewrite app_nil_r, Hall.
  split_and!; try reflexivity.
  rewrite Hkept. apply length_filter.
Qed.

(** Without [--single], when [create_jsons] returns: the submissions loaded
    are the [.json] entries of the listing of the download directory, as it
    is after the sync if there is one; each is loaded once, in the order of
    the listing, with the configured override directory; and the unfiltered
    count is the number of those entries. *)
Theorem create_jsons_loads_the_listing args config_data s filtered :
  truthy_opt (single args) = false ->
  res (create_jsons args config_data s) = Ok filtered ->
  exists names,
    os_listdir (disk (st (create_jsons args config_data s)))
      (cases_dir config_data) = Ok names
    /\ from_file_calls (out (create_jsons args config_data s)) =
       map (fun p => (p, preprocess_corrected_location config_data))
           (json_entries config_data names)
    /\ prints (out (create_jsons args config_data s)) =
       [("Unfiltered", length (json_entries config_data names));
        ("Filtered rough criteria", length filtered)]
    /\ length filtered <= length names.
Proof.
  intros Hsingle. rewrite (create_jsons_directory _ _ _ Hsingle).
  rewrite res_bind, st_bind, out_bind, json_from_directory_run.
  unfold listed.
  destruct (general_download config_data).
  - destruct (download_backup_s3_folder config_data (disk s)) as [d'|e];
      [|discriminate].
    destruct (os_listdir (disk (set_disk d' s)) (cases_dir config_data))
      as [names|e] eqn:Hls; [|discriminate].
    cbn [res st out fst snd]. intros Hres.
    destruct (load_and_filter_ok _ _ _ _ Hres) as (Hst & Hff & Hpr & Hle).
    exists names. rewrite Hst. unfold from_file_calls, prints in *.
    rewrite !omap_app, Hff, Hpr. split_and!; try reflexivity; [exact Hls|].
    pose proof (json_entries_length config_data names). lia.
  - destruct (os_listdir (disk s) (cases_dir config_data))
      as [names|e] eqn:Hls; [|discriminate].
    cbn [res st out fst snd]. intros Hres.
    destruct (load_and_filter_ok _ _ _ _ Hres) as (Hst & Hff & Hpr & Hle).
    exists names. rewrite Hst. unfold from_file_calls, prints in *.
    rewrite !omap_app, Hff, Hpr. split_and!; try reflexivity; [exact Hls|].
    pose proof (json_entries_length config_data names). lia.
Qed.

Lemma faithful_json_from_directory config_data :
  faithful (json_from_directory config_data).
Proof. unfold json_from_directory. faithful_auto. Qed.

(** Without [--single], a sync or a listing that raises ends [create_jsons]
    there: no submission is loaded and no count is printed; when it is the
    sync that raised, the directory is not even listed and the state is left
    as it was. *)
Theorem create_jsons_scan_failure args config_data s ev :
  truthy_opt (single args) = false ->
  (ev, Raised) ∈ out (json_from_directory config_data s) ->
  is_raise (res (create_jsons args config_data s))
  /\ from_file_calls (out (create_jsons args config_data s)) = []
  /\ prints (out (create_jsons args config_data s)) = []
  /\ (ev = EvDownload ->
      st (create_jsons args config_data s) = s
      /\ out (create_jsons args config_data s) = [(EvDownload, Raised)]).
Proof.
  intros Hsingle Hin. rewrite (create_jsons_directory _ _ _ Hsingle).
  pose proof (faithful_json_from_directory config_data s ev Hin) as Hraise.
  pose proof (proj1 (phased_json_from_directory config_data) s) as Hscan.
  rewrite res_bind, st_bind, out_bind.
  destruct (res (json_from_directory config_data s)) as [fc|e];
    [destruct Hraise|].
  rewrite app_nil_r. split_and!.
  - exact I.
  - apply (omap_phase_none _ 2 3 _ Hscan). off_phase.
  - apply (omap_phase_none _ 2 3 _ Hscan). off_phase.
  - intros ->. revert Hin. rewrite json_from_directory_run. unfold listed.
    destruct (general_download config_data).
    + destruct (download_backup_s3_folder config_data (disk s)) as [d'|e'].
      * destruct (os_listdir (disk (set_disk d' s)) (cases_dir config_data));
          cbn [out app]; intros Hin;
          repeat (apply elem_of_cons in Hin as [Heq|Hin]; [discriminate|]);
          inversion Hin.
      * intros _. split; reflexivity.
    + destruct (os_listdir (disk s) (cases_dir config_data));
        cbn [out app]; intros Hin;
        repeat (apply elem_of_cons in Hin as [Heq|Hin]; [discriminate|]);
        inversion Hin.
Qed.

End DirectoryMode.

(** ** How a run ends *)

Section FailFast.
Context `{Collaborators}.

Implicit Types (s : state) (ev : event) (t : log).

(** Every recorded call returned, but possibly the last one, and then the
    run raises. *)
Definition well_ended {A} (r : run A) : Prop :=
  exists pre last,
    out r = pre ++ last
    /\ Forall (fun x => x.2 = Returned) pre
    /\ (last = [] \/ exists ev, last = [(ev, Raised)] /\ is_raise (res r)).

Definition fail_fast {A} (m : M A) : Prop := forall s, well_ended (m s).

Lemma fail_fast_silent {A} (m : M A) :
  (forall s, out (m s) = []) -> fail_fast m.
Proof.
  intros Hm s. exists [], []. rewrite Hm. split_and!; auto.
Qed.

Lemma fail_fast_call {A} ev (r : result A) : fail_fast (call ev r).
Proof.
  intros s. destruct r as [a|e].
  - exists [(ev, Returned)], [].
    split_and!; [reflexivity|repeat constructor|left; reflexivity].
  - exists [], [(ev, Raised)].
    split_and!; [reflexivity|constructor|right; exists ev].
    split; [reflexivity|exact I].
Qed.

Lemma fail_fast_bind {A B} (m : M A) (k : A -> M B) :
  fail_fast m -> (forall a, fail_fast (k a)) -> fail_fast (bind m k).
Proof.
  intros Hm Hk s. destruct (Hm s) as (pre & last & Hout & Hpre & Hlast).
  unfold well_ended. rewrite out_bind, res_bind.
  destruct (res (m s)) as [a|e] eqn:Hres.
  - destruct Hlast as [->|(ev & _ & [])].
    destruct (Hk a (st (m s))) as (pre' & last' & Hout' & Hpre' & Hlast').
    exists (pre ++ pre'), last'. rewrite Hout, Hout', app_nil_r, app_assoc.
    split_and!; [reflexivity|apply Forall_app; auto|exact Hlast'].
  - exists pre, last. rewrite app_nil_r. split_and!; [exact Hout|exact Hpre|].
    destruct Hlast as [->|(ev & -> & _)]; [left; reflexivity|].
    right. exists ev. split; [reflexivity|exact I].
Qed.

Lemma fail_fast_mapM {A B} (f : A -> M B) l :
  (forall x, fail_fast (f x)) -> fail_fast (mapM f l).
Proof.
  intros Hf. induction l as [|x xs IH]; cbn [mapM].
  - apply fail_fast_silent; reflexivity.
  - apply fail_fast_bind; [apply Hf|]. intros y.
    apply fail_fast_bind; [apply IH|]. intros ys.
    apply fail_fast_silent; reflexivity.
Qed.

Lemma fail_fast_filterM {A} (f : A -> M bool) l :
  (forall x, fail_fast (f x)) -> fail_fast (filterM f l).
Proof.
  intros Hf. induction l as [|x xs IH]; cbn [filterM].
  - apply fail_fast_silent; reflexivity.
  - apply fail_fast_bind; [apply Hf|]. intros y.
    apply fail_fast_bind; [apply IH|]. intros ys.
    apply fail_fast_silent; reflexivity.
Qed.

Lemma fail_fast_pickle_dump case_objs path :
  fail_fast (pickle_dump case_objs path).
Proof.
  intros s. rewrite pickle_dump_run.
  destruct (contents_of (heap s) case_objs);
    exists [(EvDump path case_objs, Returned)], [];
    (split_and!; [reflexivity|repeat constructor|left; reflexivity]).
Qed.

Lemma fail_fast_pickle_load path : fail_fast (pickle_load path).
Proof.
  intros s. unfold pickle_load.
  destruct (files s !! path) as [[|cs]|].
  - apply fail_fast_call.
  - apply fail_fast_bind; [apply fail_fast_call|]. intros _.
    apply fail_fast_silent. apply out_mapM_new_obj.
  - apply fail_fast_call.
Qed.

End FailFast.

Ltac fail_fast_auto :=
  repeat first
    [ apply fail_fast_call | apply fail_fast_pickle_dump
    | apply fail_fast_pickle_load
    | apply fail_fast_mapM; intros ?
    | apply fail_fast_filterM; intros ?
    | match goal with
      | |- fail_fast (if ?b then _ else _) => destruct b
      | |- fail_fast (match ?x with _ => _ end) => destruct x
      end
    | apply fail_fast_bind; [|intros ?]
    | apply fail_fast_silent; intros ?;
      first [reflexivity | apply out_deref | apply out_assign_all] ].

Section MainEnds.
Context `{Collaborators}.

Implicit Types (s : state) (ev : event) (t : log).

Lemma fail_fast_main cli : fail_fast (main cli).
Proof.
  unfold main, configure_logging, create_jsons, create_cases, phenomize,
    convert_to_old_format, json_from_directory, yield_jsons, yield_cases,
    yield_phenomized, yield_old_json, correct_reference_transcripts, print,
    check_passes, progress_bar.
  fail_fast_auto.
Qed.

(** The script catches no exception: in every run of [main], a call of a
    collaborator that raises is the last action of the run, every action
    before it returned, and [main] itself raises. *)
Theorem main_stops_at_first_failure cli s ev :
  (ev, Raised) ∈ out (main cli s) ->
  is_raise (res (main cli s))
  /\ exists pre,
       out (main cli s) = pre ++ [(ev, Raised)]
       /\ Forall (fun x => x.2 = Returned) pre.
Proof.
  intros Hin.
  destruct (fail_fast_main cli s) as (pre & last & Hout & Hpre & Hlast).
  rewrite Hout in Hin |- *. apply elem_of_app in Hin as [Hin|Hin].
  - rewrite Forall_forall in Hpre. apply Hpre in Hin. discriminate.
  - destruct Hlast as [->|(ev' & -> & Hraise)]; [inversion Hin|].
    apply list_elem_of_singleton in Hin. injection Hin as ->.
    split; [exact Hraise|]. exists pre. split; [reflexivity|exact Hpre].
Qed.

(** The actions of every run of [main] follow the order of the pipeline:
    logging, configuration, sync, listing, loading of the submissions,
    unfiltered count, checks, filtered count, error fixer, construction of
    the cases, correction, first checkpoint or loading of a checkpoint,
    phenomizer service, phenomization of the cases, second checkpoint, OMIM,
    export. *)
Theorem main_follows_the_pipeline cli s pre x mid y post :
  out (main cli s) = pre ++ x :: mid ++ y :: post ->
  phase x.1 <= phase y.1.
Proof.
  intros Hout. pose proof (proj2 (phased_main cli) s) as Hsorted.
  rewrite Hout in Hsorted.
  apply StronglySorted_app_1_r in Hsorted.
  apply StronglySorted_cons in Hsorted as [Hx _].
  rewrite Forall_forall in Hx. apply Hx.
  apply elem_of_app. right. apply list_elem_of_here.
Qed.

End MainEnds.

(** ** The building of the cases *)

Section Building.
Context `{Collaborators}.

Implicit Types (s : state) (ev : event) (t : log) (h : list Case).

(** Writing to cases that come after the first [n] objects leaves those
    objects as they are. *)
Lemma take_write_all n h rs cs :
  Forall (fun r => n <= r) rs -> take n (write_all h rs cs) = take n h.
Proof.
  revert h cs. induction rs as [|r rs IH]; intros h [|c cs] Hall;
    try reflexivity.
  cbn [write_all]. apply Forall_cons in Hall as [Hr Hrs].
  rewrite IH by exact Hrs. apply take_insert_ge, Hr.
Qed.

(** Writing to objects created in a row, one content each. *)
Lemma write_all_fresh cs : forall h cs' h',
  length cs' = length cs ->
  write_all (h ++ cs ++ h') (seq (length h) (length cs)) cs' = h ++ cs' ++ h'.
Proof.
  induction cs as [|c cs IH]; intros h [|c' cs'] h' Hlen; try discriminate;
    [reflexivity|].
  cbn [length seq write_all].
  replace (<[length h := c']> (h ++ (c :: cs) ++ h'))
    with ((h ++ [c']) ++ cs ++ h').
  2:{ replace (length h) with (length h + 0) at 1 by lia.
      rewrite insert_app_r. cbn. rewrite <- app_assoc. reflexivity. }
  assert (S (length h) = length (h ++ [c'])) as ->
    by (rewrite length_app; simpl; lia).
  rewrite IH by (simpl in Hlen; lia). rewrite <- app_assoc. reflexivity.
Qed.

Lemma frames_disk_build_cases config_data jsons :
  frames disk (build_cases config_data jsons).
Proof.
  unfold build_cases, yield_cases, correct_reference_transcripts, progress_bar.
  frames_auto.
Qed.

Lemma frames_checkpoint {X} (f : state -> X) enabled path collection :
  (forall fs s, f (set_files fs s) = f s) ->
  frames f (checkpoint enabled path collection).
Proof.
  intros Hf s. rewrite checkpoint_run. destruct enabled; [|reflexivity].
  destruct (contents_of (heap s) collection); apply Hf.
Qed.

(** When [create_cases] returns: the collection is made of new objects, one
    per submission, in the order of the submissions; every case was
    constructed with the one error fixer and with
    [preprocess.exclude_normal_variants]; the correction was given the
    contents of all of them; the objects that were there before are as they
    were; with [general.dump_intermediate] the file [case_cleaned.p] holds
    the contents that the cases have after the correction, and without it no
    checkpoint is written; and if the correction kept the number of cases,
    the new objects hold what it made of them. *)
Theorem create_cases_returns args config_data jsons s case_objs :
  res (create_cases args config_data jsons s) = Ok case_objs ->
  let s' := st (create_cases args config_data jsons s) in
  exists error_fixer cs cs' cleaned,
    errorfixer_ErrorFixer config_data = Ok error_fixer
    /\ Forall2 (fun j c =>
                  case_Case j error_fixer
                    (preprocess_exclude_normal_variants config_data) = Ok c)
         jsons cs
    /\ mutalyzer_correct_reference_transcripts cs = Ok cs'
    /\ case_objs = seq (length (heap s)) (length jsons)
    /\ length (heap s') = length (heap s) + length jsons
    /\ take (length (heap s)) (heap s') = heap s
    /\ contents_of (heap s') case_objs = Some cleaned
    /\ files s' =
       (if general_dump_intermediate config_data
        then <["case_cleaned.p" := Pickled cleaned]> (files s)
        else files s)
    /\ (length cs' = length cs -> cleaned = cs' /\ heap s' = heap s ++ cs').
Proof.
  rewrite create_cases_split, res_bind, st_bind.
  pose proof (frames_files_build_cases config_data jsons s) as Hfiles.
  destruct (res (build_cases config_data jsons s)) as [case_objs'|e] eqn:Hbuild;
    [|discriminate].
  destruct (build_cases_valid _ _ _ _ Hbuild) as [cleaned Hcl].
  rewrite checkpoint_run, Hcl. intros Hres. cbv zeta.
  assert (case_objs' = case_objs) as ->.
  { destruct (general_dump_intermediate config_data); cbn [res] in Hres;
      congruence. }
  clear Hres.
  assert (exists error_fixer cs cs',
            errorfixer_ErrorFixer config_data = Ok error_fixer
            /\ Forall2 (fun j c =>
                          case_Case j error_fixer
                            (preprocess_exclude_normal_variants config_data)
                          = Ok c) jsons cs
            /\ mutalyzer_correct_reference_transcripts cs = Ok cs'
            /\ case_objs = seq (length (heap s)) (length cs)
            /\ heap (st (build_cases config_data jsons s)) =
               write_all (heap s ++ cs) (seq (length (heap s)) (length cs)) cs')
    as (error_fixer & cs & cs' & Hef & Hall & Hmut & Hrefs & Hheap).
  { revert Hbuild. unfold build_cases.
    rewrite res_bind, st_bind. cbn [call res st].
    destruct (errorfixer_ErrorFixer config_data) as [error_fixer|e] eqn:Hef;
      [|discriminate].
    rewrite res_bind, st_bind.
    destruct (res (yield_cases jsons error_fixer _ s)) as [rs|e] eqn:Hyc;
      [|discriminate].
    destruct (yield_cases_ok _ _ _ _ _ Hyc) as (cs & Hall & -> & Hst & _).
    rewrite Hst, res_bind, st_bind, correct_reference_transcripts_run.
    cbn [set_heap heap].
    pose proof (contents_of_fresh (heap s) cs []) as Hfresh.
    rewrite app_nil_r in Hfresh. rewrite Hfresh.
    destruct (mutalyzer_correct_reference_transcripts cs) as [cs'|e] eqn:Hmut;
      [|discriminate].
    cbn [res st ret set_heap heap]. intros [= <-].
    exists error_fixer, cs, cs'. split_and!; auto. }
  pose proof (Forall2_length _ _ _ Hall) as Hlen.
  assert (heap (st (if general_dump_intermediate config_data
                    then Run (Ok case_objs)
                           (set_files
                              (<["case_cleaned.p" := Pickled cleaned]>
                                 (files (st (build_cases config_data jsons s))))
                              (st (build_cases config_data jsons s)))
                           [(EvDump "case_cleaned.p" case_objs, Returned)]
                    else Run (Ok case_objs)
                           (st (build_cases config_data jsons s)) [])) =
          heap (st (build_cases config_data jsons s))) as Hsame
    by (destruct (general_dump_intermediate config_data); reflexivity).
  exists error_fixer, cs, cs', cleaned. rewrite Hsame.
  split_and!.
  - exact Hef.
  - exact Hall.
  - exact Hmut.
  - rewrite Hlen. exact Hrefs.
  - rewrite Hheap, length_write_all, length_app. lia.
  - rewrite Hheap, take_write_all.
    + apply take_app_length.
    + apply Forall_seq. intros; lia.
  - exact Hcl.
  - rewrite <- Hfiles.
    destruct (general_dump_intermediate config_data); reflexivity.
  - intros Hlen'.
    pose proof (write_all_fresh cs (heap s) cs' [] Hlen') as Hw.
    rewrite !app_nil_r in Hw. rewrite Hw in Hheap. split; [|exact Hheap].
    rewrite Hheap, Hrefs in Hcl.
    pose proof (contents_of_fresh (heap s) cs' []) as Hf.
    rewrite app_nil_r, Hlen' in Hf. congruence.
Qed.

Lemma faithful_build_cases config_data jsons :
  faithful (build_cases config_data jsons).
Proof.
  unfold build_cases, yield_cases, correct_reference_transcripts, progress_bar.
  faithful_auto.
Qed.

(** A call that raises while [create_cases] runs -- the error fixer, a
    constructor of a case or the correction -- ends it: it raises, the
    checkpoint is not opened and no file is changed. *)
Theorem create_cases_failure args config_data jsons s ev :
  (ev, Raised) ∈ out (create_cases args config_data jsons s) ->
  is_raise (res (create_cases args config_data jsons s))
  /\ dumps (out (create_cases args config_data jsons s)) = []
  /\ files (st (create_cases args config_data jsons s)) = files s.
Proof.
  rewrite create_cases_split, res_bind, st_bind, out_bind.
  pose proof (faithful_build_cases config_data jsons s ev) as Hf.
  pose proof (emits_build_cases config_data jsons s) as He.
  pose proof (frames_files_build_cases config_data jsons s) as Hfiles.
  destruct (res (build_cases config_data jsons s)) as [case_objs|e].
  - intros Hin. exfalso. apply elem_of_app in Hin as [Hin|Hin].
    + exact (Hf Hin).
    + revert Hin. rewrite checkpoint_run.
      destruct (general_dump_intermediate config_data);
        [destruct (contents_of _ _)|]; cbn [out]; intros Hin;
        repeat (apply elem_of_cons in Hin as [Heq|Hin]; [discriminate|]);
        inversion Hin.
  - intros _. rewrite app_nil_r. split_and!; [exact I| |exact Hfiles].
    apply (omap_phase_none _ 8 10 _ He). off_phase.
Qed.

End Building.

(** ** The phenomization and the export of a collection *)

Section Collections.
Context `{Collaborators}.

Implicit Types (s : state) (ev : event) (t : log) (h : list Case).

Lemma frames_mapM_elem_of {A B X} (f : state -> X) (g : A -> M B) l :
  (forall x, x ∈ l -> frames f (g x)) -> frames f (mapM g l).
Proof.
  induction l as [|x xs IH]; intros Hg; cbn [mapM].
  - apply frames_ret.
  - apply frames_bind; [apply Hg, list_elem_of_here|]. intros y.
    apply frames_bind; [|intros ys; apply frames_ret].
    apply IH. intros x' Hx'. apply Hg, list_elem_of_further, Hx'.
Qed.

(** The loop of the phenomization leaves a case that is not in the
    collection as it is. *)
Lemma frames_lookup_yield_phenomized cases phen r :
  r ∉ cases -> frames (fun s => heap s !! r) (yield_phenomized cases phen).
Proof.
  intros Hr. unfold yield_phenomized, progress_bar.
  apply frames_mapM_elem_of. intros r' Hr'.
  apply frames_bind; [apply frames_deref|]. intros c.
  apply frames_bind; [apply frames_call|]. intros c'.
  intros s. cbn [assign st set_heap heap].
  apply list_lookup_insert_ne. intros ->. exact (Hr Hr').
Qed.

(** Of the objects in memory, [phenomize] mutates the cases of its
    collection only: in every run, whether it returns or raises, an object
    outside the collection is as it was, and no object is created or
    lost. *)
Theorem phenomize_touches_only_its_cases config_data cases s r :
  r ∉ cases ->
  let s' := st (phenomize config_data cases s) in
  heap s' !! r = heap s !! r
  /\ length (heap s') = length (heap s).
Proof.
  intros Hr s'. subst s'. rewrite phenomize_split.
  assert (forall X (f : state -> X),
            (forall fs s0, f (set_files fs s0) = f s0) ->
            (forall phen, frames f (yield_phenomized cases phen)) ->
            f (st ((cases' <- phenomize_cases config_data cases ;;
                    checkpoint (general_dump_intermediate config_data)
                      "case_phenomized.p" cases') s)) = f s) as Hframe.
  { intros X f Hfiles Hloop.
    apply (frames_bind f).
    - unfold phenomize_cases.
      apply frames_bind; [apply frames_call|intros phen].
      apply frames_bind; [apply Hloop|intros us; apply frames_ret].
    - intros cases'. apply frames_checkpoint, Hfiles. }
  split_and!.
  - apply (Hframe _ (fun s0 => heap s0 !! r)); [reflexivity|].
    intros phen. apply frames_lookup_yield_phenomized, Hr.
  - apply (Hframe _ (fun s0 => length (heap s0))); [reflexivity|].
    intros phen. apply frames_length_yield_phenomized.
Qed.


Lemma yield_phenomized_cons r rs phen s :
  yield_phenomized (r :: rs) phen s =
  (u <- (c <- deref r ;;
         c' <- call (EvPhenomize r c) (Case_phenomize c phen) ;;
         assign r c') ;;
   us <- yield_phenomized rs phen ;;
   ret (u :: us)) s.
Proof. reflexivity. Qed.




End Collections.

Section LegacyExport.
Context `{Collaborators}.

Implicit Types (s : state) (ev : event) (t : log) (h : list Case).

(** The records handed to [save_json]. *)
Definition saves t : list OldJson :=
  omap (fun x => match x.1 with EvSave old => Some old | _ => None end) t.

(** One iteration of the export loop. *)
Definition export_one (destination : string) (omim_obj : Omim) (case_obj : ref)
  : M unit :=
  c <- deref case_obj ;;
  old <- call (EvFromCase case_obj c destination)
              (OldJson_from_case_object c destination omim_obj) ;;
  call (EvSave old) (OldJson_save_json old).

Lemma yield_old_json_cons r rs destination omim_obj s :
  yield_old_json (r :: rs) destination omim_obj s =
  (u <- export_one destination omim_obj r ;;
   us <- yield_old_json rs destination omim_obj ;;
   ret (u :: us)) s.
Proof. reflexivity. Qed.

Lemma export_one_run destination omim_obj r s c :
  heap s !! r = Some c ->
  export_one destination omim_obj r s =
  match OldJson_from_case_object c destination omim_obj with
  | Ok old =>
      Run (OldJson_save_json old) s
          [(EvFromCase r c destination, Returned);
           (EvSave old, outcome_of (OldJson_save_json old))]
  | Raise e => Run (Raise e) s [(EvFromCase r c destination, Raised)]
  end.
Proof.
  intros Hr. unfold export_one.
  apply run_ext; rewrite ?res_bind, ?st_bind, ?out_bind, deref_run, Hr;
    cbn [res st out app]; rewrite ?res_bind, ?st_bind, ?out_bind;
    cbn [call res st out];
    destruct (OldJson_from_case_object c destination omim_obj); reflexivity.
Qed.

Lemma frames_state_export_one destination omim_obj r :
  frames (fun s => s) (export_one destination omim_obj r).
Proof. unfold export_one. frames_auto. Qed.

(** The export loop, when it returns: one record per case, built from the
    content of the case and saved, in the order of the collection. *)
Lemma yield_old_json_ok cases destination omim_obj s : forall us,
  res (yield_old_json cases destination omim_obj s) = Ok us ->
  exists cs olds,
    contents_of (heap s) cases = Some cs
    /\ Forall2 (fun c old =>
                  OldJson_from_case_object c destination omim_obj = Ok old
                  /\ OldJson_save_json old = Ok tt) cs olds
    /\ exported (out (yield_old_json cases destination omim_obj s)) =
       zip cases cs
    /\ saves (out (yield_old_json cases destination omim_obj s)) = olds.
Proof.
  induction cases as [|r rs IH]; intros us Hres.
  - exists [], []. split_and!; try reflexivity. constructor.
  - rewrite yield_old_json_cons in *.
    apply bind_ok_inv in Hres as (u & Hu & Hres).
    apply bind_ok_inv in Hres as (us' & Hrest & _).
    rewrite (frames_state_export_one destination omim_obj r s) in Hrest.
    rewrite out_bind, Hu, out_bind,
      (frames_state_export_one destination omim_obj r s), Hrest.
    cbn [ret out]. rewrite app_nil_r.
    destruct (IH us' Hrest) as (cs & olds & Hcs & Hall & Hexp & Hsaves).
    assert (exists c, heap s !! r = Some c) as [c Hc].
    { revert Hu. unfold export_one. rewrite res_bind, deref_run. cbn [res].
      destruct (heap s !! r) as [c|]; [eauto|discriminate]. }
    rewrite (export_one_run _ _ _ _ c Hc) in Hu |- *.
    destruct (OldJson_from_case_object c destination omim_obj) as [old|e]
      eqn:Hold; [|discriminate].
    cbn [res out] in Hu |- *. destruct u.
    exists (c :: cs), (old :: olds). cbn [contents_of]. rewrite Hc, Hcs.
    unfold exported, saves in *. rewrite !omap_app, Hexp, Hsaves.
    split_and!; try reflexivity. constructor; [|exact Hall]. auto.
Qed.

Lemma out_yield_old_json_cons r rs destination omim_obj s :
  out (yield_old_json (r :: rs) destination omim_obj s) =
  out (export_one destination omim_obj r s) ++
  match res (export_one destination omim_obj r s) with
  | Ok _ => out (yield_old_json rs destination omim_obj s)
  | Raise _ => []
  end.
Proof.
  rewrite yield_old_json_cons, out_bind.
  rewrite (frames_state_export_one destination omim_obj r s).
  destruct (res (export_one destination omim_obj r s)); [|reflexivity].
  rewrite out_bind.
  destruct (res (yield_old_json rs destination omim_obj s));
    cbn [ret out]; rewrite app_nil_r; reflexivity.
Qed.


Lemma convert_run args config_data cases s :
  convert_to_old_format args config_data cases s =
  match omim_Omim config_data with
  | Ok omim_obj =>
      let r := yield_old_json cases (destination_of args config_data)
                 omim_obj s in
      Run (match res r with Ok _ => Ok tt | Raise e => Raise e end) (st r)
          ((EvOmim, Returned) :: out r)
  | Raise e => Run (Raise e) s [(EvOmim, Raised)]
  end.
Proof.
  unfold convert_to_old_format, destination_of. unfold bind at 1. cbv zeta.
  cbn [call res st out].
  destruct (omim_Omim config_data) as [omim_obj|e]; cbn [outcome_of];
    [|reflexivity].
  unfold bind. cbv zeta.
  destruct (res (yield_old_json cases _ omim_obj s)); cbn [ret res st out app];
    rewrite ?app_nil_r; reflexivity.
Qed.

Lemma emits_yield_old_json cases destination omim_obj :
  emits (between 16 16) (yield_old_json cases destination omim_obj).
Proof.
  unfold yield_old_json, progress_bar. emits_auto; unfold between; simpl; lia.
Qed.

Lemma no_omim_in_loop cases destination omim_obj s o :
  (EvOmim, o) ∉ out (yield_old_json cases destination omim_obj s).
Proof.
  intros Hin.
  pose proof (emits_yield_old_json cases destination omim_obj s) as Hall.
  rewrite Forall_forall in Hall. specialize (Hall _ Hin).
  unfold between in Hall. cbn in Hall. lia.
Qed.





(** When [convert_to_old_format] returns: the OMIM collaborator was built
    from the configuration, once and before anything else; every case of the
    collection got one record, built from the content of the case for the
    destination and saved, in the order of the collection. *)
Theorem convert_to_old_format_returns args config_data cases s :
  res (convert_to_old_format args config_data cases s) = Ok tt ->
  exists omim_obj cs olds t,
    omim_Omim config_data = Ok omim_obj
    /\ out (convert_to_old_format args config_data cases s) =
       (EvOmim, Returned) :: t
    /\ (forall o, (EvOmim, o) ∉ t)
    /\ contents_of (heap s) cases = Some cs
    /\ Forall2 (fun c old =>
                  OldJson_from_case_object c (destination_of args config_data)
                    omim_obj = Ok old
                  /\ OldJson_save_json old = Ok tt) cs olds
    /\ exported (out (convert_to_old_format args config_data cases s)) =
       zip cases cs
    /\ saves (out (convert_to_old_format args config_data cases s)) = olds.
Proof.
  rewrite convert_run.
  destruct (omim_Omim config_data) as [omim_obj|e]; [|discriminate].
  cbv zeta. cbn [res out].
  destruct (res (yield_old_json cases _ omim_obj s)) as [us|e] eqn:Hloop;
    [|discriminate].
  intros _.
  destruct (yield_old_json_ok _ _ _ _ us Hloop)
    as (cs & olds & Hcs & Hall & Hexp & Hsaves).
  exists omim_obj, cs, olds,
    (out (yield_old_json cases (destination_of args config_data) omim_obj s)).
  split_and!; auto.
  intros o. apply no_omim_in_loop.
Qed.


End LegacyExport.

(** ** The destination of the legacy export *)

Section Destination.
Context `{Collaborators}.

Implicit Types (s : state) (ev : event) (t : log) (h : list Case).

(** The destinations that the records were built for, in the order of the
    calls of [OldJson.from_case_object]. *)
Definition destinations t : list string :=
  omap (fun x => match x.1 with EvFromCase _ _ d => Some d | _ => None end) t.

Lemma contents_of_length h rs : forall cs,
  contents_of h rs = Some cs -> length cs = length rs.
Proof.
  induction rs as [|r rs IH]; intros cs Hcs.
  - injection Hcs as <-. reflexivity.
  - cbn [contents_of] in Hcs.
    destruct (h !! r); [|discriminate].
    destruct (contents_of h rs) as [cs'|]; [|discriminate].
    injection Hcs as <-. cbn [length]. rewrite (IH cs' eq_refl). reflexivity.
Qed.

Lemma destinations_exported t destination :
  Forall (fun x => forall r c d, x.1 = EvFromCase r c d -> d = destination) t ->
  destinations t = replicate (length (exported t)) destination.
Proof.
  induction 1 as [|[ev o] t Hx _ IH]; [reflexivity|].
  unfold destinations, exported in *. cbn [omap list_omap fst].
  destruct ev; cbn [length replicate]; try exact IH.
  rewrite IH, (Hx _ _ _ eq_refl). reflexivity.
Qed.

(** C9: the legacy export builds its records for the destination
    [args.output or conversion.output_path]: the value of [--output] when it
    is given and not empty, the configured path when [--output] is absent or
    empty (its default). Every call of [OldJson.from_case_object] gets that
    destination, however the export ends; when the OMIM collaborator is
    built, the first case of the collection is handed over for it; and when
    the export returns, there was one such call per case of the
    collection. *)
Theorem export_destination cli config_data cases s :
  let args := parse_arguments cli in
  let t := out (convert_to_old_format args config_data cases s) in
  (forall r c d o, (EvFromCase r c d, o) ∈ t ->
     d = destination_of args config_data)
  /\ (res (convert_to_old_format args config_data cases s) = Ok tt ->
      destinations t =
      replicate (length cases) (destination_of args config_data))
  /\ (forall omim_obj r rest c,
        omim_Omim config_data = Ok omim_obj ->
        cases = r :: rest -> heap s !! r = Some c ->
        exists o, (EvFromCase r c (destination_of args config_data), o) ∈ t)
  /\ (forall path, opt_output cli = Some path -> truthy path = true ->
      destination_of args config_data = path)
  /\ (opt_output cli = None ->
      destination_of args config_data = conversion_output_path config_data)
  /\ (output args = "" ->
      destination_of args config_data = conversion_output_path config_data).
Proof.
  intros args t. subst t.
  pose proof (emits_convert_destination args config_data cases s) as Hall.
  split_and!.
  - intros r c d o Hin.
    rewrite Forall_forall in Hall. apply (Hall _ Hin r c d eq_refl).
  - intros Hres. rewrite (destinations_exported _ _ Hall). f_equal.
    revert Hres. rewrite convert_run.
    destruct (omim_Omim config_data) as [omim_obj|e]; [|discriminate].
    cbv zeta. cbn [res out].
    destruct (res (yield_old_json cases _ omim_obj s)) as [us|e] eqn:Hloop;
      [|discriminate].
    intros _.
    destruct (yield_old_json_ok _ _ _ _ us Hloop)
      as (cs & olds & Hcs & _ & Hexp & _).
    change (exported ((EvOmim, Returned)
                        :: out (yield_old_json cases
                                  (destination_of args config_data) omim_obj s)))
      with (exported (out (yield_old_json cases
                             (destination_of args config_data) omim_obj s))).
    rewrite Hexp, length_zip_with.
    pose proof (contents_of_length _ _ _ Hcs). lia.
  - intros omim_obj r rest c Homim -> Hc.
    rewrite convert_run, Homim. cbv zeta. cbn [out].
    rewrite out_yield_old_json_cons, (export_one_run _ _ _ _ c Hc).
    destruct (OldJson_from_case_object c (destination_of args config_data)
                omim_obj) as [old|e]; cbn [res out app].
    + exists Returned. apply list_elem_of_further, list_elem_of_here.
    + exists Raised. apply list_elem_of_further, list_elem_of_here.
  - intros path Ho Ht. unfold destination_of, py_or, args. simpl.
    rewrite Ho. simpl. rewrite Ht. reflexivity.
  - intros Ho. unfold destination_of, py_or, args. simpl. rewrite Ho.
    reflexivity.
  - intros Ho. unfold destination_of, py_or. rewrite Ho. reflexivity.
Qed.

End Destination.

(** Two cases in memory are exported: with [--output legacy] both records
    are built for [legacy], without it for the configured path. *)
Lemma export_destination_witness :
  destinations (H := demo_W)
    (out (convert_to_old_format (H := demo_W)
            (parse_arguments
               {| opt_single := None; opt_output := Some "legacy";
                  opt_pickle := None; opt_entry := None |})
            (demo_config false true) [0; 1] demo_s3)) = ["legacy"; "legacy"]
  /\ destinations (H := demo_W)
       (out (convert_to_old_format (H := demo_W)
               (parse_arguments (demo_cli None None))
               (demo_config false true) [0; 1] demo_s3)) = ["out"; "out"].
Proof.
  split.
  - destruct (export_destination (H := demo_W)
                {| opt_single := None; opt_output := Some "legacy";
                   opt_pickle := None; opt_entry := None |}
                (demo_config false true) [0; 1] demo_s3)
      as (_ & Hdest & _ & Hpath & _).
    rewrite Hdest by (vm_compute; reflexivity).
    rewrite (Hpath "legacy") by reflexivity. reflexivity.
  - destruct (export_destination (H := demo_W) (demo_cli None None)
                (demo_config false true) [0; 1] demo_s3)
      as (_ & Hdest & _ & _ & Hnone & _).
    rewrite Hdest by (vm_compute; reflexivity).
    rewrite Hnone by reflexivity. reflexivity.
Defined.

(** ** What the stages of a run leave untouched *)

Ltac frames_hyp :=
  repeat first
    [ apply frames_ret | apply frames_call | apply frames_deref
    | apply frames_get_disk
    | apply frames_new_obj; assumption
    | apply frames_assign; assumption
    | apply frames_assign_all; assumption
    | apply frames_pickle_load; assumption
    | apply frames_mapM; intros ?
    | apply frames_filterM; intros ?
    | match goal with
      | |- frames _ (if ?b then _ else _) => destruct b
      | |- frames _ (match ?x with _ => _ end) => destruct x
      end
    | apply frames_bind; [|intros ?] ].

Section MainFrames.
Context `{Collaborators}.

Implicit Types (s : state) (ev : event) (t : log) (h : list Case).

Lemma frames_checkpoint_lookup enabled path collection p :
  enabled = false \/ path <> p ->
  frames (fun s => files s !! p) (checkpoint enabled path collection).
Proof.
  intros Hcond s. rewrite checkpoint_run.
  destruct enabled; [|reflexivity].
  destruct Hcond as [Hoff|Hne]; [discriminate|].
  destruct (contents_of (heap s) collection); cbn [st set_files files];
    apply lookup_insert_ne, Hne.
Qed.

Lemma frames_phenomize_cases_gen {X} (f : state -> X) config_data cases :
  ignores_heap f -> frames f (phenomize_cases config_data cases).
Proof.
  intros Hheap. unfold phenomize_cases, yield_phenomized, progress_bar.
  frames_hyp.
Qed.

Lemma frames_convert_gen {X} (f : state -> X) args config_data cases :
  frames f (convert_to_old_format args config_data cases).
Proof.
  intros s. rewrite (frames_state_convert args config_data cases s).
  reflexivity.
Qed.

Lemma frames_main_rest_gen {X} (f : state -> X) args config_data cases :
  ignores_heap f ->
  (entry args = "pheno" ->
   forall c, frames f (checkpoint (general_dump_intermediate config_data)
                         "case_phenomized.p" c)) ->
  frames f (main_rest args config_data cases).
Proof.
  intros Hheap Hpheno. unfold main_rest.
  apply frames_bind; [|intros cases'; apply frames_convert_gen].
  destruct (String.eqb_spec (entry args) "pheno") as [Hentry|_];
    [|apply frames_ret].
  intros s. rewrite phenomize_split.
  apply (frames_bind f);
    [apply frames_phenomize_cases_gen, Hheap|exact (Hpheno Hentry)].
Qed.

End MainFrames.

(** ** The checkpoints that a run writes *)

Section Pickles.
Context `{Collaborators}.

Implicit Types (s : state) (ev : event) (t : log) (h : list Case).

Lemma dumps_app t t' : dumps (t ++ t') = dumps t ++ dumps t'.
Proof. apply omap_app. Qed.

Lemma dumps_off lo hi t :
  Forall (fun x => between lo hi x.1) t ->
  hi < 11 \/ 14 < lo \/ (11 < lo /\ hi < 14) ->
  dumps t = [].
Proof.
  intros Ht Hb. apply omap_none. eapply Forall_impl; [exact Ht|].
  intros [ev o]. unfold between. destruct ev; cbn; try reflexivity.
  destruct (String.eqb _ _); lia.
Qed.

Lemma dumps_pickle_load path s : dumps (out (pickle_load path s)) = [].
Proof.
  destruct (files s !! path) as [[|cs]|] eqn:Hfile.
  - unfold pickle_load. rewrite Hfile. reflexivity.
  - rewrite (pickle_load_run path s cs Hfile). reflexivity.
  - unfold pickle_load. rewrite Hfile. reflexivity.
Qed.

Lemma dumps_checkpoint enabled path collection s :
  dumps (out (checkpoint enabled path collection s)) =
  if enabled then [path] else [].
Proof.
  rewrite checkpoint_run. destruct enabled; [|reflexivity].
  destruct (contents_of (heap s) collection); reflexivity.
Qed.

(** A stage that ends with its checkpoint. *)
Lemma dumps_stage (m : M (list ref)) enabled path s :
  dumps (out (m s)) = [] ->
  let r := (collection <- m ;; checkpoint enabled path collection) s in
  dumps (out r) `prefix_of` (if enabled then [path] else [])
  /\ (forall a, res r = Ok a ->
      dumps (out r) = if enabled then [path] else []).
Proof.
  intros Hm. cbv zeta. rewrite res_bind, out_bind, dumps_app, Hm.
  destruct (res (m s)) as [a|e]; cbn [app].
  - rewrite dumps_checkpoint. split; [reflexivity|]. intros; reflexivity.
  - split; [apply prefix_nil|discriminate].
Qed.

Lemma dumps_main_cases args config_data s :
  let wanted := if negb (truthy_opt (pickle args))
                   && general_dump_intermediate config_data
                then ["case_cleaned.p"] else [] in
  dumps (out (main_cases args config_data s)) `prefix_of` wanted
  /\ (forall cases, res (main_cases args config_data s) = Ok cases ->
      dumps (out (main_cases args config_data s)) = wanted).
Proof.
  cbv zeta. destruct (truthy_opt (pickle args)) eqn:Hpickle; cbn [negb andb].
  - unfold main_cases, truthy_opt in *.
    destruct (pickle args) as [path|]; [|discriminate]. rewrite Hpickle.
    rewrite dumps_pickle_load. split; [reflexivity|]. intros; reflexivity.
  - rewrite (main_cases_fresh args config_data Hpickle).
    rewrite res_bind, out_bind, dumps_app.
    rewrite (dumps_off 2 7 (out (create_jsons args config_data s)));
      [|apply phased_create_jsons|lia].
    cbn [app].
    destruct (res (create_jsons args config_data s)) as [jsons|e];
      [|split; [apply prefix_nil|discriminate]].
    rewrite create_cases_split.
    apply (dumps_stage (build_cases config_data jsons)).
    apply (dumps_off 8 10); [apply emits_build_cases|lia].
Qed.

Lemma dumps_main_rest args config_data cases s :
  let wanted := if String.eqb (entry args) "pheno"
                   && general_dump_intermediate config_data
                then ["case_phenomized.p"] else [] in
  dumps (out (main_rest args config_data cases s)) `prefix_of` wanted
  /\ (res (main_rest args config_data cases s) = Ok tt ->
      dumps (out (main_rest args config_data cases s)) = wanted).
Proof.
  cbv zeta. unfold main_rest. rewrite res_bind, out_bind, dumps_app.
  assert (forall cases' s',
            dumps (out (convert_to_old_format args config_data cases' s')) = [])
    as Hconv.
  { intros cases' s'. apply (dumps_off 15 16); [|lia].
    apply phased_convert_to_old_format. }
  destruct (String.eqb (entry args) "pheno"); cbn [andb].
  - destruct (dumps_stage (phenomize_cases config_data cases)
                (general_dump_intermediate config_data) "case_phenomized.p" s)
      as [Hpre Heq].
    { apply (dumps_off 12 13); [apply emits_phenomize_cases|lia]. }
    cbv zeta in Hpre, Heq. rewrite <- phenomize_split in Hpre, Heq.
    destruct (res (phenomize config_data cases s)) as [cases'|e].
    + rewrite Hconv, app_nil_r. split; [exact Hpre|].
      intros _. apply (Heq cases' eq_refl).
    + rewrite app_nil_r. split; [exact Hpre|discriminate].
  - cbn [ret res st out app]. rewrite Hconv. split; [reflexivity|].
    intros; reflexivity.
Qed.

(** The checkpoints that a run of [main] pickles are [case_cleaned.p] and
    then [case_phenomized.p], each at most once and only with
    [general.dump_intermediate]: [case_cleaned.p] only in a run that builds
    its cases, [case_phenomized.p] only with the entry point ["pheno"].
    However the run ends, the checkpoints it has written are the first of
    those it is to write, in that order; when it returns, it has written all
    of them; and a run whose configuration does not load writes none. *)
Theorem main_writes_only_its_checkpoints cli s :
  (forall e, config_ConfigManager = Raise e -> dumps (out (main cli s)) = [])
  /\ (forall config_data,
        config_ConfigManager = Ok config_data ->
        let wanted :=
          (if negb (truthy_opt (opt_pickle cli))
              && general_dump_intermediate config_data
           then ["case_cleaned.p"] else [])
          ++ (if String.eqb (entry (parse_arguments cli)) "pheno"
                 && general_dump_intermediate config_data
              then ["case_phenomized.p"] else []) in
        dumps (out (main cli s)) `prefix_of` wanted
        /\ (res (main cli s) = Ok tt -> dumps (out (main cli s)) = wanted)).
Proof.
  split.
  - intros e Hcfg. rewrite main_run, Hcfg. reflexivity.
  - intros config_data Hcfg. cbv zeta. rewrite main_run, Hcfg. cbv zeta.
    set (args := parse_arguments cli).
    destruct (dumps_main_cases args config_data s) as [Hpre1 Heq1].
    cbv zeta in Hpre1, Heq1.
    change (truthy_opt (pickle args)) with (truthy_opt (opt_pickle cli))
      in Hpre1, Heq1.
    destruct (res (main_cases args config_data s)) as [cases|e]; cbn [res out].
    + destruct (dumps_main_rest args config_data cases
                  (st (main_cases args config_data s))) as [Hpre2 Heq2].
      cbv zeta in Hpre2, Heq2.
      rewrite !dumps_app. change (dumps startup_log) with (@nil string).
      cbn [app]. rewrite (Heq1 cases eq_refl). split.
      * apply prefix_app, Hpre2.
      * intros Hres. rewrite (Heq2 Hres). reflexivity.
    + rewrite !dumps_app. change (dumps startup_log) with (@nil string).
      cbn [app]. split; [|discriminate].
      apply prefix_app_r, Hpre1.
Qed.

End Pickles.

(** ** When the sync is called *)

Section Sync.
Context `{Collaborators}.

Implicit Types (s : state) (ev : event) (t : log) (h : list Case).

(** The calls of the sync, with how each one ended. *)
Definition syncs t : list outcome :=
  omap (fun x => match x.1 with EvDownload => Some x.2 | _ => None end) t.

Lemma syncs_app t t' : syncs (t ++ t') = syncs t ++ syncs t'.
Proof. apply omap_app. Qed.

Lemma syncs_off lo hi t :
  Forall (fun x => between lo hi x.1) t -> hi < 2 \/ 2 < lo -> syncs t = [].
Proof.
  intros Ht Hb. apply omap_none. eapply Forall_impl; [exact Ht|].
  intros [ev o]. unfold between. destruct ev; cbn; try reflexivity. lia.
Qed.

Lemma syncs_bind_off {A B} (m : M A) (k : A -> M B) s lo hi :
  (forall a, emits (between lo hi) (k a)) -> hi < 2 \/ 2 < lo ->
  syncs (out (bind m k s)) = syncs (out (m s)).
Proof.
  intros Hk Hb. rewrite out_bind, syncs_app.
  destruct (res (m s)) as [a|e]; [|apply app_nil_r].
  rewrite (syncs_off lo hi _ (Hk a _) Hb). apply app_nil_r.
Qed.

Lemma syncs_json_from_directory config_data s :
  syncs (out (json_from_directory config_data s)) =
  if general_download config_data
  then [outcome_of (download_backup_s3_folder config_data (disk s))]
  else [].
Proof.
  rewrite json_from_directory_run. unfold listed.
  destruct (general_download config_data).
  - destruct (download_backup_s3_folder config_data (disk s)) as [d'|e];
      [|reflexivity].
    destruct (os_listdir _ _); reflexivity.
  - destruct (os_listdir _ _); reflexivity.
Qed.

Lemma syncs_create_jsons args config_data s :
  syncs (out (create_jsons args config_data s)) =
  if negb (truthy_opt (single args)) && general_download config_data
  then [outcome_of (download_backup_s3_folder config_data (disk s))]
  else [].
Proof.
  destruct (truthy_opt (single args)) eqn:Hsingle; cbn [negb andb].
  - unfold truthy_opt in Hsingle.
    destruct (single args) as [path|] eqn:Hs; [|discriminate].
    apply (syncs_off 4 7); [|lia].
    apply (phased_create_jsons_single args config_data path Hs Hsingle).
  - rewrite (create_jsons_directory _ _ _ Hsingle).
    rewrite (syncs_bind_off _ _ s 4 7); [apply syncs_json_from_directory| |lia].
    intros a. apply (proj1 (phased_create_jsons_tail a.1 a.2)).
Qed.

Lemma syncs_main_cases args config_data s :
  syncs (out (main_cases args config_data s)) =
  if negb (truthy_opt (pickle args)) && negb (truthy_opt (single args))
     && general_download config_data
  then [outcome_of (download_backup_s3_folder config_data (disk s))]
  else [].
Proof.
  destruct (truthy_opt (pickle args)) eqn:Hpickle; cbn [negb andb].
  - unfold main_cases, truthy_opt in *.
    destruct (pickle args) as [path|]; [|discriminate]. rewrite Hpickle.
    apply (syncs_off 11 11); [|lia]. apply phased_pickle_load.
  - rewrite (main_cases_fresh args config_data Hpickle).
    rewrite (syncs_bind_off _ _ s 8 11); [apply syncs_create_jsons| |lia].
    intros jsons. apply phased_create_cases.
Qed.

Lemma create_jsons_starts_with_sync args config_data s :
  truthy_opt (single args) = false ->
  general_download config_data = true ->
  exists rest,
    out (create_jsons args config_data s) =
    (EvDownload, outcome_of (download_backup_s3_folder config_data (disk s)))
      :: rest.
Proof.
  intros Hsingle Hdl.
  rewrite (create_jsons_directory args _ _ Hsingle), out_bind.
  rewrite json_from_directory_run, Hdl. unfold listed.
  destruct (download_backup_s3_folder config_data (disk s)) as [d'|e];
    [destruct (os_listdir _ _)|]; cbn [res st out app outcome_of];
    eexists; reflexivity.
Qed.

(** The sync is called in the runs that scan the download directory and are
    configured to download, and in no other: a run of [main] that builds its
    cases, without [--single] and with [general.download] on, calls it once,
    as its first action after the configuration is loaded; a run resumed
    with [--pickle], a run on a single file, a run with [general.download]
    off and a run whose configuration does not load never call it. *)
Theorem main_syncs_once_when_it_scans cli s :
  (forall e, config_ConfigManager = Raise e -> syncs (out (main cli s)) = [])
  /\ (forall config_data,
        config_ConfigManager = Ok config_data ->
        if negb (truthy_opt (opt_pickle cli))
           && negb (truthy_opt (opt_single cli))
           && general_download config_data
        then syncs (out (main cli s)) =
             [outcome_of (download_backup_s3_folder config_data (disk s))]
             /\ exists rest,
                  out (main cli s) =
                  startup_log
                    ++ (EvDownload,
                        outcome_of (download_backup_s3_folder config_data
                                      (disk s))) :: rest
        else syncs (out (main cli s)) = []).
Proof.
  split.
  - intros e Hcfg. rewrite main_run, Hcfg. reflexivity.
  - intros config_data Hcfg.
    set (args := parse_arguments cli).
    assert (syncs (out (main cli s)) =
            syncs (out (main_cases args config_data s))) as Hsyncs.
    { rewrite main_run, Hcfg. cbv zeta. fold args.
      destruct (res (main_cases args config_data s)) as [cases|e];
        cbn [out]; rewrite !syncs_app; [|reflexivity].
      rewrite (syncs_off 12 16 (out (main_rest _ _ _ _)));
        [apply app_nil_r|apply phased_main_rest|lia]. }
    assert (exists rest,
              out (main cli s) =
              startup_log ++ out (main_cases args config_data s) ++ rest)
      as [rest Hout].
    { rewrite main_run, Hcfg. cbv zeta. fold args.
      destruct (res (main_cases args config_data s)) as [cases|e];
        cbn [out]; [eexists; reflexivity|].
      exists []. rewrite app_nil_r. reflexivity. }
    rewrite Hsyncs, syncs_main_cases. subst args.
    cbn [parse_arguments pickle single].
    destruct (truthy_opt (opt_pickle cli)) eqn:Hpickle; cbn [negb andb];
      [reflexivity|].
    destruct (truthy_opt (opt_single cli)) eqn:Hsingle; cbn [negb andb];
      [reflexivity|].
    destruct (general_download config_data) eqn:Hdl; [|reflexivity].
    split; [reflexivity|].
    rewrite Hout, (main_cases_fresh (parse_arguments cli) config_data Hpickle),
      out_bind.
    destruct (create_jsons_starts_with_sync (parse_arguments cli) config_data s
                Hsingle Hdl) as [rest' ->].
    cbn [app]. eexists. reflexivity.
Qed.

End Sync.

(** ** More runs in the small world *)

(** The small world without a network: the sync raises. *)
Definition demo_offline : Collaborators :=
  {| Disk := @Disk demo_W;
     NewJson := @NewJson demo_W;
     Case := @Case demo_W;
     ErrorFixer := @ErrorFixer demo_W;
     PhenomizerService := @PhenomizerService demo_W;
     Omim := @Omim demo_W;
     OldJson := @OldJson demo_W;
     config_ConfigManager := Ok (demo_config true true);
     download_backup_s3_folder := fun _ _ => Raise "sync: no network";
     os_listdir := @os_listdir demo_W;
     NewJson_from_file := @NewJson_from_file demo_W;
     NewJson_check := @NewJson_check demo_W;
     errorfixer_ErrorFixer := @errorfixer_ErrorFixer demo_W;
     case_Case := @case_Case demo_W;
     mutalyzer_correct_reference_transcripts := fun _ =>
       Raise "mutalyzer: service unavailable";
     phenomizer_PhenomizerService := @phenomizer_PhenomizerService demo_W;
     Case_phenomize := @Case_phenomize demo_W;
     omim_Omim := @omim_Omim demo_W;
     OldJson_from_case_object := @OldJson_from_case_object demo_W;
     OldJson_save_json := @OldJson_save_json demo_W |}.

Definition demo_offline_s0 : @state demo_offline :=
  @Build_state demo_offline [] demo_listing ∅.

Lemma json_from_directory_returns_witness :
  Forall (fun p => splitext_ext p = ".json")
    ["data/cases/a.json"; "data/cases/bad.json"; "data/cases/d.json"].
Proof.
  apply (json_from_directory_returns (H := demo_W) (demo_config false true)
           demo_s0 ["data/cases/a.json"; "data/cases/bad.json";
                    "data/cases/d.json"] "corrected").
  vm_compute. reflexivity.
Defined.

Lemma create_jsons_loads_the_listing_witness :
  exists names,
    from_file_calls (H := demo_W)
      (out (create_jsons (H := demo_W) (parse_arguments (demo_cli None None))
              (demo_config false true) demo_s0)) =
    map (fun p => (p, "corrected"))
        (json_entries (demo_config false true) names)
    /\ 2 <= length names.
Proof.
  destruct (create_jsons_loads_the_listing (H := demo_W)
              (parse_arguments (demo_cli None None)) (demo_config false true)
              demo_s0 ["data/cases/a.json"; "data/cases/d.json"])
    as (names & _ & Hcalls & _ & Hle).
  - reflexivity.
  - vm_compute. reflexivity.
  - exists names. split; [exact Hcalls|exact Hle].
Defined.

Lemma create_jsons_scan_failure_witness :
  out (create_jsons (H := demo_offline) (parse_arguments (demo_cli None None))
         (demo_config true true) demo_offline_s0) = [(EvDownload, Raised)].
Proof.
  destruct (create_jsons_scan_failure (H := demo_offline)
              (parse_arguments (demo_cli None None)) (demo_config true true)
              demo_offline_s0 EvDownload) as (_ & _ & _ & Hsync).
  - reflexivity.
  - vm_compute. apply list_elem_of_here.
  - apply Hsync. reflexivity.
Defined.

Lemma main_stops_at_first_failure_witness :
  is_raise
    (res (main (H := demo_W) (demo_cli None (Some "case_cleaned.p")) demo_s1)).
Proof.
  apply (main_stops_at_first_failure (H := demo_W)
           (demo_cli None (Some "case_cleaned.p")) demo_s1
           (EvPhenomize (H := demo_W) 1
              (demo_fix (demo_new_case "data/cases/unknown.json")))).
  vm_compute. do 5 apply list_elem_of_further. apply list_elem_of_here.
Defined.

(** The small world with the sync switched on. *)
Definition demo_sync : Collaborators := demo_world (Ok (demo_config true true)).

Definition demo_sync_s0 : @state demo_sync :=
  demo_state (Ok (demo_config true true)) demo_listing [].

Lemma main_follows_the_pipeline_witness :
  phase (H := demo_sync) (EvDownload (H := demo_sync)) <=
  phase (H := demo_sync) (EvListdir (H := demo_sync) "data/cases").
Proof.
  apply (main_follows_the_pipeline (H := demo_sync)
           (demo_cli None None) demo_sync_s0
           [(EvLogging "lib" "preprocess.log", Returned); (EvConfig, Returned)]
           (EvDownload, Returned) [] (EvListdir "data/cases", Returned)
           (drop 4 (out (main (H := demo_sync) (demo_cli None None)
                           demo_sync_s0)))).
  vm_compute. reflexivity.
Defined.

Lemma create_cases_returns_witness :
  exists cleaned,
    contents_of (H := demo_W)
      (heap (st (create_cases (H := demo_W)
                   (parse_arguments (demo_cli None None))
                   (demo_config false true)
                   ["data/cases/a.json"; "data/cases/d.json"] demo_s0)))
      [0; 1] = Some cleaned
    /\ files (st (create_cases (H := demo_W)
                    (parse_arguments (demo_cli None None))
                    (demo_config false true)
                    ["data/cases/a.json"; "data/cases/d.json"] demo_s0)) =
       <["case_cleaned.p" := Pickled (H := demo_W) cleaned]> (files demo_s0).
Proof.
  destruct (create_cases_returns (H := demo_W)
              (parse_arguments (demo_cli None None)) (demo_config false true)
              ["data/cases/a.json"; "data/cases/d.json"] demo_s0 [0; 1])
    as (error_fixer & cs & cs' & cleaned & _ & _ & _ & _ & _ & _ & Hcl
        & Hfiles & _).
  - vm_compute. reflexivity.
  - exists cleaned. split; [exact Hcl|exact Hfiles].
Defined.

Lemma create_cases_failure_witness :
  dumps (H := demo_offline)
    (out (create_cases (H := demo_offline)
            (parse_arguments (demo_cli None None)) (demo_config true true)
            ["data/cases/a.json"] demo_offline_s0)) = [].
Proof.
  apply (create_cases_failure (H := demo_offline)
           (parse_arguments (demo_cli None None)) (demo_config true true)
           ["data/cases/a.json"] demo_offline_s0
           (EvCorrect (H := demo_offline) [0])).
  vm_compute. do 2 apply list_elem_of_further. apply list_elem_of_here.
Defined.

Lemma phenomize_touches_only_its_cases_witness :
  heap (st (phenomize (H := demo_W) (demo_config false true) [0] demo_s3)) !! 1
  = Some (demo_new_case "data/cases/d.json").
Proof.
  destruct (phenomize_touches_only_its_cases (H := demo_W)
              (demo_config false true) [0] demo_s3 1) as (Hlook & _).
  - intros Hin. apply list_elem_of_singleton in Hin. discriminate.
  - etransitivity; [exact Hlook|reflexivity].
Defined.


Lemma convert_to_old_format_returns_witness :
  exists olds t,
    out (convert_to_old_format (H := demo_W)
           (parse_arguments (demo_cli None None)) (demo_config false true)
           [0; 1] demo_s3) = (EvOmim (H := demo_W), Returned) :: t
    /\ saves (H := demo_W)
         (out (convert_to_old_format (H := demo_W)
                 (parse_arguments (demo_cli None None))
                 (demo_config false true) [0; 1] demo_s3)) = olds
    /\ length olds = 2.
Proof.
  destruct (convert_to_old_format_returns (H := demo_W)
              (parse_arguments (demo_cli None None)) (demo_config false true)
              [0; 1] demo_s3)
    as (omim_obj & cs & olds & t & _ & Hout & _ & Hcs & Hall & _ & Hsaves).
  - vm_compute. reflexivity.
  - exists olds, t. split_and!; [exact Hout|exact Hsaves|].
    apply Forall2_length in Hall. injection Hcs as <-. rewrite <- Hall.
    reflexivity.
Defined.


Lemma main_writes_only_its_checkpoints_witness :
  dumps (H := demo_W)
    (out (main (H := demo_W) (demo_cli None (Some "case_cleaned.p")) demo_s2))
  = ["case_phenomized.p"].
Proof.
  destruct (main_writes_only_its_checkpoints (H := demo_W)
              (demo_cli None (Some "case_cleaned.p")) demo_s2) as [_ Hok].
  destruct (Hok (demo_config false true) eq_refl) as [_ Heq].
  apply Heq. vm_compute. reflexivity.
Defined.

Lemma main_syncs_once_when_it_scans_witness :
  syncs (H := demo_sync)
    (out (main (H := demo_sync) (demo_cli None None) demo_sync_s0)) =
  [Returned]
  /\ syncs (H := demo_sync)
       (out (main (H := demo_sync) (demo_cli (Some "one.json") None)
               demo_sync_s0)) = [].
Proof.
  split.
  - destruct (main_syncs_once_when_it_scans (H := demo_sync)
                (demo_cli None None) demo_sync_s0) as [_ Hok].
    destruct (Hok (demo_config true true) eq_refl) as [Hsyncs _].
    exact Hsyncs.
  - destruct (main_syncs_once_when_it_scans (H := demo_sync)
                (demo_cli (Some "one.json") None) demo_sync_s0) as [_ Hok].
    exact (Hok (demo_config true true) eq_refl).
Defined.

(** ** Running again from a checkpoint *)

Section Reproduce.
Context `{Collaborators}.

Implicit Types (s : state) (ev : event) (t : log) (h : list Case).

(** The contents handed to the legacy export, in order. *)
Definition exported_contents t : list Case := (exported t).*2.

Lemma set_heap_heap s : set_heap (heap s) s = s.
Proof. destruct s; reflexivity. Qed.

Lemma lookup_fresh h c cs : (h ++ c :: cs) !! length h = Some c.
Proof. rewrite lookup_app_r by lia. rewrite Nat.sub_diag. reflexivity. Qed.

Lemma insert_fresh h c c' cs :
  <[length h := c']> (h ++ c :: cs) = (h ++ [c']) ++ cs.
Proof.
  replace (length h) with (length h + 0) at 1 by lia.
  rewrite insert_app_r. cbn. rewrite <- app_assoc. reflexivity.
Qed.

Lemma length_snoc h c : S (length h) = length (h ++ [c]).
Proof. rewrite length_app. simpl. lia. Qed.

Lemma phenomize_one_run r phen s c :
  heap s !! r = Some c ->
  (c0 <- deref r ;;
   c' <- call (EvPhenomize r c0) (Case_phenomize c0 phen) ;;
   assign r c') s =
  match Case_phenomize c phen with
  | Ok c' =>
      Run (Ok tt) (set_heap (<[r := c']> (heap s)) s)
          [(EvPhenomize r c, Returned)]
  | Raise e => Run (Raise e) s [(EvPhenomize r c, Raised)]
  end.
Proof.
  intros Hr. unfold bind, deref. rewrite Hr. cbn.
  destruct (Case_phenomize c phen); reflexivity.
Qed.

Lemma yield_phenomized_cons_run r rs phen s c :
  heap s !! r = Some c ->
  yield_phenomized (r :: rs) phen s =
  match Case_phenomize c phen with
  | Ok c' =>
      let r' := yield_phenomized rs phen (set_heap (<[r := c']> (heap s)) s) in
      Run (match res r' with Ok us => Ok (tt :: us) | Raise e => Raise e end)
          (st r') ((EvPhenomize r c, Returned) :: out r')
  | Raise e => Run (Raise e) s [(EvPhenomize r c, Raised)]
  end.
Proof.
  intros Hr. rewrite yield_phenomized_cons. unfold bind at 1. cbv zeta.
  rewrite (phenomize_one_run r phen s c Hr).
  destruct (Case_phenomize c phen) as [c'|e]; cbn [res st out]; [|reflexivity].
  unfold bind. cbv zeta.
  destruct (res (yield_phenomized rs phen _)); cbn [ret res st out];
    rewrite ?app_nil_r; reflexivity.
Qed.

(** The phenomization loop does the same to cases with the same contents,
    wherever they are in the store. *)
Lemma yield_phenomized_relocate cs : forall h1 h2 phen s1 s2,
  heap s1 = h1 ++ cs -> heap s2 = h2 ++ cs ->
  res (yield_phenomized (seq (length h1) (length cs)) phen s1) =
  res (yield_phenomized (seq (length h2) (length cs)) phen s2)
  /\ exists cs',
       length cs' = length cs
       /\ st (yield_phenomized (seq (length h1) (length cs)) phen s1) =
          set_heap (h1 ++ cs') s1
       /\ st (yield_phenomized (seq (length h2) (length cs)) phen s2) =
          set_heap (h2 ++ cs') s2.
Proof.
  induction cs as [|c cs IH]; intros h1 h2 phen s1 s2 H1 H2.
  - split; [reflexivity|]. exists []. split; [reflexivity|].
    rewrite <- H1, <- H2, !set_heap_heap. split; reflexivity.
  - cbn [length seq].
    assert (heap s1 !! length h1 = Some c) as L1
      by (rewrite H1; apply lookup_fresh).
    assert (heap s2 !! length h2 = Some c) as L2
      by (rewrite H2; apply lookup_fresh).
    rewrite (yield_phenomized_cons_run _ _ phen s1 c L1),
      (yield_phenomized_cons_run _ _ phen s2 c L2).
    destruct (Case_phenomize c phen) as [c'|e]; cbn [res st].
    + rewrite (length_snoc h1 c'), (length_snoc h2 c').
      destruct (IH (h1 ++ [c']) (h2 ++ [c']) phen
                  (set_heap (<[length h1 := c']> (heap s1)) s1)
                  (set_heap (<[length h2 := c']> (heap s2)) s2))
        as (Hres & cs' & Hlen & Hst1 & Hst2).
      { cbn [set_heap heap]. rewrite H1. apply insert_fresh. }
      { cbn [set_heap heap]. rewrite H2. apply insert_fresh. }
      rewrite Hres, Hst1, Hst2. split; [reflexivity|].
      exists (c' :: cs'). split; [cbn [length]; lia|].
      rewrite <- !app_assoc. split; reflexivity.
    + split; [reflexivity|]. exists (c :: cs). split; [reflexivity|].
      rewrite <- H1, <- H2, !set_heap_heap. split; reflexivity.
Qed.

Lemma yield_old_json_cons_run r rs destination omim_obj s c :
  heap s !! r = Some c ->
  yield_old_json (r :: rs) destination omim_obj s =
  match OldJson_from_case_object c destination omim_obj with
  | Ok old =>
      match OldJson_save_json old with
      | Ok _ =>
          let r' := yield_old_json rs destination omim_obj s in
          Run (match res r' with Ok us => Ok (tt :: us) | Raise e => Raise e end)
              (st r')
              ((EvFromCase r c destination, Returned)
                 :: (EvSave old, Returned) :: out r')
      | Raise e =>
          Run (Raise e) s
              [(EvFromCase r c destination, Returned); (EvSave old, Raised)]
      end
  | Raise e => Run (Raise e) s [(EvFromCase r c destination, Raised)]
  end.
Proof.
  intros Hr. rewrite yield_old_json_cons. unfold bind at 1. cbv zeta.
  rewrite (export_one_run destination omim_obj r s c Hr).
  destruct (OldJson_from_case_object c destination omim_obj) as [old|e];
    cbn [res st out]; [|reflexivity].
  destruct (OldJson_save_json old) as [[]|e]; cbn [res st out outcome_of];
    [|reflexivity].
  unfold bind. cbv zeta.
  destruct (res (yield_old_json rs destination omim_obj s));
    cbn [ret res st out app]; rewrite ?app_nil_r; reflexivity.
Qed.

(** The export loop makes the same records of cases with the same contents,
    wherever they are in the store. *)
Lemma yield_old_json_relocate cs : forall h1 h2 destination omim_obj s1 s2,
  heap s1 = h1 ++ cs -> heap s2 = h2 ++ cs ->
  res (yield_old_json (seq (length h1) (length cs)) destination omim_obj s1) =
  res (yield_old_json (seq (length h2) (length cs)) destination omim_obj s2)
  /\ exported_contents
       (out (yield_old_json (seq (length h1) (length cs)) destination
               omim_obj s1)) =
     exported_contents
       (out (yield_old_json (seq (length h2) (length cs)) destination
               omim_obj s2))
  /\ saves
       (out (yield_old_json (seq (length h1) (length cs)) destination
               omim_obj s1)) =
     saves
       (out (yield_old_json (seq (length h2) (length cs)) destination
               omim_obj s2)).
Proof.
  induction cs as [|c cs IH]; intros h1 h2 destination omim_obj s1 s2 H1 H2.
  - split_and!; reflexivity.
  - cbn [length seq].
    assert (heap s1 !! length h1 = Some c) as L1
      by (rewrite H1; apply lookup_fresh).
    assert (heap s2 !! length h2 = Some c) as L2
      by (rewrite H2; apply lookup_fresh).
    rewrite (yield_old_json_cons_run _ _ destination omim_obj s1 c L1),
      (yield_old_json_cons_run _ _ destination omim_obj s2 c L2).
    destruct (OldJson_from_case_object c destination omim_obj) as [old|e];
      [|split_and!; reflexivity].
    destruct (OldJson_save_json old) as [[]|e]; [|split_and!; reflexivity].
    cbv zeta. cbn [res out].
    rewrite (length_snoc h1 c), (length_snoc h2 c).
    destruct (IH (h1 ++ [c]) (h2 ++ [c]) destination omim_obj s1 s2)
      as (Hres & Hexp & Hsaves).
    { rewrite H1, <- app_assoc. reflexivity. }
    { rewrite H2, <- app_assoc. reflexivity. }
    rewrite Hres. split_and!; [reflexivity| |].
    + unfold exported_contents, exported in *.
      cbn [omap list_omap fst fmap list_fmap snd]. f_equal. exact Hexp.
    + unfold saves in *. cbn [omap list_omap fst]. f_equal. exact Hsaves.
Qed.

(** So does the whole export. *)
Lemma convert_relocate args args' config_data cs h1 h2 s1 s2 :
  output args' = output args ->
  heap s1 = h1 ++ cs -> heap s2 = h2 ++ cs ->
  let r1 := convert_to_old_format args config_data
              (seq (length h1) (length cs)) s1 in
  let r2 := convert_to_old_format args' config_data
              (seq (length h2) (length cs)) s2 in
  res r1 = res r2
  /\ exported_contents (out r1) = exported_contents (out r2)
  /\ saves (out r1) = saves (out r2).
Proof.
  intros Hout H1 H2. cbv zeta. rewrite !convert_run.
  unfold destination_of. rewrite Hout.
  set (destination := py_or (output args) (conversion_output_path config_data)).
  destruct (omim_Omim config_data) as [omim_obj|e];
    [|split_and!; reflexivity].
  destruct (yield_old_json_relocate cs h1 h2 destination omim_obj s1 s2 H1 H2)
    as (Hres & Hexp & Hsaves).
  cbv zeta. cbn [res out]. rewrite Hres.
  split_and!; [reflexivity|exact Hexp|exact Hsaves].
Qed.

Lemma exported_contents_app t t' :
  exported_contents (t ++ t') = exported_contents t ++ exported_contents t'.
Proof.
  unfold exported_contents, exported. rewrite omap_app, fmap_app. reflexivity.
Qed.

Lemma saves_app t t' : saves (t ++ t') = saves t ++ saves t'.
Proof. unfold saves. apply omap_app. Qed.

(** No record is made before the export. *)
Lemma no_export_before t :
  Forall (fun x => between 0 14 x.1) t ->
  exported_contents t = [] /\ saves t = [].
Proof.
  intros Ht. unfold exported_contents, exported, saves.
  rewrite !(omap_phase_none _ 0 14 t Ht) by off_phase. split; reflexivity.
Qed.

(** [phenomize] does the same to cases with the same contents, wherever they
    are in the store. *)
Lemma phenomize_relocate config_data cs h1 h2 s1 s2 :
  heap s1 = h1 ++ cs -> heap s2 = h2 ++ cs ->
  let r1 := phenomize config_data (seq (length h1) (length cs)) s1 in
  let r2 := phenomize config_data (seq (length h2) (length cs)) s2 in
  (exists e, res r1 = Raise e /\ res r2 = Raise e)
  \/ (exists cs',
        length cs' = length cs
        /\ res r1 = Ok (seq (length h1) (length cs))
        /\ res r2 = Ok (seq (length h2) (length cs))
        /\ heap (st r1) = h1 ++ cs'
        /\ heap (st r2) = h2 ++ cs').
Proof.
  intros H1 H2. cbv zeta. rewrite !phenomize_run.
  destruct (phenomizer_PhenomizerService config_data) as [phen|e];
    [|left; eauto].
  cbv zeta.
  destruct (yield_phenomized_relocate cs h1 h2 phen s1 s2 H1 H2)
    as (Hres & cs' & Hlen & Hst1 & Hst2).
  rewrite Hres.
  destruct (res (yield_phenomized (seq (length h2) (length cs)) phen s2))
    as [us|e]; [|left; eauto].
  right. exists cs'.
  change (phenomize_dump config_data)
    with (checkpoint (general_dump_intermediate config_data)
            "case_phenomized.p").
  rewrite !checkpoint_run, Hst1, Hst2. cbn [set_heap heap].
  pose proof (contents_of_fresh h1 cs' []) as F1.
  pose proof (contents_of_fresh h2 cs' []) as F2.
  rewrite app_nil_r, Hlen in F1, F2. rewrite F1, F2.
  destruct (general_dump_intermediate config_data);
    cbn [res st set_files set_heap heap];
    (split_and!; [exact Hlen|reflexivity..]).
Qed.

(** So does the rest of [main], and it makes the same records of them. *)
Lemma main_rest_relocate args args' config_data cs h1 h2 s1 s2 :
  entry args' = entry args -> output args' = output args ->
  heap s1 = h1 ++ cs -> heap s2 = h2 ++ cs ->
  let r1 := main_rest args config_data (seq (length h1) (length cs)) s1 in
  let r2 := main_rest args' config_data (seq (length h2) (length cs)) s2 in
  res r1 = res r2
  /\ exported_contents (out r1) = exported_contents (out r2)
  /\ saves (out r1) = saves (out r2).
Proof.
  intros Hentry Hout H1 H2. cbv zeta. rewrite !main_rest_run, Hentry.
  destruct (String.eqb (entry args) "pheno");
    [|apply (convert_relocate args args' config_data cs h1 h2 s1 s2 Hout H1 H2)].
  cbv zeta.
  pose proof (proj1 (phased_phenomize config_data
                       (seq (length h1) (length cs))) s1) as P1.
  pose proof (proj1 (phased_phenomize config_data
                       (seq (length h2) (length cs))) s2) as P2.
  assert (forall t, Forall (fun x => between 12 14 x.1) t ->
                    exported_contents t = [] /\ saves t = []) as Hnone.
  { intros t Ht. apply no_export_before. eapply Forall_impl; [exact Ht|].
    intros x. apply between_mono; lia. }
  destruct (Hnone _ P1) as [E1 S1]. destruct (Hnone _ P2) as [E2 S2].
  destruct (phenomize_relocate config_data cs h1 h2 s1 s2 H1 H2)
    as [(e & R1 & R2)|(cs' & Hlen & R1 & R2 & Hh1 & Hh2)];
    rewrite R1, R2; cbn [res out].
  - rewrite E1, E2, S1, S2. split_and!; reflexivity.
  - rewrite !exported_contents_app, !saves_app, E1, E2, S1, S2.
    cbn [app].
    pose proof (convert_relocate args args' config_data cs' h1 h2 _ _
                  Hout Hh1 Hh2) as Hc.
    rewrite Hlen in Hc. exact Hc.
Qed.

Lemma frames_heap_create_jsons args config_data :
  frames heap (create_jsons args config_data).
Proof.
  unfold create_jsons, json_from_directory, yield_jsons, print, check_passes,
    progress_bar.
  frames_auto.
Qed.

(** The cases that [create_cases] builds are new objects of the store, one
    after the other. *)
Lemma build_cases_layout config_data jsons s case_objs :
  res (build_cases config_data jsons s) = Ok case_objs ->
  exists cleaned,
    case_objs = seq (length (heap s)) (length cleaned)
    /\ heap (st (build_cases config_data jsons s)) = heap s ++ cleaned.
Proof.
  unfold build_cases. rewrite res_bind, st_bind. cbn [call res st].
  destruct (errorfixer_ErrorFixer config_data) as [error_fixer|e];
    [|discriminate].
  rewrite res_bind, st_bind.
  destruct (res (yield_cases jsons error_fixer _ s)) as [rs|e] eqn:Hyc;
    [|discriminate].
  destruct (yield_cases_ok _ _ _ _ _ Hyc) as (cs & _ & -> & Hst & _).
  rewrite Hst, res_bind, st_bind, correct_reference_transcripts_run.
  cbn [set_heap heap].
  pose proof (contents_of_fresh (heap s) cs []) as Hfresh.
  rewrite app_nil_r in Hfresh. rewrite Hfresh.
  destruct (mutalyzer_correct_reference_transcripts cs) as [cs'|e];
    [|discriminate].
  cbn [res st ret set_heap heap]. intros [= <-].
  set (h' := write_all (heap s ++ cs) (seq (length (heap s)) (length cs)) cs').
  exists (drop (length (heap s)) h'). split.
  - rewrite length_drop. unfold h'. rewrite length_write_all, length_app.
    f_equal. lia.
  - rewrite <- (take_drop (length (heap s)) h') at 1. f_equal.
    unfold h'. rewrite take_write_all.
    + apply take_app_length.
    + apply Forall_seq. intros; lia.
Qed.

(** A checkpoint of a collection whose cases are in the store is written. *)
Lemma checkpoint_returns enabled path collection s :
  is_Some (contents_of (heap s) collection) ->
  res (checkpoint enabled path collection s) = Ok collection.
Proof.
  intros [cs Hcs]. rewrite checkpoint_run, Hcs. destruct enabled; reflexivity.
Qed.

(** The collection that the first block of [main] returns: new objects of
    the store, one after the other. *)
Lemma main_cases_layout args config_data s cases :
  res (main_cases args config_data s) = Ok cases ->
  exists cs,
    cases = seq (length (heap s)) (length cs)
    /\ heap (st (main_cases args config_data s)) = heap s ++ cs.
Proof.
  assert (res ((jsons <- create_jsons args config_data ;;
                create_cases args config_data jsons) s) = Ok cases ->
          exists cs,
            cases = seq (length (heap s)) (length cs)
            /\ heap (st ((jsons <- create_jsons args config_data ;;
                          create_cases args config_data jsons) s)) =
               heap s ++ cs) as Hfresh.
  { rewrite res_bind, st_bind.
    pose proof (frames_heap_create_jsons args config_data s) as Hcj.
    destruct (res (create_jsons args config_data s)) as [jsons|e];
      [|discriminate].
    rewrite create_cases_split, res_bind, st_bind.
    destruct (res (build_cases config_data jsons _)) as [rs|e] eqn:Hbuild;
      [|discriminate].
    destruct (build_cases_layout _ _ _ _ Hbuild) as (cs & Hrs & Hheap).
    pose proof (build_cases_valid _ _ _ _ Hbuild) as Hvalid.
    rewrite (checkpoint_returns _ _ _ _ Hvalid). intros [= <-].
    rewrite (frames_checkpoint heap) by reflexivity.
    exists cs. rewrite Hrs, Hheap, Hcj. split; reflexivity. }
  unfold main_cases.
  destruct (pickle args) as [path|]; [destruct (truthy path)|];
    try exact Hfresh.
  destruct (files s !! path) as [[|cs]|] eqn:Hfile;
    try (unfold pickle_load; rewrite Hfile; discriminate).
  rewrite (pickle_load_run path s cs Hfile). cbn [res st set_heap heap].
  intros [= <-]. exists cs. split; reflexivity.
Qed.

Lemma not_in_phase (P : nat -> Prop) t ev o :
  Forall (fun x => P (phase x.1)) t -> ~ P (phase ev) -> (ev, o) ∉ t.
Proof.
  intros Ht Hev Hin. rewrite Forall_forall in Ht. exact (Hev (Ht _ Hin)).
Qed.

Lemma phases_of {A} lo hi (m : M A) s (P : nat -> Prop) :
  emits (between lo hi) m ->
  (forall n, lo <= n <= hi -> P n) ->
  Forall (fun x => P (phase x.1)) (out (m s)).
Proof.
  intros Hm HP. eapply Forall_impl; [apply Hm|]. intros x Hx. apply HP, Hx.
Qed.

(** A run that builds its cases and writes [case_cleaned.p] has got through
    the building of the cases, and the checkpoint holds the contents that
    the cases had then. *)
Lemma cleaned_checkpoint_written cli s rs o :
  truthy_opt (opt_pickle cli) = false ->
  (EvDump "case_cleaned.p" rs, o) ∈ out (main cli s) ->
  exists config_data cleaned,
    config_ConfigManager = Ok config_data
    /\ res (main_cases (parse_arguments cli) config_data s) =
       Ok (seq (length (heap s)) (length cleaned))
    /\ heap (st (main_cases (parse_arguments cli) config_data s)) =
       heap s ++ cleaned
    /\ files (st (main_cases (parse_arguments cli) config_data s))
         !! "case_cleaned.p" = Some (Pickled cleaned).
Proof.
  intros Hfresh Hin. rewrite main_run in Hin.
  destruct config_ConfigManager as [config_data|e] eqn:Hcfg.
  2: { repeat (apply elem_of_cons in Hin as [Heq|Hin]; [discriminate|]).
       apply elem_of_nil in Hin. destruct Hin. }
  cbv zeta in Hin. exists config_data.
  set (args := parse_arguments cli) in *.
  assert (Forall (fun x => phase x.1 <> 11) startup_log) as Hstart
    by (repeat constructor; cbn; lia).
  assert (forall cases s1,
            Forall (fun x => phase x.1 <> 11)
              (out (main_rest args config_data cases s1))) as Hrest.
  { intros cases s1.
    apply (phases_of 12 16 _ _ (fun n => n <> 11));
      [apply phased_main_rest|intros; lia]. }
  assert (phase (EvDump "case_cleaned.p" rs) = 11) as Hphase by reflexivity.
  revert Hin. rewrite (main_cases_fresh args config_data Hfresh).
  rewrite res_bind, st_bind, out_bind.
  pose proof (frames_heap_create_jsons args config_data s) as Hheap0.
  pose proof (phases_of 2 7 (create_jsons args config_data) s
                (fun n => n <> 11) (proj1 (phased_create_jsons _ _))
                ltac:(intros; cbv beta; lia)) as Hcj.
  destruct (res (create_jsons args config_data s)) as [jsons|e].
  2: { intros Hin. exfalso. revert Hin. cbn [out].
       apply (not_in_phase (fun n => n <> 11)); [|rewrite Hphase; lia].
       rewrite app_nil_r. apply Forall_app; split; assumption. }
  set (s0 := st (create_jsons args config_data s)) in *.
  rewrite create_cases_split, res_bind, st_bind, out_bind.
  pose proof (phases_of 8 10 (build_cases config_data jsons) s0
                (fun n => n <> 11) (emits_build_cases _ _)
                ltac:(intros; cbv beta; lia)) as Hbuildout.
  destruct (res (build_cases config_data jsons s0)) as [case_objs|e]
    eqn:Hbuild.
  2: { intros Hin. exfalso. revert Hin. cbn [out].
       apply (not_in_phase (fun n => n <> 11)); [|rewrite Hphase; lia].
       rewrite !app_nil_r. rewrite !Forall_app. split_and!; assumption. }
  destruct (build_cases_layout _ _ _ _ Hbuild) as (cleaned & -> & Hheap).
  rewrite checkpoint_run, Hheap.
  pose proof (contents_of_fresh (heap s0) cleaned []) as Hc.
  rewrite app_nil_r in Hc. rewrite Hc.
  destruct (general_dump_intermediate config_data); cbn [res st out].
  - intros _. exists cleaned. rewrite <- Hheap0.
    split_and!; [reflexivity|reflexivity|exact Hheap|].
    cbn [set_files files]. apply lookup_insert_eq.
  - intros Hin. exfalso. revert Hin.
    apply (not_in_phase (fun n => n <> 11)); [|rewrite Hphase; lia].
    rewrite !app_nil_r. rewrite !Forall_app. split_and!; auto.
Qed.

(** Running again from [case_cleaned.p]: when a run that builds its cases
    has written the checkpoint [case_cleaned.p], a second run given that
    file with [--pickle], the same entry point and the same destination ends
    as the first one did, hands to the legacy export the same contents in the
    same order and saves the same records, whatever else the store holds. *)
Theorem rerun_from_case_cleaned cli cli' s s' rs o :
  truthy_opt (opt_pickle cli) = false ->
  (EvDump "case_cleaned.p" rs, o) ∈ out (main cli s) ->
  files s' !! "case_cleaned.p" = files (st (main cli s)) !! "case_cleaned.p" ->
  opt_pickle cli' = Some "case_cleaned.p" ->
  entry (parse_arguments cli') = entry (parse_arguments cli) ->
  output (parse_arguments cli') = output (parse_arguments cli) ->
  res (main cli' s') = res (main cli s)
  /\ exported_contents (out (main cli' s')) =
     exported_contents (out (main cli s))
  /\ saves (out (main cli' s')) = saves (out (main cli s)).
Proof.
  intros Hfresh Hin Hfile Hp' Hentry Hout.
  destruct (cleaned_checkpoint_written cli s rs o Hfresh Hin)
    as (config_data & cleaned & Hcfg & Hmc & Hheap & Hck).
  assert (files s' !! "case_cleaned.p" = Some (Pickled cleaned)) as Hfile'.
  { rewrite Hfile, main_run, Hcfg. cbv zeta. rewrite Hmc. cbn [st].
    rewrite (frames_main_rest_gen (fun s => files s !! "case_cleaned.p"));
      [exact Hck|intros ? ?; reflexivity|].
    intros _ c. apply frames_checkpoint_lookup. right. discriminate. }
  clear Hfile Hin.
  rewrite (main_run cli' s'), (main_run cli s), Hcfg. cbv zeta.
  pose proof (proj1 (phased_main_cases (parse_arguments cli) config_data) s)
    as Hmcout.
  rewrite Hmc.
  assert (main_cases (parse_arguments cli') config_data s' =
          pickle_load "case_cleaned.p" s') as ->.
  { unfold main_cases. cbn [parse_arguments pickle]. rewrite Hp'.
    reflexivity. }
  rewrite (pickle_load_run _ _ _ Hfile'). cbn [res st out].
  destruct (main_rest_relocate (parse_arguments cli') (parse_arguments cli)
              config_data cleaned (heap s') (heap s)
              (set_heap (heap s' ++ cleaned) s')
              (st (main_cases (parse_arguments cli) config_data s))
              (eq_sym Hentry) (eq_sym Hout) eq_refl Hheap)
    as (Hres & Hexp & Hsaves).
  assert (forall t, Forall (fun x => between 0 11 x.1) t ->
                    exported_contents t = [] /\ saves t = []) as Hnone.
  { intros t Ht. apply no_export_before. eapply Forall_impl; [exact Ht|].
    intros x. apply between_mono; lia. }
  destruct (Hnone startup_log) as [E0 S0];
    [repeat constructor; unfold between; cbn; lia|].
  destruct (Hnone [(EvLoad "case_cleaned.p", Returned)]) as [E1 S1];
    [repeat constructor; unfold between; cbn; lia|].
  destruct (Hnone (out (main_cases (parse_arguments cli) config_data s)))
    as [E2 S2].
  { eapply Forall_impl; [exact Hmcout|]. intros x. apply between_mono; lia. }
  rewrite !exported_contents_app, !saves_app, E0, E1, E2, S0, S1, S2.
  cbn [app]. split_and!; assumption.
Qed.

(** A run that writes [case_phenomized.p] has got through the phenomization,
    the checkpoint holds the contents that the cases had then, and what is
    left of the run is the legacy export of those cases. *)
Lemma phenomized_checkpoint_written cli s rs o :
  (EvDump "case_phenomized.p" rs, o) ∈ out (main cli s) ->
  exists config_data h cs' s2 t,
    config_ConfigManager = Ok config_data
    /\ heap s2 = h ++ cs'
    /\ files s2 !! "case_phenomized.p" = Some (Pickled cs')
    /\ Forall (fun x => between 0 14 x.1) t
    /\ main cli s =
       let r := convert_to_old_format (parse_arguments cli) config_data
                  (seq (length h) (length cs')) s2 in
       Run (res r) (st r) (t ++ out r).
Proof.
  rewrite main_run.
  destruct config_ConfigManager as [config_data|e] eqn:Hcfg.
  2: { intros Hin.
       repeat (apply elem_of_cons in Hin as [Heq|Hin]; [discriminate|]).
       apply elem_of_nil in Hin. destruct Hin. }
  cbv zeta. set (args := parse_arguments cli).
  assert (phase (EvDump "case_phenomized.p" rs) = 14) as Hphase by reflexivity.
  assert (Forall (fun x => between 0 1 x.1) startup_log) as Hstart
    by (repeat constructor; unfold between; cbn; lia).
  pose proof (proj1 (phased_main_cases args config_data) s) as Hmcout.
  assert (forall lo hi t, Forall (fun x => between lo hi x.1) t ->
                          hi < 14 \/ 14 < lo ->
                          Forall (fun x => phase x.1 <> 14) t) as Hoff.
  { intros lo hi t Ht Hb. eapply Forall_impl; [exact Ht|].
    intros x. unfold between. lia. }
  assert (forall lo hi t, Forall (fun x => between lo hi x.1) t -> hi <= 14 ->
                          Forall (fun x => between 0 14 x.1) t) as Hup.
  { intros lo hi t Ht Hb. eapply Forall_impl; [exact Ht|].
    intros x. unfold between. lia. }
  assert (forall cases s1,
            Forall (fun x => phase x.1 <> 14)
              (out (convert_to_old_format args config_data cases s1)))
    as Hconv.
  { intros cases s1. apply (Hoff 15 16); [|lia].
    apply phased_convert_to_old_format. }
  destruct (res (main_cases args config_data s)) as [cases|e] eqn:Hmc.
  2: { intros Hin. exfalso. revert Hin. cbn [out].
       apply (not_in_phase (fun n => n <> 14)); [|rewrite Hphase; lia].
       apply Forall_app; split; [apply (Hoff 0 1)|apply (Hoff 2 11)];
         auto; lia. }
  destruct (main_cases_layout _ _ _ _ Hmc) as (cs & -> & Hheap).
  set (s1 := st (main_cases args config_data s)) in *.
  set (cases := seq (length (heap s)) (length cs)).
  rewrite main_rest_run.
  destruct (String.eqb (entry args) "pheno").
  2: { intros Hin. exfalso. revert Hin. cbn [out].
       apply (not_in_phase (fun n => n <> 14)); [|rewrite Hphase; lia].
       rewrite !Forall_app.
       split_and!; [apply (Hoff 0 1)|apply (Hoff 2 11)|apply Hconv];
         auto; lia. }
  cbv zeta. rewrite phenomize_run.
  destruct (phenomizer_PhenomizerService config_data) as [phen|e].
  2: { intros Hin. exfalso. revert Hin. cbn [res out].
       apply (not_in_phase (fun n => n <> 14)); [|rewrite Hphase; lia].
       rewrite !Forall_app.
       split_and!; [apply (Hoff 0 1)|apply (Hoff 2 11)|];
         auto; try lia. }
  cbv zeta.
  pose proof (emits_yield_phenomized cases phen s1) as Hloopout.
  destruct (res (yield_phenomized cases phen s1)) as [us|e] eqn:Hloop.
  2: { intros Hin. exfalso. revert Hin. cbn [res out].
       apply (not_in_phase (fun n => n <> 14)); [|rewrite Hphase; lia].
       rewrite !Forall_app.
       split_and!; [apply (Hoff 0 1)|apply (Hoff 2 11)|];
         auto; try lia.
       try (constructor; [cbn; lia|]; apply (Hoff 13 13); auto; lia). }
  assert (heap s1 = heap s ++ cs ++ []) as Hheap'
    by (rewrite app_nil_r; exact Hheap).
  destruct (yield_phenomized_fresh cs (heap s) [] phen s1 us Hheap' Hloop)
    as (cs' & Hall & Hst).
  rewrite app_nil_r in Hst. fold cases in Hst.
  pose proof (Forall2_length _ _ _ Hall) as Hlen.
  assert (contents_of (heap s ++ cs') cases = Some cs') as Hfresh.
  { pose proof (contents_of_fresh (heap s) cs' []) as Hf.
    rewrite app_nil_r in Hf. unfold cases. rewrite Hlen. exact Hf. }
  change (phenomize_dump config_data cases)
    with (checkpoint (general_dump_intermediate config_data)
            "case_phenomized.p" cases).
  rewrite checkpoint_run, Hst. cbn [set_heap heap]. rewrite Hfresh.
  destruct (general_dump_intermediate config_data); cbn [res st out].
  2: { intros Hin. exfalso. revert Hin.
       apply (not_in_phase (fun n => n <> 14)); [|rewrite Hphase; lia].
       rewrite !Forall_app.
       split_and!; [apply (Hoff 0 1)|apply (Hoff 2 11)| |apply Hconv];
         auto; try lia.
       try (constructor; [cbn; lia|]; rewrite app_nil_r;
            apply (Hoff 13 13); auto; lia). }
  intros _.
  exists config_data, (heap s), cs',
    (set_files (<["case_phenomized.p" := Pickled cs']> (files s1))
       (set_heap (heap s ++ cs') s1)),
    (startup_log ++ out (main_cases args config_data s) ++
       (EvPhenomizerService, Returned)
         :: out (yield_phenomized cases phen s1) ++
            [(EvDump "case_phenomized.p" cases, Returned)]).
  split_and!.
  - reflexivity.
  - reflexivity.
  - cbn [set_files files]. apply lookup_insert_eq.
  - rewrite !Forall_app.
    split_and!; [apply (Hup 0 1)|apply (Hup 2 11)| ]; auto; try lia.
    constructor; [unfold between; cbn; lia|].
    apply Forall_app; split; [apply (Hup 13 13); auto; lia|].
    repeat constructor; unfold between; cbn; lia.
  - cbv zeta. unfold cases. rewrite Hlen. f_equal.
    rewrite <- !app_assoc. reflexivity.
Qed.

(** Running again from [case_phenomized.p]: when a run has written the
    checkpoint [case_phenomized.p], a second run given that file with
    [--pickle], an entry point other than ["pheno"] and the same destination
    ends as the first one did, hands to the legacy export the same contents
    in the same order and saves the same records. *)
Theorem rerun_from_case_phenomized cli cli' s s' rs o :
  (EvDump "case_phenomized.p" rs, o) ∈ out (main cli s) ->
  files s' !! "case_phenomized.p" =
  files (st (main cli s)) !! "case_phenomized.p" ->
  opt_pickle cli' = Some "case_phenomized.p" ->
  entry (parse_arguments cli') <> "pheno" ->
  output (parse_arguments cli') = output (parse_arguments cli) ->
  res (main cli' s') = res (main cli s)
  /\ exported_contents (out (main cli' s')) =
     exported_contents (out (main cli s))
  /\ saves (out (main cli' s')) = saves (out (main cli s)).
Proof.
  intros Hin Hfile Hp' Hentry Hout.
  destruct (phenomized_checkpoint_written cli s rs o Hin)
    as (config_data & h & cs' & s2 & t & Hcfg & Hheap & Hck & Ht & Hmain).
  clear Hin. rewrite Hmain in *. cbv zeta in *. cbn [res st out] in *.
  rewrite (frames_state_convert _ _ _ s2), Hck in Hfile.
  rewrite (main_run cli' s'), Hcfg. cbv zeta.
  assert (main_cases (parse_arguments cli') config_data s' =
          pickle_load "case_phenomized.p" s') as ->.
  { unfold main_cases. cbn [parse_arguments pickle]. rewrite Hp'.
    reflexivity. }
  rewrite (pickle_load_run _ _ _ Hfile). cbn [res st out].
  rewrite main_rest_run.
  destruct (String.eqb_spec (entry (parse_arguments cli')) "pheno")
    as [Heq|_]; [destruct (Hentry Heq)|].
  destruct (convert_relocate (parse_arguments cli') (parse_arguments cli)
              config_data cs' (heap s') h
              (set_heap (heap s' ++ cs') s') s2
              (eq_sym Hout) eq_refl Hheap)
    as (Hres & Hexp & Hsaves).
  destruct (no_export_before t Ht) as [E0 S0].
  destruct (no_export_before startup_log) as [E1 S1];
    [repeat constructor; unfold between; cbn; lia|].
  destruct (no_export_before [(EvLoad "case_phenomized.p", Returned)])
    as [E2 S2]; [repeat constructor; unfold between; cbn; lia|].
  cbn [res out].
  rewrite !exported_contents_app, !saves_app, E0, E1, E2, S0, S1, S2.
  cbn [app]. split_and!; assumption.
Qed.

End Reproduce.

Lemma rerun_from_case_cleaned_witness :
  let first := main (H := demo_W) (demo_cli None None) demo_s0 in
  let second :=
    main (H := demo_W) (demo_cli None (Some "case_cleaned.p"))
      (@Build_state demo_W [] [] (files (st first))) in
  res second = res first
  /\ exported_contents (H := demo_W) (out second) =
     exported_contents (H := demo_W) (out first)
  /\ saves (H := demo_W) (out second) = saves (H := demo_W) (out first).
Proof.
  apply (rerun_from_case_cleaned (H := demo_W) (demo_cli None None)
           (demo_cli None (Some "case_cleaned.p")) demo_s0
           (@Build_state demo_W [] []
              (files (st (main (H := demo_W) (demo_cli None None) demo_s0))))
           [0; 1] Returned).
  - reflexivity.
  - vm_compute.
    repeat first [apply list_elem_of_here | apply list_elem_of_further].
  - reflexivity.
  - reflexivity.
  - reflexivity.
  - reflexivity.
Defined.

Lemma rerun_from_case_phenomized_witness :
  let first := main (H := demo_W) (demo_cli None None) demo_s0 in
  let again :=
    {| opt_single := None; opt_output := None;
       opt_pickle := Some "case_phenomized.p"; opt_entry := Some "export" |} in
  let second :=
    main (H := demo_W) again (@Build_state demo_W [] [] (files (st first))) in
  res second = res first
  /\ exported_contents (H := demo_W) (out second) =
     exported_contents (H := demo_W) (out first)
  /\ saves (H := demo_W) (out second) = saves (H := demo_W) (out first).
Proof.
  apply (rerun_from_case_phenomized (H := demo_W) (demo_cli None None)
           {| opt_single := None; opt_output := None;
              opt_pickle := Some "case_phenomized.p";
              opt_entry := Some "export" |}
           demo_s0
           (@Build_state demo_W [] []
              (files (st (main (H := demo_W) (demo_cli None None) demo_s0))))
           [0; 1] Returned).
  - vm_compute.
    repeat first [apply list_elem_of_here | apply list_elem_of_further].
  - reflexivity.
  - reflexivity.
  - vm_compute. discriminate.
  - reflexivity.
Defined.
